(** * kd_fof.c : Friend-of-Friend labelling over a KD-tree

    A shallow embedding of [src/kdcount/kd_fof.c] and the properties of
    its union-find engine.

    Conventions of the embedding.
    - [ptrdiff_t] and [int] values are [Z].  Signed overflow is undefined
      in C and the counters of this file only ever count loop iterations,
      so no wrap-around is written out.
    - [double] is the binary64 type [float] of the standard library, with
      its own [+], [-], [*] and [<=?].
    - An array in memory is a [list]; a read or a write outside of it is
      undefined in C and is a failure ([None]) here.  A loop that does
      not terminate in C has no result ([None]) here either.
    - [kdtree.h] and the dual-tree enumeration ([kd_enum_always_open],
      [kd_enum_check]) are not part of the file under study; the
      enumeration is taken as a pair of parameters that list what it
      delivers to the call-backs. *)

From Stdlib Require Import ZArith Lia Bool List.
From Stdlib Require Import PrimFloat.
From Stdlib Require FloatOps FloatAxioms SpecFloat.
From stdpp Require Import base tactics option list list_numbers.

Local Open Scope Z_scope.

(** ** Memory: arrays indexed by [ptrdiff_t] *)

Section Arrays.
Context {A : Type}.

(** [a[i]] as an rvalue. *)
Definition rd (a : list A) (i : Z) : option A :=
  if i <? 0 then None else a !! Z.to_nat i.

(** [a[i] = v]. *)
Definition wr (a : list A) (i : Z) (v : A) : option (list A) :=
  if (0 <=? i) && (i <? Z.of_nat (length a))
  then Some (<[Z.to_nat i := v]> a) else None.
End Arrays.

(** A [for] loop over the values of [l], with a body that may fail. *)
Fixpoint for_each {S B : Type} (body : S -> B -> option S) (l : list B) (s : S)
  : option S :=
  match l with
  | [] => Some s
  | b :: l' =>
      match body s b with
      | Some s' => for_each body l' s'
      | None => None
      end
  end.

(** ** Data model *)

(** Three coordinates, as read through [kd_node_min(node)[d]] and
    [kd_node_max(node)[d]] for [d < 3]. *)
Definition vec3 : Type := float * float * float.

Definition coord (v : vec3) (d : nat) : float :=
  match v, d with
  | (x, _, _), O => x
  | (_, y, _), S O => y
  | (_, _, z), _ => z
  end.

(** The fields of a [KDNode] that [kd_fof.c] reads. *)
Record NodeInfo : Type := mkNodeInfo {
  info_index : Z;
  info_start : Z;
  info_size : Z;
  info_min : vec3;
  info_max : vec3
}.

(** A node is a leaf ([dim == -1], no children) or has a split dimension
    and the two children [link[0]], [link[1]]. *)
Inductive KDNode : Type :=
| Leaf (info : NodeInfo)
| Split (info : NodeInfo) (split_dim : nat) (link0 link1 : KDNode).

Definition node_info (node : KDNode) : NodeInfo :=
  match node with
  | Leaf info => info
  | Split info _ _ _ => info
  end.

Definition index (node : KDNode) : Z := info_index (node_info node).
Definition start (node : KDNode) : Z := info_start (node_info node).
Definition size (node : KDNode) : Z := info_size (node_info node).
Definition kd_node_min (node : KDNode) : vec3 := info_min (node_info node).
Definition kd_node_max (node : KDNode) : vec3 := info_max (node_info node).

Definition dim (node : KDNode) : Z :=
  match node with
  | Leaf _ => -1
  | Split _ d _ _ => Z.of_nat d
  end.

(** The fields of [node->tree] that [kd_fof] reads: the number of nodes
    and the permutation from storage order to point index. *)
Record KDTree : Type := mkKDTree {
  tree_size : Z;
  tree_ind : list Z
}.

Record TraverseData : Type := mkTraverseData {
  head : list Z;
  ind : list Z;
  node_connected : option (list Z);
  ll : float;
  ll2 : float;
  visited : Z;
  connected : Z;
  skipped : Z;
  maxdepth : Z;
  nsplay : Z;
  totaldepth : Z
}.

Record KDEnumPair : Type := mkKDEnumPair {
  pair_i : Z;
  pair_j : Z
}.

Record KDEnumNodePair : Type := mkKDEnumNodePair {
  nodes : KDNode * KDNode
}.

Definition set_head (d : TraverseData) (h : list Z) : TraverseData :=
  mkTraverseData h (ind d) (node_connected d) (ll d) (ll2 d) (visited d)
    (connected d) (skipped d) (maxdepth d) (nsplay d) (totaldepth d).

Definition set_node_connected (d : TraverseData) (f : option (list Z))
  : TraverseData :=
  mkTraverseData (head d) (ind d) f (ll d) (ll2 d) (visited d)
    (connected d) (skipped d) (maxdepth d) (nsplay d) (totaldepth d).

Definition set_visited (d : TraverseData) (v : Z) : TraverseData :=
  mkTraverseData (head d) (ind d) (node_connected d) (ll d) (ll2 d) v
    (connected d) (skipped d) (maxdepth d) (nsplay d) (totaldepth d).

Definition set_connected (d : TraverseData) (v : Z) : TraverseData :=
  mkTraverseData (head d) (ind d) (node_connected d) (ll d) (ll2 d)
    (visited d) v (skipped d) (maxdepth d) (nsplay d) (totaldepth d).

Definition set_maxdepth (d : TraverseData) (v : Z) : TraverseData :=
  mkTraverseData (head d) (ind d) (node_connected d) (ll d) (ll2 d)
    (visited d) (connected d) (skipped d) v (nsplay d) (totaldepth d).

Definition set_nsplay (d : TraverseData) (v : Z) : TraverseData :=
  mkTraverseData (head d) (ind d) (node_connected d) (ll d) (ll2 d)
    (visited d) (connected d) (skipped d) (maxdepth d) v (totaldepth d).

Definition set_totaldepth (d : TraverseData) (v : Z) : TraverseData :=
  mkTraverseData (head d) (ind d) (node_connected d) (ll d) (ll2 d)
    (visited d) (connected d) (skipped d) (maxdepth d) (nsplay d) v.

(** ** [splay] *)

(** The first loop of [splay]: [while(d->head[r] != r) { depth ++; r = d->head[r]; }].
    One unit of [fuel] is one evaluation of the loop condition. *)
Fixpoint splay_find (fuel : nat) (h : list Z) (r depth : Z) : option (Z * Z) :=
  match fuel with
  | O => None
  | S fuel' =>
      match rd h r with
      | None => None
      | Some hr =>
          if hr =? r then Some (r, depth) else splay_find fuel' h hr (depth + 1)
      end
  end.

(** The second loop of [splay] without [KD_FOF_UNSAFE]:
    [while(d->head[i] != i) { t = d->head[i]; d->head[i] = r; i = t; }]. *)
Fixpoint splay_link (fuel : nat) (h : list Z) (i r : Z) : option (list Z) :=
  match fuel with
  | O => None
  | S fuel' =>
      match rd h i with
      | None => None
      | Some t =>
          if t =? i then Some h
          else match wr h i r with
               | None => None
               | Some h' => splay_link fuel' h' t r
               end
      end
  end.

(** [splay(d, i)].  [KD_FOF_UNSAFE] tells which branch of the [#ifdef]
    was compiled.  A walk over an array of [n] cells that terminates
    evaluates its condition at most [n] times ([splay_find_fuel] and
    [splay_total] below), so [n] is the fuel of both loops. *)
Definition splay (KD_FOF_UNSAFE : bool) (d : TraverseData) (i : Z)
  : option (TraverseData * Z) :=
  match splay_find (length (head d)) (head d) i 0 with
  | None => None
  | Some (r, depth) =>
      match (if KD_FOF_UNSAFE then wr (head d) i r
             else splay_link (length (head d)) (head d) i r) with
      | None => None
      | Some h' =>
          let d := set_head d h' in
          let d := if depth >? maxdepth d then set_maxdepth d depth else d in
          let d := set_totaldepth d (totaldepth d + depth) in
          let d := set_nsplay d (nsplay d + 1) in
          Some (d, r)
      end
  end.

(** ** The visitors *)

(** [_kd_fof_visit_edge]. *)
Definition _kd_fof_visit_edge (KD_FOF_UNSAFE : bool) (trav : TraverseData)
    (pair : KDEnumPair) : option (TraverseData * Z) :=
  let i := pair_i pair in
  let j := pair_j pair in
  let trav := set_visited trav (visited trav + 1) in
  match splay KD_FOF_UNSAFE trav i with
  | None => None
  | Some (trav, root_i) =>
      match splay KD_FOF_UNSAFE trav j with
      | None => None
      | Some (trav, root_j) =>
          match wr (head trav) root_j root_i with
          | None => None
          | Some h => Some (set_head trav h, 0)
          end
      end
  end.

(** [_kd_fof_visit_edge_first]: the body calls the function itself and
    then returns [-1].  [fuel] bounds the depth of the call stack. *)
Fixpoint _kd_fof_visit_edge_first (fuel : nat) (trav : TraverseData)
    (pair : KDEnumPair) : option (TraverseData * Z) :=
  match fuel with
  | O => None
  | S fuel' =>
      match _kd_fof_visit_edge_first fuel' trav pair with
      | None => None
      | Some (trav', _) => Some (trav', -1)
      end
  end.

(** ** The prepass *)

(** [kd_node_maxdist2]. *)
Definition kd_node_maxdist2 (node : KDNode) : float :=
  fold_left
    (fun dist d =>
       let dx := (coord (kd_node_max node) d - coord (kd_node_min node) d)%float in
       (dist + dx * dx)%float)
    [0%nat; 1%nat; 2%nat] 0%float.

(** The values of [i] in [for(i = lo; i < hi; i ++)]. *)
Definition range (lo hi : Z) : list Z := seqZ lo (hi - lo).

(** The loop of [connect]:
    [for(i = node->start + 1; i < node->size + node->start; i ++) trav->head[trav->ind[i]] = r;] *)
Definition connect_points (ind : list Z) (r : Z) (node : KDNode) (h : list Z)
  : option (list Z) :=
  for_each
    (fun h i => match rd ind i with
                | None => None
                | Some p => wr h p r
                end)
    (range (start node + 1) (size node + start node)) h.

(** The part of [connect] before the recursive calls; the result is the
    new state and the value of [c]. *)
Definition connect_node (trav : TraverseData) (node : KDNode) (parent_connected : Z)
  : option (TraverseData * Z) :=
  match
    (if negb (parent_connected =? 0) then Some (trav, 1)
     else if (kd_node_maxdist2 node <=? ll2 trav)%float then
       match rd (ind trav) (start node) with
       | None => None
       | Some r =>
           match connect_points (ind trav) r node (head trav) with
           | None => None
           | Some h => Some (set_head trav h, 1)
           end
       end
     else Some (trav, 0))
  with
  | None => None
  | Some (trav, c) =>
      match node_connected trav with
      | None => None
      | Some flags =>
          match wr flags (index node) c with
          | None => None
          | Some flags' =>
              let trav := set_node_connected trav (Some flags') in
              Some (set_connected trav (connected trav + c), c)
          end
      end
  end.

(** [connect]. *)
Fixpoint connect (trav : TraverseData) (node : KDNode) (parent_connected : Z)
  : option TraverseData :=
  match connect_node trav node parent_connected with
  | None => None
  | Some (trav, c) =>
      match node with
      | Leaf _ => Some trav                    (* node->dim == -1 *)
      | Split _ _ link0 link1 =>               (* node->dim != -1 *)
          match connect trav link0 c with
          | None => None
          | Some trav => connect trav link1 c
          end
      end
  end.

(** ** The enumeration engine

    [kd_enum_always_open] and [kd_enum_check] are declared in [kdtree.h]
    and defined outside of [kd_fof.c].  With call-backs that always return
    the same value, as the ones of [kd_fof.c] do, what the engine hands
    over depends on the tree and the threshold only; it is given by two
    parameters. *)

(** Modelled from the spec: the loop of [kd_enum_check] over the point
    pairs [l] within the threshold.  It calls the edge call-back on every
    pair and stops at the first call that returns a stop signal (a value
    other than [0]). *)
Fixpoint enum_edges (visit_edge : TraverseData -> KDEnumPair -> option (TraverseData * Z))
    (l : list (Z * Z)) (data : TraverseData) : option (TraverseData * Z) :=
  match l with
  | [] => Some (data, 0)
  | (i, j) :: l' =>
      match visit_edge data (mkKDEnumPair i j) with
      | None => None
      | Some (data, rt) =>
          if rt =? 0 then enum_edges visit_edge l' data else Some (data, -1)
      end
  end.

(** ** The run *)

(** The first loop of [kd_fof]: [trav->head[i] = i]. *)
Definition kd_fof_init (n : Z) (h : list Z) : option (list Z) :=
  for_each (fun h i => wr h i i) (range 0 n) h.

(** The last loop of [kd_fof]: [trav->head[i] = splay(trav, i)]. *)
Definition kd_fof_finalize (KD_FOF_UNSAFE : bool) (n : Z) (trav : TraverseData)
  : option TraverseData :=
  for_each
    (fun trav i =>
       match splay KD_FOF_UNSAFE trav i with
       | None => None
       | Some (trav, r) =>
           match wr (head trav) i r with
           | None => None
           | Some h => Some (set_head trav h)
           end
       end)
    (range 0 n) trav.

(** [calloc(n, 1)]: [n] zero bytes, or [NULL] when the allocation
    fails. *)
Definition calloc (ok : bool) (n : Z) : option (list Z) :=
  if ok then Some (repeat 0 (Z.to_nat n)) else None.

(** The state of [*trav] when [connect] is called. *)
Definition kd_fof_setup (calloc_ok : bool) (tree : KDTree) (node : KDNode)
    (linking_length : float) (head : list Z) : option TraverseData :=
  match kd_fof_init (size node) head with
  | None => None
  | Some h =>
      Some (mkTraverseData h (tree_ind tree)
              (calloc calloc_ok (tree_size tree))
              linking_length (linking_length * linking_length)%float
              0 0 0 0 0 0)
  end.

(** The state of [*trav] when the enumeration is called. *)
Definition kd_fof_prepass (calloc_ok : bool) (tree : KDTree) (node : KDNode)
    (linking_length : float) (head : list Z) : option TraverseData :=
  match kd_fof_setup calloc_ok tree node linking_length head with
  | None => None
  | Some trav => connect trav node 0
  end.

Section Traversal.

(** The node pairs that [kd_enum_always_open(nodes, maxr, ...)] hands to
    its node call-back, in the order of the calls. *)
Variable enum_node_pairs : KDNode * KDNode -> float -> list (KDNode * KDNode).

(** The point pairs [(i, j)] under a node pair that
    [kd_enum_check(nodes, rmax2, skip_symmetric, ...)] finds within
    [rmax2] and hands to its edge call-back, in the order of the calls. *)
Variable enum_point_pairs : KDNode * KDNode -> float -> Z -> list (Z * Z).

(** Modelled from the spec: [kd_enum_check] of the enumeration engine,
    per-point edge enumeration restricted to the pairs within the
    threshold. *)
Definition kd_enum_check (nds : KDNode * KDNode) (rmax2 : float)
    (skip_symmetric : Z)
    (visit_edge : TraverseData -> KDEnumPair -> option (TraverseData * Z))
    (data : TraverseData) : option (TraverseData * Z) :=
  enum_edges visit_edge (enum_point_pairs nds rmax2 skip_symmetric) data.

(** [_kd_fof_check_nodes]. *)
Definition _kd_fof_check_nodes (KD_FOF_UNSAFE : bool) (fuel : nat)
    (trav : TraverseData) (pair : KDEnumNodePair) : option (TraverseData * Z) :=
  match node_connected trav with
  | None => None
  | Some flags =>
      match rd flags (index (fst (nodes pair))) with
      | None => None
      | Some c0 =>
          match (if c0 =? 0 then Some false
                 else match rd flags (index (snd (nodes pair))) with
                      | None => None
                      | Some c1 => Some (negb (c1 =? 0))
                      end) with
          | None => None
          | Some both_connected =>
              match
                (if both_connected : bool
                 then kd_enum_check (nodes pair) (ll2 trav) 1
                        (_kd_fof_visit_edge_first fuel) trav
                 else kd_enum_check (nodes pair) (ll2 trav) 1
                        (_kd_fof_visit_edge KD_FOF_UNSAFE) trav)
              with
              | None => None
              | Some (trav, _) => Some (trav, 0)
              end
          end
      end
  end.

(** Modelled from the spec: [kd_enum_always_open] of the enumeration
    engine.  It calls the node call-back on every node pair it delivers;
    a stop signal of the call-back ends the exploration of that pair
    only. *)
Definition kd_enum_always_open (nds : KDNode * KDNode) (maxr : float)
    (check_nodes : TraverseData -> KDEnumNodePair -> option (TraverseData * Z))
    (data : TraverseData) : option (TraverseData * Z) :=
  match
    for_each
      (fun data np => match check_nodes data (mkKDEnumNodePair np) with
                      | None => None
                      | Some (data, _) => Some data
                      end)
      (enum_node_pairs nds maxr) data
  with
  | None => None
  | Some data => Some (data, 0)
  end.

(** The state of [*trav] when the last loop starts. *)
Definition kd_fof_traverse (KD_FOF_UNSAFE : bool) (fuel : nat)
    (calloc_ok : bool) (tree : KDTree) (node : KDNode)
    (linking_length : float) (head : list Z) : option TraverseData :=
  match kd_fof_prepass calloc_ok tree node linking_length head with
  | None => None
  | Some trav =>
      match kd_enum_always_open (node, node) linking_length
              (_kd_fof_check_nodes KD_FOF_UNSAFE fuel) trav with
      | None => None
      | Some (trav, _) => Some trav
      end
  end.

(** [kd_fof(node, linking_length, head)], with [tree = node->tree].  The
    result is the value copied into [last_traverse] (whose [head] is the
    caller's array after the run) and the returned [int].  [fuel] is the
    stack that [_kd_fof_visit_edge_first] may use. *)
Definition kd_fof (KD_FOF_UNSAFE : bool) (fuel : nat) (calloc_ok : bool)
    (tree : KDTree) (node : KDNode) (linking_length : float) (head : list Z)
  : option (TraverseData * Z) :=
  match kd_fof_traverse KD_FOF_UNSAFE fuel calloc_ok tree node
          linking_length head with
  | None => None
  | Some trav =>
      match kd_fof_finalize KD_FOF_UNSAFE (size node) trav with
      | None => None
      | Some trav =>
          (* free(trav->node_connected): the buffer is gone *)
          Some (set_node_connected trav None, 0)
      end
  end.

End Traversal.

(** [kd_fof_get_last_traverse_info]: the five values written through the
    pointers, in the order of the parameters. *)
Definition kd_fof_get_last_traverse_info (last_traverse : TraverseData)
  : Z * Z * Z * Z * Z :=
  (visited last_traverse, connected last_traverse, maxdepth last_traverse,
   nsplay last_traverse, totaldepth last_traverse).


(** ** Specification vocabulary *)

(** [path h x l r]: the walk [x, head[x], head[head[x]], ...] reaches the
    root [r] (a cell that is its own parent); [l] lists the cells walked
    before [r], starting with [x]. *)
Inductive path (h : list Z) : Z -> list Z -> Z -> Prop :=
| path_root r : rd h r = Some r -> path h r [] r
| path_step x p l r :
    rd h x = Some p -> p <> x -> path h p l r -> path h x (x :: l) r.

Definition root_of (h : list Z) (x r : Z) : Prop := exists l, path h x l r.

Definition same_root (h : list Z) (x y : Z) : Prop :=
  exists r, root_of h x r /\ root_of h y r.

(** Following parent pointers from any cell of the array ends at a root. *)
Definition forest (h : list Z) : Prop :=
  forall x, 0 <= x < Z.of_nat (length h) -> exists r, root_of h x r.

(** [h'] is [h] with some cells relinked to their own root. *)
Definition compressed (h h' : list Z) : Prop :=
  length h' = length h /\
  forall y, rd h' y = rd h y \/ exists r, rd h' y = Some r /\ root_of h y r.

(** The cell [x] points to a root. *)
Definition flat (h : list Z) (x : Z) : Prop :=
  exists r, rd h x = Some r /\ rd h r = Some r.

(** The root of a cell after the root [rj] is linked under the root [ri],
    from its root [r] before. *)
Definition merged (ri rj r : Z) : Z := if decide (r = rj) then ri else r.

(** The point indices under a node: [ind[start .. start + size - 1]]. *)
Definition node_points (ind : list Z) (node : KDNode) : list Z :=
  omap (rd ind) (range (start node) (start node + size node)).

(** The node and all nodes below it, in the order [connect] visits them. *)
Fixpoint subnodes (node : KDNode) : list KDNode :=
  node :: match node with
          | Leaf _ => []
          | Split _ _ link0 link1 => subnodes link0 ++ subnodes link1
          end.

(** Every parent pointer of the first [n] cells stays inside the
    relation [R]. *)
Definition linked (R : Z -> Z -> Prop) (n : Z) (h : list Z) : Prop :=
  forall x p, 0 <= x < n -> rd h x = Some p -> R x p.

(** The fields that only [kd_fof] and [connect] write. *)
Definition same_setup (d d' : TraverseData) : Prop :=
  ind d' = ind d /\ node_connected d' = node_connected d /\
  ll2 d' = ll2 d /\ connected d' = connected d.

(** The value of [c] that [connect] computes at a node. *)
Definition node_flag (ll2 : float) (node : KDNode) (parent_connected : Z) : Z :=
  if negb (parent_connected =? 0) then 1
  else if (kd_node_maxdist2 node <=? ll2)%float then 1 else 0.

(** The nodes below and including [node] with their value of [c], in the
    order [connect] visits them. *)
Fixpoint node_flags (ll2 : float) (node : KDNode) (parent_connected : Z)
  : list (KDNode * Z) :=
  let c := node_flag ll2 node parent_connected in
  (node, c) :: match node with
               | Leaf _ => []
               | Split _ _ link0 link1 =>
                   node_flags ll2 link0 c ++ node_flags ll2 link1 c
               end.

(** The nodes that [connect] marks internally connected. *)
Definition connected_nodes (ll2 : float) (node : KDNode) (parent_connected : Z)
  : list KDNode :=
  fst <$> filter (fun nc => snd nc <> 0) (node_flags ll2 node parent_connected).


(** The index ranges of the nodes are nested as in a KD-tree: a node
    covers [[start, start + size)] inside [ind], and its children split
    that range in two. *)
Fixpoint wf_node (n_ind : Z) (node : KDNode) : Prop :=
  0 <= start node /\ 0 <= size node /\ start node + size node <= n_ind /\
  match node with
  | Leaf _ => True
  | Split _ _ link0 link1 =>
      start link0 = start node /\
      start link1 = start node + size link0 /\
      size link0 + size link1 = size node /\
      wf_node n_ind link0 /\ wf_node n_ind link1
  end.

(** What [kd_fof] expects of its arguments: [node] covers distinct points
    of [0 .. size - 1], and [head] has one cell per point. *)
Definition wf_input (tree : KDTree) (node : KDNode) (head : list Z) : Prop :=
  wf_node (Z.of_nat (length (tree_ind tree))) node /\
  NoDup (node_points (tree_ind tree) node) /\
  (forall p, p ∈ node_points (tree_ind tree) node -> 0 <= p < size node) /\
  Z.of_nat (length head) = size node.

(** [chain near i j]: there are points [i = p0, p1, ..., pk = j] with
    [near p_m p_(m+1)] for every [m]. *)
Inductive chain (near : Z -> Z -> Prop) : Z -> Z -> Prop :=
| chain_nil i : chain near i i
| chain_cons i p j : near i p -> chain near p j -> chain near i j.

(** ** The operations of a run *)

Inductive run_op : Type :=
| OpConnect (node : KDNode) (parent_connected : Z)
| OpSplay (i : Z)
| OpVisitEdge (pair : KDEnumPair)
| OpCheckNodes (pair : KDEnumNodePair)
| OpEnumerate (nds : KDNode * KDNode) (maxr : float)
| OpFinalize (n : Z).

Definition run_op_exec
    (enum_node_pairs : KDNode * KDNode -> float -> list (KDNode * KDNode))
    (enum_point_pairs : KDNode * KDNode -> float -> Z -> list (Z * Z))
    (KD_FOF_UNSAFE : bool) (fuel : nat) (op : run_op) (trav : TraverseData)
  : option TraverseData :=
  match op with
  | OpConnect node parent_connected => connect trav node parent_connected
  | OpSplay i => fst <$> splay KD_FOF_UNSAFE trav i
  | OpVisitEdge e => fst <$> _kd_fof_visit_edge KD_FOF_UNSAFE trav e
  | OpCheckNodes np =>
      fst <$> _kd_fof_check_nodes enum_point_pairs KD_FOF_UNSAFE fuel trav np
  | OpEnumerate nds maxr =>
      fst <$> kd_enum_always_open enum_node_pairs nds maxr
                (_kd_fof_check_nodes enum_point_pairs KD_FOF_UNSAFE fuel) trav
  | OpFinalize n => kd_fof_finalize KD_FOF_UNSAFE n trav
  end.

(** Where the run calls the operation: [connect] is called on a node of
    a well-formed tree; when no node above it is marked, no point of the
    node has been given a parent yet. *)
Definition run_op_pre (op : run_op) (trav : TraverseData) : Prop :=
  match op with
  | OpConnect node parent_connected =>
      parent_connected = 0 ->
      wf_node (Z.of_nat (length (ind trav))) node /\
      NoDup (node_points (ind trav) node) /\
      forall p, p ∈ node_points (ind trav) node -> rd (head trav) p = Some p
  | _ => True
  end.

(** Two runs that both fail, or both return, with related results. *)
Definition both {A B : Type} (R : A -> B -> Prop) (o1 : option A) (o2 : option B)
  : Prop :=
  match o1, o2 with
  | Some a, Some b => R a b
  | None, None => True
  | _, _ => False
  end.

(** Two states of a run in the two modes of [splay]: the same roots, and
    the same fields that the visitors read. *)
Definition same_roots (d1 d2 : TraverseData) : Prop :=
  ind d1 = ind d2 /\ node_connected d1 = node_connected d2 /\
  ll2 d1 = ll2 d2 /\ length (head d1) = length (head d2) /\
  forall x r, root_of (head d1) x r <-> root_of (head d2) x r.

(** ** Diagnostics and edge sets *)

(** The depth counters agree with each other: the deepest walk is no
    longer than the sum of all walks, the sum is at most [nsplay] walks
    of the deepest length, and no walk is as long as the array. *)
Definition depth_counters_ok (d : TraverseData) : Prop :=
  0 <= maxdepth d <= totaldepth d /\
  totaldepth d <= maxdepth d * nsplay d /\ 0 <= nsplay d /\
  maxdepth d < Z.max 1 (Z.of_nat (length (head d))).

(** The number of point pairs that the enumeration hands to the edge
    call-back under the node pairs [l]. *)
Definition edges_delivered
    (enum_point_pairs : KDNode * KDNode -> float -> Z -> list (Z * Z))
    (rmax2 : float) (l : list (KDNode * KDNode)) : Z :=
  Z.of_nat (sum_list_with (fun np => length (enum_point_pairs np rmax2 1)) l).

(** The point pair [(i, j)] is handed to the edge call-back in a run on
    [node] with the linking length [linking_length]. *)
Definition delivered
    (enum_node_pairs : KDNode * KDNode -> float -> list (KDNode * KDNode))
    (enum_point_pairs : KDNode * KDNode -> float -> Z -> list (Z * Z))
    (node : KDNode) (linking_length : float) (i j : Z) : Prop :=
  exists np, np ∈ enum_node_pairs (node, node) linking_length /\
    (i, j) ∈ enum_point_pairs np (linking_length * linking_length)%float 1.

(** One step between two cells: the same root in [h], or an edge of [E]
    in one direction or the other. *)
Definition joined (h : list Z) (E : Z -> Z -> Prop) (a b : Z) : Prop :=
  same_root h a b \/ E a b \/ E b a.

(** An enumeration of the same point pairs as [ex_point_pairs] under the
    root pair, in the other order. *)
Definition ex_point_pairs_rev (nds : KDNode * KDNode) (rmax2 : float) (skip : Z)
  : list (Z * Z) := [(1, 2); (0, 1)].

(** ** A data set of four points

    Four points on a line, at 0, 1, 2 and 10, with a linking length of
    1.5.  The tree splits down to leaves of one point:

      ex_root (0 .. 10) --- ex_left (0 .. 1) ---- ex_leaf0 (point 0)
                        |                    `--- ex_leaf1 (point 1)
                        `-- ex_right (2 .. 10) -- ex_leaf2 (point 2)
                                             `--- ex_leaf3 (point 3) *)

Definition ex_leaf0 : KDNode :=
  Leaf (mkNodeInfo 2 0 1 (0, 0, 0)%float (0, 0, 0)%float).

Definition ex_leaf1 : KDNode :=
  Leaf (mkNodeInfo 3 1 1 (1, 0, 0)%float (1, 0, 0)%float).

Definition ex_leaf2 : KDNode :=
  Leaf (mkNodeInfo 5 2 1 (2, 0, 0)%float (2, 0, 0)%float).

Definition ex_leaf3 : KDNode :=
  Leaf (mkNodeInfo 6 3 1 (10, 0, 0)%float (10, 0, 0)%float).

Definition ex_left : KDNode :=
  Split (mkNodeInfo 1 0 2 (0, 0, 0)%float (1, 0, 0)%float) 0 ex_leaf0 ex_leaf1.

Definition ex_right : KDNode :=
  Split (mkNodeInfo 4 2 2 (2, 0, 0)%float (10, 0, 0)%float) 0 ex_leaf2 ex_leaf3.

Definition ex_root : KDNode :=
  Split (mkNodeInfo 0 0 4 (0, 0, 0)%float (10, 0, 0)%float) 0 ex_left ex_right.

Definition ex_tree : KDTree := mkKDTree 7 [0; 1; 2; 3].

Definition ex_ll : float := 1.5%float.

(** The caller's array before the run: any four values. *)
Definition ex_head : list Z := [7; 7; 7; 7].

(** Within 1.5 of each other: 0 and 1, 1 and 2, and every point and
    itself. *)
Definition ex_near (i j : Z) : Prop :=
  0 <= i < 4 /\ 0 <= j < 4 /\
  (i = j \/ (i <= 2 /\ j <= 2 /\ (j = i + 1 \/ i = j + 1))).

(** The pairs [(i, j)] of distinct points within 1.5 of each other, with
    [i < j], are (0, 1) and (1, 2).  Point 0 lies under the nodes of index
    0, 1, 2, point 1 under 0, 1, 3, and point 2 under 0, 4, 5. *)
Definition ex_point_pairs (nds : KDNode * KDNode) (rmax2 : float) (skip : Z)
  : list (Z * Z) :=
  let under (l : list Z) (n : KDNode) := bool_decide (index n ∈ l) in
  (if under [0; 1; 2] (fst nds) && under [0; 1; 3] (snd nds)
   then [(0, 1)] else []) ++
  (if under [0; 1; 3] (fst nds) && under [0; 4; 5] (snd nds)
   then [(1, 2)] else []).

(** An enumeration that hands over the pair it is called on: the root
    with itself. *)
Definition ex_root_pair (nds : KDNode * KDNode) (maxr : float)
  : list (KDNode * KDNode) := [nds].

(** An enumeration that opens the nodes down to the leaves and hands
    over the pairs of leaves that are within 1.5 of each other. *)
Definition ex_leaf_pairs (nds : KDNode * KDNode) (maxr : float)
  : list (KDNode * KDNode) :=
  [(ex_leaf0, ex_leaf0); (ex_leaf0, ex_leaf1); (ex_leaf1, ex_leaf1);
   (ex_leaf1, ex_leaf2); (ex_leaf2, ex_leaf2); (ex_leaf3, ex_leaf3)].

(** The state of [*trav] before the prepass on the four points. *)
Definition ex_setup : TraverseData :=
  mkTraverseData [0; 1; 2; 3] [0; 1; 2; 3] (Some [0; 0; 0; 0; 0; 0; 0])
    1.5%float 2.25%float 0 0 0 0 0 0.

(** The state of [*trav] after the prepass on the four points: the node
    [ex_left] passes the size test, its two leaves inherit the mark, and
    the leaves [ex_leaf2] and [ex_leaf3] pass the test. *)
Definition ex_prepassed : TraverseData :=
  mkTraverseData [0; 0; 2; 3] [0; 1; 2; 3] (Some [0; 1; 1; 1; 0; 1; 1])
    1.5%float 2.25%float 0 5 0 0 0 0.

(** The value of [last_traverse] after the run on the four points with
    the enumeration [ex_root_pair]. *)
Definition ex_final : TraverseData :=
  mkTraverseData [0; 0; 0; 3] [0; 1; 2; 3] None 1.5%float 2.25%float
    2 5 0 1 8 4.

(** *** The four points with a linking length of 0 *)




(** ** A data set with two points at the same place

    Points 0 and 1 at the origin, point 2 at (1, 0, 0), all in one leaf,
    with a linking length of 0. *)






(** ** A parent array with a chain *)

(** A state with a chain 3 -> 2 -> 1 -> 0 of parent pointers. *)
Definition ex_chain : TraverseData :=
  mkTraverseData [0; 0; 1; 2] [0; 1; 2; 3] None 1%float 1%float 0 0 0 0 0 0.

(** * Properties *)

(** ** Arrays *)

Section ArrayFacts.
Context {A : Type}.
Implicit Types (a : list A) (i j : Z) (v : A).

Lemma rd_Some a i v :
  rd a i = Some v <-> 0 <= i /\ a !! Z.to_nat i = Some v.
Proof.
  unfold rd. destruct (Z.ltb_spec i 0); split; intros H0.
  - discriminate.
  - lia.
  - split; [lia | exact H0].
  - tauto.
Qed.

Lemma rd_range a i v : rd a i = Some v -> 0 <= i < Z.of_nat (length a).
Proof.
  intros [H0 H1]%rd_Some. apply lookup_lt_Some in H1. lia.
Qed.

Lemma rd_in_range a i : 0 <= i < Z.of_nat (length a) -> exists v, rd a i = Some v.
Proof.
  intros H0. destruct (lookup_lt_is_Some_2 a (Z.to_nat i)) as [v Hv]; [lia |].
  exists v. apply rd_Some. split; [lia | exact Hv].
Qed.

Lemma rd_elem_of a i v : rd a i = Some v -> v ∈ a.
Proof. intros [_ H1]%rd_Some. by eapply list_elem_of_lookup_2. Qed.

Lemma wr_Some a i v a' :
  wr a i v = Some a' <->
  (0 <= i < Z.of_nat (length a)) /\ a' = <[Z.to_nat i := v]> a.
Proof.
  unfold wr.
  destruct (Z.leb_spec 0 i), (Z.ltb_spec i (Z.of_nat (length a))); simpl;
    split; intros H1; try discriminate; try lia.
  - injection H1 as <-. split; [lia | reflexivity].
  - destruct H1 as [_ ->]. reflexivity.
Qed.

Lemma wr_in_range a i v :
  0 <= i < Z.of_nat (length a) -> exists a', wr a i v = Some a'.
Proof. intros H0. eexists. apply wr_Some. split; [exact H0 | reflexivity]. Qed.

Lemma wr_length a i v a' : wr a i v = Some a' -> length a' = length a.
Proof. intros [_ ->]%wr_Some. apply length_insert. Qed.

Lemma rd_wr_eq a i v a' : wr a i v = Some a' -> rd a' i = Some v.
Proof.
  intros [H0 ->]%wr_Some. apply rd_Some. split; [lia |].
  apply list_lookup_insert_eq. lia.
Qed.

Lemma rd_wr_ne a i v a' j : wr a i v = Some a' -> j <> i -> rd a' j = rd a j.
Proof.
  intros [H0 ->]%wr_Some Hne. unfold rd. destruct (j <? 0) eqn:Hj; [reflexivity |].
  apply list_lookup_insert_ne. apply Z.ltb_ge in Hj. lia.
Qed.

Lemma wr_same a i v : rd a i = Some v -> wr a i v = Some a.
Proof.
  intros H0. pose proof (rd_range _ _ _ H0) as Hr. apply rd_Some in H0 as [_ H0].
  apply wr_Some. split; [exact Hr |]. symmetry. by apply list_insert_id.
Qed.

Lemma rd_ext a a' : (forall i, rd a' i = rd a i) -> a' = a.
Proof.
  intros H0. apply list_eq. intros n. specialize (H0 (Z.of_nat n)).
  unfold rd in H0. destruct (Z.ltb_spec (Z.of_nat n) 0); [lia |].
  by rewrite Nat2Z.id in H0.
Qed.

End ArrayFacts.

Lemma for_each_app {S B : Type} (body : S -> B -> option S) l1 l2 s :
  for_each body (l1 ++ l2) s =
  match for_each body l1 s with
  | Some s' => for_each body l2 s'
  | None => None
  end.
Proof.
  revert s. induction l1 as [| b l1 IH]; intros s; simpl; [reflexivity |].
  destruct (body s b); [apply IH | reflexivity].
Qed.

(** An invariant of the loop body is an invariant of the loop. *)
Lemma for_each_inv {S B : Type} (P : S -> Prop) (body : S -> B -> option S) l :
  (forall s b s', b ∈ l -> P s -> body s b = Some s' -> P s') ->
  forall s s', P s -> for_each body l s = Some s' -> P s'.
Proof.
  induction l as [| b l IH]; intros Hbody s s' Hs Hrun; simpl in Hrun.
  - by injection Hrun as <-.
  - destruct (body s b) as [s1 |] eqn:Hb; [| discriminate].
    eapply IH; [| | exact Hrun].
    + intros s2 b2 s3 Hin. apply Hbody. by right.
    + eapply Hbody; [| exact Hs | exact Hb]. by left.
Qed.

Lemma range_elem lo hi i : i ∈ range lo hi <-> lo <= i < hi.
Proof. unfold range. rewrite elem_of_seqZ. lia. Qed.

Lemma range_snoc lo hi : lo <= hi -> range lo (hi + 1) = range lo hi ++ [hi].
Proof.
  intros H0. unfold range.
  replace (hi + 1 - lo) with ((hi - lo) + 1) by lia.
  rewrite seqZ_app by lia. f_equal.
  rewrite seqZ_cons by lia. rewrite seqZ_nil by lia. f_equal. lia.
Qed.

Lemma range_cons lo hi : lo < hi -> range lo hi = lo :: range (lo + 1) hi.
Proof.
  intros H0. unfold range. rewrite seqZ_cons by lia.
  f_equal. f_equal; lia.
Qed.

Lemma range_empty lo hi : hi <= lo -> range lo hi = [].
Proof.
  intros H0. unfold range. apply seqZ_nil. lia.
Qed.

(** The constructor of a node tells whether [node->dim] is [-1]. *)
Lemma dim_leaf node : dim node = -1 <-> exists info, node = Leaf info.
Proof.
  destruct node as [info | info sd l r]; simpl; split.
  - intros _. by exists info.
  - done.
  - lia.
  - intros [info' Heq]. discriminate.
Qed.

(** ** Walks to the root *)

Lemma path_is_root h x l r : path h x l r -> rd h r = Some r.
Proof. induction 1; assumption. Qed.

Lemma path_start_range h x l r : path h x l r -> 0 <= x < Z.of_nat (length h).
Proof. destruct 1; eapply rd_range; eassumption. Qed.

Lemma path_det h x l r l' r' :
  path h x l r -> path h x l' r' -> l = l' /\ r = r'.
Proof.
  intros H. revert l' r'.
  induction H as [r Hr | x p l r Hx Hne Hp IH]; intros l' r' H'.
  - inversion H'; subst; [done | congruence].
  - inversion H' as [| x0 p0 l0 r0 Hx0 Hne0 Hp0]; subst; [congruence |].
    assert (p0 = p) by congruence. subst p0.
    destruct (IH _ _ Hp0) as [-> ->]. done.
Qed.

Lemma root_of_det h x r r' : root_of h x r -> root_of h x r' -> r = r'.
Proof. intros [l Hl] [l' Hl']. by destruct (path_det _ _ _ _ _ _ Hl Hl'). Qed.

Lemma root_of_root h r : rd h r = Some r -> root_of h r r.
Proof. intros Hr. exists []. by constructor. Qed.

Lemma root_of_is_root h x r : root_of h x r -> rd h r = Some r.
Proof. intros [l Hl]. by eapply path_is_root. Qed.

Lemma root_of_step h x p r :
  rd h x = Some p -> root_of h p r -> root_of h x r.
Proof.
  intros Hx [l Hl]. destruct (decide (p = x)) as [-> | Hne].
  - by exists l.
  - exists (x :: l). by econstructor.
Qed.

Lemma root_of_range h x r : root_of h x r -> 0 <= x < Z.of_nat (length h).
Proof. intros [l Hl]. by eapply path_start_range. Qed.

(** The parent of a cell has the root of the cell. *)
Lemma root_of_parent h x p r :
  rd h x = Some p -> root_of h x r -> root_of h p r.
Proof.
  intros Hx [l Hl]. inversion Hl as [r0 Hr | x0 p0 l0 r0 Hx0 Hne0 Hp0]; subst.
  - assert (p = r) by congruence. subst. by apply root_of_root.
  - assert (p0 = p) by congruence. subst. by exists l0.
Qed.

Lemma path_suffix h x l r y :
  path h x l r -> y ∈ l ->
  exists l', path h y l' r /\ (length l' <= length l)%nat /\ l' <> [].
Proof.
  induction 1 as [r Hr | x p l r Hx Hne Hp IH]; intros Hy.
  - by apply elem_of_nil in Hy.
  - apply elem_of_cons in Hy as [-> | Hy].
    + exists (x :: l). split; [by econstructor |]. split; [lia | done].
    + destruct (IH Hy) as (l' & Hl' & Hlen & Hnil).
      exists l'. split; [done |]. split; [simpl; lia | done].
Qed.

Lemma path_root_notin h x l r : path h x l r -> r ∉ l.
Proof.
  intros Hp Hin. destruct (path_suffix _ _ _ _ _ Hp Hin) as (l' & Hl' & _ & Hnil).
  pose proof (path_is_root _ _ _ _ Hp) as Hr.
  destruct (path_det _ _ _ _ _ _ Hl' (path_root h r Hr)) as [-> _]. done.
Qed.

Lemma path_NoDup h x l r : path h x l r -> NoDup l.
Proof.
  induction 1 as [r Hr | x p l r Hx Hne Hp IH]; [constructor |].
  constructor; [| exact IH]. intros Hin.
  destruct (path_suffix _ _ _ _ _ Hp Hin) as (l' & Hl' & Hlen & _).
  assert (Hfull : path h x (x :: l) r) by (by econstructor).
  destruct (path_det _ _ _ _ _ _ Hl' Hfull) as [-> _]. simpl in Hlen. lia.
Qed.

Lemma path_elem_range h x l r y :
  path h x l r -> y ∈ l -> 0 <= y < Z.of_nat (length h).
Proof.
  intros Hp Hin. destruct (path_suffix _ _ _ _ _ Hp Hin) as (l' & Hl' & _).
  by eapply path_start_range.
Qed.

(** Pigeonhole: distinct cells of an array of [n] cells are at most [n]. *)
Lemma NoDup_bounded_length (l : list Z) (n : nat) :
  NoDup l -> (forall y, y ∈ l -> 0 <= y < Z.of_nat n) -> (length l <= n)%nat.
Proof.
  intros Hnd Hb.
  assert (Hsub : l ⊆+ seqZ 0 (Z.of_nat n)).
  { apply NoDup_submseteq; [exact Hnd |]. intros y Hy.
    apply elem_of_seqZ. specialize (Hb y Hy). lia. }
  apply submseteq_length in Hsub. rewrite length_seqZ in Hsub. lia.
Qed.

Lemma path_length h x l r : path h x l r -> (length l < length h)%nat.
Proof.
  intros Hp.
  assert (Hnd : NoDup (r :: l)).
  { constructor; [by eapply path_root_notin | by eapply path_NoDup]. }
  apply NoDup_bounded_length with (n := length h) in Hnd; [simpl in Hnd; lia |].
  intros y [-> | Hy]%elem_of_cons.
  - eapply rd_range, path_is_root, Hp.
  - by eapply path_elem_range.
Qed.

(** ** The loops of [splay] *)

Lemma splay_find_path h x l r fuel depth :
  path h x l r -> (length l < fuel)%nat ->
  splay_find fuel h x depth = Some (r, depth + Z.of_nat (length l)).
Proof.
  intros Hp. revert fuel depth.
  induction Hp as [r Hr | x p l r Hx Hne Hp IH]; intros fuel depth Hfuel.
  - destruct fuel as [| fuel]; [simpl in Hfuel; lia |]. simpl.
    rewrite Hr, Z.eqb_refl. do 2 f_equal. lia.
  - destruct fuel as [| fuel]; [simpl in Hfuel; lia |]. simpl.
    rewrite Hx. destruct (Z.eqb_spec p x) as [| _]; [done |].
    rewrite IH by (simpl in Hfuel; lia). do 2 f_equal. simpl length. lia.
Qed.

Lemma splay_find_inv fuel h x depth r depth' :
  splay_find fuel h x depth = Some (r, depth') ->
  exists l, path h x l r /\ depth' = depth + Z.of_nat (length l).
Proof.
  revert x depth. induction fuel as [| fuel IH]; intros x depth Hrun;
    simpl in Hrun; [discriminate |].
  destruct (rd h x) as [p |] eqn:Hx; [| discriminate].
  destruct (Z.eqb_spec p x) as [-> | Hne].
  - injection Hrun as <- <-. exists []. split; [by constructor | simpl; lia].
  - destruct (IH _ _ Hrun) as (l & Hl & ->).
    exists (x :: l). split; [by econstructor | simpl length; lia].
Qed.

(** A walk that ends, ends within [length h] evaluations of the loop
    condition: the fuel that [splay] gives to its first loop loses no
    result. *)
Lemma splay_find_fuel fuel h x depth res :
  splay_find fuel h x depth = Some res ->
  splay_find (length h) h x depth = Some res.
Proof.
  destruct res as [r depth']. intros (l & Hl & ->)%splay_find_inv.
  apply splay_find_path; [exact Hl | by eapply path_length].
Qed.

Lemma path_wr_notin h p l r x v h' :
  path h p l r -> x ∉ l -> x <> r -> wr h x v = Some h' -> path h' p l r.
Proof.
  intros Hp Hx Hr Hw.
  induction Hp as [r Hroot | y p l r Hy Hne Hp IH].
  - constructor. by rewrite (rd_wr_ne _ _ _ _ _ Hw).
  - apply not_elem_of_cons in Hx as [Hxy Hx].
    econstructor; [| exact Hne | by apply IH].
    by rewrite (rd_wr_ne _ _ _ _ _ Hw).
Qed.

(** The second loop relinks exactly the cells of the walk. *)
Lemma splay_link_path h i l r fuel :
  path h i l r -> (length l < fuel)%nat ->
  exists h', splay_link fuel h i r = Some h' /\ length h' = length h /\
    (forall y, y ∈ l -> rd h' y = Some r) /\
    (forall y, y ∉ l -> rd h' y = rd h y).
Proof.
  intros Hp. revert h fuel i Hp.
  induction l as [| x l IH]; intros h fuel i Hp Hfuel.
  - inversion Hp as [r0 Hr |]; subst.
    destruct fuel as [| fuel]; [simpl in Hfuel; lia |]. simpl.
    rewrite Hr, Z.eqb_refl. exists h. split; [done |]. split; [done |].
    split; [| done]. intros y Hy. by apply elem_of_nil in Hy.
  - pose proof (path_NoDup _ _ _ _ Hp) as Hnd.
    pose proof (path_root_notin _ _ _ _ Hp) as Hrn.
    inversion Hp as [| x0 p l0 r0 Hx Hne Hp0]; subst.
    apply NoDup_cons in Hnd as [Hxl Hnd].
    apply not_elem_of_cons in Hrn as [Hrx Hrl].
    destruct fuel as [| fuel]; [simpl in Hfuel; lia |]. simpl.
    rewrite Hx. destruct (Z.eqb_spec p x) as [| _]; [done |].
    destruct (wr_in_range h x r (rd_range _ _ _ Hx)) as [h1 Hw].
    rewrite Hw.
    assert (Hp1 : path h1 p l r).
    { eapply path_wr_notin; [exact Hp0 | exact Hxl | congruence | exact Hw]. }
    destruct (IH h1 fuel p Hp1) as (h' & Hrun & Hlen & Hin & Hout);
      [simpl in Hfuel; lia |].
    exists h'. split; [exact Hrun |].
    split; [by rewrite Hlen, (wr_length _ _ _ _ Hw) |]. split.
    + intros y [-> | Hy]%elem_of_cons; [| by apply Hin].
      rewrite (Hout _ Hxl). by eapply rd_wr_eq.
    + intros y [Hyx Hy]%not_elem_of_cons.
      rewrite (Hout _ Hy). by eapply rd_wr_ne.
Qed.

(** ** Relinking cells to their root keeps every root *)

Lemma compressed_refl h : compressed h h.
Proof. split; [done |]. intros y. by left. Qed.

Lemma compressed_root h h' r :
  compressed h h' -> rd h r = Some r -> rd h' r = Some r.
Proof.
  intros [_ Hc] Hr. destruct (Hc r) as [-> | (r' & Hr' & Hroot)]; [done |].
  rewrite Hr'. f_equal. eapply root_of_det; [exact Hroot | by apply root_of_root].
Qed.

Lemma compressed_root_of_1 h h' x r :
  compressed h h' -> root_of h x r -> root_of h' x r.
Proof.
  intros Hc [l Hl]. induction Hl as [r Hr | x p l r Hx Hne Hp IH].
  - apply root_of_root. by eapply compressed_root.
  - destruct (proj2 Hc x) as [Heq | (r' & Hr' & Hroot)].
    + eapply root_of_step; [by rewrite Heq | exact IH].
    + assert (r' = r); [| subst r'].
      { eapply root_of_det; [exact Hroot |]. exists (x :: l). by econstructor. }
      eapply root_of_step; [exact Hr' |]. apply root_of_root.
      eapply compressed_root; [exact Hc | by eapply path_is_root].
Qed.

Lemma compressed_root_of_2 h h' x r :
  compressed h h' -> root_of h' x r -> root_of h x r.
Proof.
  intros Hc [l Hl]. induction Hl as [r Hr | x p l r Hx Hne Hp IH].
  - destruct (proj2 Hc r) as [Heq | (r' & Hr' & Hroot)].
    + apply root_of_root. by rewrite <- Heq.
    + assert (r' = r) by congruence. by subst.
  - destruct (proj2 Hc x) as [Heq | (r' & Hr' & Hroot)].
    + eapply root_of_step; [by rewrite <- Heq | exact IH].
    + assert (r' = p) by congruence. subst r'.
      assert (r = p); [| by subst].
      eapply root_of_det; [exact IH |].
      apply root_of_root. by eapply root_of_is_root.
Qed.

Lemma compressed_root_of h h' x r :
  compressed h h' -> root_of h' x r <-> root_of h x r.
Proof.
  intros Hc. split; [by apply compressed_root_of_2 | by apply compressed_root_of_1].
Qed.

Lemma compressed_trans h1 h2 h3 :
  compressed h1 h2 -> compressed h2 h3 -> compressed h1 h3.
Proof.
  intros H12 H23. split; [by rewrite (proj1 H23), (proj1 H12) |].
  intros y. destruct (proj2 H23 y) as [Heq | (r & Hr & Hroot)].
  - rewrite Heq. apply (proj2 H12).
  - right. exists r. split; [done |]. by eapply compressed_root_of_2.
Qed.

Lemma compressed_same_root h h' x y :
  compressed h h' -> same_root h' x y <-> same_root h x y.
Proof.
  intros Hc. unfold same_root.
  split; intros (r & Hx & Hy); exists r.
  - split; by eapply compressed_root_of_2.
  - split; by eapply compressed_root_of_1.
Qed.

Lemma compressed_forest h h' : compressed h h' -> forest h -> forest h'.
Proof.
  intros Hc Hf x Hx. rewrite (proj1 Hc) in Hx.
  destruct (Hf x Hx) as [r Hr]. exists r. by eapply compressed_root_of_1.
Qed.

Lemma compressed_flat h h' x : compressed h h' -> flat h x -> flat h' x.
Proof.
  intros Hc (r & Hx & Hr). exists r. split; [| by eapply compressed_root].
  destruct (proj2 Hc x) as [-> | (r' & Hr' & Hroot)]; [done |].
  rewrite Hr'. f_equal. eapply root_of_det; [exact Hroot |].
  eapply root_of_step; [exact Hx | by apply root_of_root].
Qed.

(** ** Linking a root under a root *)

Section Union.
Variables (h h' : list Z) (ri rj : Z).
Hypothesis Hri : rd h ri = Some ri.
Hypothesis Hrj : rd h rj = Some rj.
Hypothesis Hw : wr h rj ri = Some h'.

Lemma union_root_ri : rd h' ri = Some ri.
Proof.
  destruct (decide (ri = rj)) as [Heq | Hne].
  - rewrite Heq at 1. rewrite (rd_wr_eq _ _ _ _ Hw). by rewrite Heq.
  - by rewrite (rd_wr_ne _ _ _ _ _ Hw).
Qed.

Lemma union_root_of_1 x r : root_of h x r -> root_of h' x (merged ri rj r).
Proof.
  intros [l Hl]. induction Hl as [r Hr | x p l r Hx Hne Hp IH].
  - unfold merged. destruct (decide (r = rj)) as [-> | Hne].
    + eapply root_of_step; [by eapply rd_wr_eq |].
      apply root_of_root, union_root_ri.
    + apply root_of_root. by rewrite (rd_wr_ne _ _ _ _ _ Hw).
  - eapply root_of_step; [| exact IH].
    rewrite (rd_wr_ne _ _ _ _ _ Hw); [done | congruence].
Qed.

Lemma union_root_of_2 x r' :
  root_of h' x r' -> exists r, root_of h x r /\ r' = merged ri rj r.
Proof.
  intros [l Hl]. induction Hl as [r Hr | x p l r Hx Hne Hp IH].
  - destruct (decide (r = rj)) as [-> | Hne].
    + exists rj. split; [by apply root_of_root |].
      unfold merged. rewrite decide_True by done.
      rewrite (rd_wr_eq _ _ _ _ Hw) in Hr. congruence.
    + exists r. rewrite (rd_wr_ne _ _ _ _ _ Hw) in Hr by done.
      split; [by apply root_of_root |]. unfold merged. by rewrite decide_False.
  - destruct IH as (r0 & Hr0 & ->).
    destruct (decide (x = rj)) as [-> | Hxj].
    + rewrite (rd_wr_eq _ _ _ _ Hw) in Hx. assert (p = ri) by congruence. subst p.
      assert (r0 = ri); [| subst r0].
      { eapply root_of_det; [exact Hr0 | by apply root_of_root]. }
      exists rj. split; [by apply root_of_root |].
      unfold merged. repeat case_decide; congruence.
    + rewrite (rd_wr_ne _ _ _ _ _ Hw) in Hx by done.
      exists r0. split; [by eapply root_of_step | done].
Qed.

Lemma union_same_root x y : same_root h x y -> same_root h' x y.
Proof.
  intros (r & Hx & Hy). exists (merged ri rj r). split; by apply union_root_of_1.
Qed.

Lemma union_joins x y : root_of h x ri -> root_of h y rj -> same_root h' x y.
Proof.
  intros Hx%union_root_of_1 Hy%union_root_of_1. exists ri.
  unfold merged in *. rewrite decide_True in Hy by done. split; [| done].
  destruct (decide (ri = rj)); done.
Qed.

Lemma union_forest : forest h -> forest h'.
Proof.
  intros Hf x Hx. rewrite (wr_length _ _ _ _ Hw) in Hx.
  destruct (Hf x Hx) as [r Hr]. exists (merged ri rj r). by apply union_root_of_1.
Qed.

End Union.

(** ** [splay] *)

(** What a call of [splay] that returns has done, in either mode. *)
Lemma splay_spec u d i d' r :
  splay u d i = Some (d', r) ->
  root_of (head d) i r /\ compressed (head d) (head d') /\
  rd (head d') i = Some r /\
  ind d' = ind d /\ node_connected d' = node_connected d /\
  ll2 d' = ll2 d /\ visited d' = visited d /\ connected d' = connected d.
Proof.
  unfold splay. intros Hrun.
  destruct (splay_find _ _ _ _) as [[r0 depth] |] eqn:Hfind; [| discriminate].
  destruct (if u then _ else _) as [h1 |] eqn:Hlink; [| discriminate].
  apply splay_find_inv in Hfind as (l & Hl & _).
  assert (Hfields : head d' = h1 /\ r0 = r /\ ind d' = ind d /\
            node_connected d' = node_connected d /\ ll2 d' = ll2 d /\
            visited d' = visited d /\ connected d' = connected d).
  { injection Hrun as <- <-. by destruct (depth >? _). }
  destruct Hfields as (-> & -> & Hfields).
  split; [by exists l |].
  assert (Hh1 : compressed (head d) h1 /\ rd h1 i = Some r); [| tauto].
  clear Hrun Hfields. destruct u.
  - split; [| by eapply rd_wr_eq]. split; [by eapply wr_length |].
    intros y. destruct (decide (y = i)) as [-> | Hne].
    + right. exists r. split; [by eapply rd_wr_eq | by exists l].
    + left. by eapply rd_wr_ne.
  - destruct (splay_link_path _ _ _ _ (length (head d)) Hl (path_length _ _ _ _ Hl))
      as (h2 & Hrun2 & Hlen & Hin & Hout).
    assert (h2 = h1) by congruence. subst h2. split.
    + split; [done |]. intros y. destruct (decide (y ∈ l)) as [Hy | Hy].
      * right. exists r. split; [by apply Hin |].
        destruct (path_suffix _ _ _ _ _ Hl Hy) as (l' & Hl' & _). by exists l'.
      * left. by apply Hout.
    + inversion Hl as [r0 Hr | x0 p l0 r0 Hx Hne Hp0]; subst.
      * rewrite Hout; [done | apply not_elem_of_nil].
      * apply Hin. by left.
Qed.

(** [splay] returns whenever the walk from [i] ends at a root. *)
Lemma splay_total u d i r :
  root_of (head d) i r -> exists d', splay u d i = Some (d', r).
Proof.
  intros [l Hl]. unfold splay.
  rewrite (splay_find_path _ _ _ _ _ 0 Hl (path_length _ _ _ _ Hl)).
  destruct u.
  - destruct (wr_in_range (head d) i r (path_start_range _ _ _ _ Hl)) as [h1 ->].
    eauto.
  - destruct (splay_link_path _ _ _ _ (length (head d)) Hl (path_length _ _ _ _ Hl))
      as (h1 & -> & _). eauto.
Qed.

Lemma splay_forest u d i d' r :
  splay u d i = Some (d', r) -> forest (head d) -> forest (head d').
Proof. intros (_ & Hc & _)%splay_spec. by apply compressed_forest. Qed.

(** On a cell that points to a root, [splay] changes no pointer. *)
Lemma splay_flat u d i r :
  rd (head d) i = Some r -> rd (head d) r = Some r ->
  exists d', splay u d i = Some (d', r) /\ head d' = head d.
Proof.
  intros Hi Hr.
  assert (Hroot : root_of (head d) i r).
  { eapply root_of_step; [exact Hi | by apply root_of_root]. }
  destruct (splay_total u d i r Hroot) as [d' Hrun]. exists d'. split; [done |].
  destruct Hroot as [l Hl]. unfold splay in Hrun.
  rewrite (splay_find_path _ _ _ _ _ 0 Hl (path_length _ _ _ _ Hl)) in Hrun.
  assert (Hsame : (if u then wr (head d) i r
                   else splay_link (length (head d)) (head d) i r) = Some (head d)).
  { destruct u; [by apply wr_same |].
    destruct (splay_link_path _ _ _ _ (length (head d)) Hl (path_length _ _ _ _ Hl))
      as (h1 & -> & _ & Hin & Hout).
    f_equal. apply rd_ext. intros y. destruct (decide (y ∈ l)) as [Hy | Hy].
    - rewrite (Hin y Hy). symmetry.
      inversion Hl as [| x0 p l0 r0 Hx Hne Hp0]; subst; [by apply elem_of_nil in Hy |].
      assert (p = r) by congruence. subst p.
      inversion Hp0; subst; [| congruence].
      apply list_elem_of_singleton in Hy. by subst.
    - by apply Hout. }
  rewrite Hsame in Hrun. injection Hrun as <-. by destruct (_ >? _).
Qed.

(** ** The edge visitor *)

Lemma same_setup_refl d : same_setup d d.
Proof. by repeat split. Qed.

Lemma same_setup_trans d1 d2 d3 :
  same_setup d1 d2 -> same_setup d2 d3 -> same_setup d1 d3.
Proof.
  unfold same_setup. intros (-> & -> & -> & ->) (-> & -> & -> & ->). done.
Qed.

Lemma splay_same_setup u d i d' r :
  splay u d i = Some (d', r) -> same_setup d d'.
Proof. intros (_ & _ & _ & H1 & H2 & H3 & _ & H4)%splay_spec. by repeat split. Qed.

(** A call of the edge visitor that returns has relinked cells to their
    roots and then linked the root of [j] under the root of [i]. *)
Lemma visit_edge_spec u d pair d' rt :
  _kd_fof_visit_edge u d pair = Some (d', rt) ->
  rt = 0 /\ same_setup d d' /\ visited d' = visited d + 1 /\
  exists h1 ri rj,
    compressed (head d) h1 /\
    root_of h1 (pair_i pair) ri /\ root_of h1 (pair_j pair) rj /\
    wr h1 rj ri = Some (head d').
Proof.
  unfold _kd_fof_visit_edge. intros Hrun.
  destruct (splay u (set_visited d _) _) as [[d1 ri] |] eqn:H1; [| discriminate].
  destruct (splay u d1 _) as [[d2 rj] |] eqn:H2; [| discriminate].
  destruct (wr _ _ _) as [h3 |] eqn:H3; [| discriminate].
  injection Hrun as <- <-.
  pose proof (splay_same_setup _ _ _ _ _ H1) as S1.
  pose proof (splay_same_setup _ _ _ _ _ H2) as S2.
  apply splay_spec in H1 as (Hri & Hc1 & _ & _ & _ & _ & Hv1 & _).
  apply splay_spec in H2 as (Hrj & Hc2 & _ & _ & _ & _ & Hv2 & _).
  simpl in Hc1, Hri, Hv1.
  split; [done |]. split.
  { destruct S1 as (? & ? & ? & ?), S2 as (? & ? & ? & ?).
    unfold same_setup. simpl in *. repeat split; congruence. }
  split; [simpl; congruence |].
  exists (head d2), ri, rj. split; [by eapply compressed_trans |].
  split; [| split; [| done]].
  - eapply compressed_root_of_1; [exact Hc2 |].
    by eapply compressed_root_of_1.
  - by eapply compressed_root_of_1.
Qed.

Lemma visit_edge_forest u d pair d' rt :
  _kd_fof_visit_edge u d pair = Some (d', rt) ->
  forest (head d) -> forest (head d').
Proof.
  intros (_ & _ & _ & h1 & ri & rj & Hc & Hi & Hj & Hw)%visit_edge_spec Hf.
  eapply union_forest; [| | exact Hw | by eapply compressed_forest];
    by eapply root_of_is_root.
Qed.

Lemma visit_edge_same_root u d pair d' rt x y :
  _kd_fof_visit_edge u d pair = Some (d', rt) ->
  same_root (head d) x y -> same_root (head d') x y.
Proof.
  intros (_ & _ & _ & h1 & ri & rj & Hc & Hi & Hj & Hw)%visit_edge_spec Hxy.
  eapply union_same_root; [| | exact Hw | by apply (compressed_same_root _ _ _ _ Hc)];
    by eapply root_of_is_root.
Qed.

Lemma visit_edge_joins u d pair d' rt :
  _kd_fof_visit_edge u d pair = Some (d', rt) ->
  same_root (head d') (pair_i pair) (pair_j pair).
Proof.
  intros (_ & _ & _ & h1 & ri & rj & Hc & Hi & Hj & Hw)%visit_edge_spec.
  eapply union_joins; [| | exact Hw | exact Hi | exact Hj];
    by eapply root_of_is_root.
Qed.

(** ** Pointers that stay inside an equivalence *)

Section Linked.
Variables (R : Z -> Z -> Prop) (n : Z).
Hypothesis R_equiv : Equivalence R.
Hypothesis R_dom : forall x y, R x y -> 0 <= x < n -> 0 <= y < n.

Lemma linked_path h x l r :
  linked R n h -> 0 <= x < n -> path h x l r -> R x r.
Proof.
  intros Hl Hx Hp. induction Hp as [r Hr | x p l r Hxp Hne Hp IH].
  - reflexivity.
  - assert (R x p) by (by apply Hl). transitivity p; [done |].
    apply IH. by eapply R_dom.
Qed.

Lemma linked_root_of h x r :
  linked R n h -> 0 <= x < n -> root_of h x r -> R x r.
Proof. intros Hl Hx [l Hp]. by eapply linked_path. Qed.

Lemma linked_compressed h h' :
  compressed h h' -> linked R n h -> linked R n h'.
Proof.
  intros [_ Hc] Hl x p Hx Hxp.
  destruct (Hc x) as [Heq | (r & Hr & Hroot)].
  - apply Hl; [done | by rewrite <- Heq].
  - assert (p = r) by congruence. subst p. by eapply linked_root_of.
Qed.

Lemma linked_wr h x p h' :
  linked R n h -> R x p -> wr h x p = Some h' -> linked R n h'.
Proof.
  intros Hl Hxp Hw y q Hy Hyq. destruct (decide (y = x)) as [-> | Hne].
  - rewrite (rd_wr_eq _ _ _ _ Hw) in Hyq. congruence.
  - rewrite (rd_wr_ne _ _ _ _ _ Hw) in Hyq by done. by apply Hl.
Qed.

Lemma visit_edge_linked u d pair d' rt :
  _kd_fof_visit_edge u d pair = Some (d', rt) ->
  R (pair_i pair) (pair_j pair) -> 0 <= pair_i pair < n ->
  linked R n (head d) -> linked R n (head d').
Proof.
  intros (_ & _ & _ & h1 & ri & rj & Hc & Hi & Hj & Hw)%visit_edge_spec Hij Hin Hl.
  assert (Hl1 : linked R n h1) by (by eapply linked_compressed).
  eapply linked_wr; [exact Hl1 | | exact Hw].
  assert (R (pair_i pair) ri) by (by eapply linked_root_of).
  assert (R (pair_j pair) rj).
  { eapply linked_root_of; [exact Hl1 | | exact Hj]. by eapply R_dom. }
  transitivity (pair_j pair); [by symmetry |].
  transitivity (pair_i pair); [by symmetry | done].
Qed.

End Linked.

(** ** The enumeration and the node-pair visitor *)

(** A call of [_kd_fof_visit_edge_first] never returns. *)
Lemma visit_edge_first_diverges fuel trav pair :
  _kd_fof_visit_edge_first fuel trav pair = None.
Proof. induction fuel as [| fuel IH]; simpl; [done | by rewrite IH]. Qed.

Lemma enum_edges_first fuel l d res :
  enum_edges (_kd_fof_visit_edge_first fuel) l d = Some res ->
  l = [] /\ res = (d, 0).
Proof.
  destruct l as [| [i j] l]; simpl.
  - intros [= <-]. done.
  - by rewrite visit_edge_first_diverges.
Qed.

(** An invariant of the edge visitor on the listed pairs is an invariant
    of the enumeration. *)
Lemma enum_edges_inv (P : TraverseData -> Prop) u l :
  (forall d i j d' rt, (i, j) ∈ l -> P d ->
     _kd_fof_visit_edge u d (mkKDEnumPair i j) = Some (d', rt) -> P d') ->
  forall d d' rt, P d ->
    enum_edges (_kd_fof_visit_edge u) l d = Some (d', rt) -> P d'.
Proof.
  induction l as [| [i j] l IH]; intros Hstep d d' rt Hd Hrun; simpl in Hrun.
  - by injection Hrun as <- <-.
  - destruct (_kd_fof_visit_edge u d _) as [[d1 rt1] |] eqn:Hv; [| discriminate].
    pose proof (visit_edge_spec _ _ _ _ _ Hv) as [-> _]. simpl in Hrun.
    eapply IH; [| | exact Hrun].
    + intros d2 i2 j2 d3 rt3 Hin. apply Hstep. by right.
    + eapply Hstep; [| exact Hd | exact Hv]. by left.
Qed.

Lemma enum_edges_same_setup u l d d' rt :
  enum_edges (_kd_fof_visit_edge u) l d = Some (d', rt) -> same_setup d d'.
Proof.
  apply (enum_edges_inv (same_setup d)); [| apply same_setup_refl].
  intros d1 i j d2 rt2 _ H1 (_ & H2 & _)%visit_edge_spec.
  by eapply same_setup_trans.
Qed.

Lemma enum_edges_same_root u l d d' rt x y :
  enum_edges (_kd_fof_visit_edge u) l d = Some (d', rt) ->
  same_root (head d) x y -> same_root (head d') x y.
Proof.
  intros Hrun Hxy. revert Hrun.
  apply (enum_edges_inv (fun d => same_root (head d) x y)); [| done].
  intros d1 i j d2 rt2 _ H1 H2. by eapply visit_edge_same_root.
Qed.

(** Every listed pair is joined once the enumeration has returned. *)
Lemma enum_edges_joins u l d d' rt i j :
  enum_edges (_kd_fof_visit_edge u) l d = Some (d', rt) ->
  (i, j) ∈ l -> same_root (head d') i j.
Proof.
  revert d. induction l as [| [i1 j1] l IH]; intros d Hrun Hin.
  - by apply elem_of_nil in Hin.
  - simpl in Hrun.
    destruct (_kd_fof_visit_edge u d _) as [[d1 rt1] |] eqn:Hv; [| discriminate].
    pose proof (visit_edge_spec _ _ _ _ _ Hv) as [-> _]. simpl in Hrun.
    apply elem_of_cons in Hin as [[= -> ->] | Hin]; [| by eapply IH].
    eapply enum_edges_same_root; [exact Hrun |].
    apply (visit_edge_joins _ _ _ _ _ Hv).
Qed.

Section Run.
Variable enum_node_pairs : KDNode * KDNode -> float -> list (KDNode * KDNode).
Variable enum_point_pairs : KDNode * KDNode -> float -> Z -> list (Z * Z).

(** A call of the node-pair visitor that returns has returned [0] and has
    handed every point pair of the node pair to [_kd_fof_visit_edge]. *)
Lemma check_nodes_spec u fuel d pair d' rt :
  _kd_fof_check_nodes enum_point_pairs u fuel d pair = Some (d', rt) ->
  rt = 0 /\ exists rt',
    enum_edges (_kd_fof_visit_edge u)
      (enum_point_pairs (nodes pair) (ll2 d) 1) d = Some (d', rt').
Proof.
  unfold _kd_fof_check_nodes, kd_enum_check. intros Hrun.
  destruct (node_connected d) as [flags |]; [| discriminate].
  destruct (rd flags _) as [c0 |]; [| discriminate].
  destruct (if c0 =? 0 then _ else _) as [both |]; [| discriminate].
  destruct both.
  - destruct (enum_edges (_kd_fof_visit_edge_first fuel) _ _) as [[d1 rt1] |] eqn:He;
      [| discriminate].
    injection Hrun as <- <-.
    apply enum_edges_first in He as [-> [= <- <-]]. split; [done |]. by exists 0.
  - destruct (enum_edges (_kd_fof_visit_edge u) _ _) as [[d1 rt1] |] eqn:He;
      [| discriminate].
    injection Hrun as <- <-. split; [done |]. by exists rt1.
Qed.

(** An invariant of the edge visitor on the pairs that are enumerated is
    an invariant of the loop over the node pairs. *)
Lemma check_nodes_loop_inv (P : TraverseData -> Prop) u fuel l d0 :
  (forall d np i j d' rt,
     np ∈ l -> (i, j) ∈ enum_point_pairs np (ll2 d0) 1 ->
     P d -> _kd_fof_visit_edge u d (mkKDEnumPair i j) = Some (d', rt) -> P d') ->
  forall d', P d0 ->
    for_each
      (fun data np =>
         match _kd_fof_check_nodes enum_point_pairs u fuel data
                 (mkKDEnumNodePair np) with
         | None => None
         | Some (data, _) => Some data
         end) l d0 = Some d' ->
    P d' /\ same_setup d0 d'.
Proof.
  intros Hstep d' Hd.
  apply (for_each_inv (fun d => P d /\ same_setup d0 d));
    [| split; [done | apply same_setup_refl]].
  intros d np d2 Hnp [HP Hs] Hbody.
  destruct (_kd_fof_check_nodes _ _ _ _ _) as [[d3 rt3] |] eqn:Hc; [| discriminate].
  injection Hbody as <-.
  apply check_nodes_spec in Hc as (_ & rt' & He). simpl in He.
  assert (Hll : ll2 d = ll2 d0) by (by destruct Hs as (_ & _ & -> & _)).
  rewrite Hll in He. split.
  - revert He. apply (enum_edges_inv P); [| done].
    intros d4 i j d5 rt5 Hin. by eapply Hstep.
  - eapply same_setup_trans; [exact Hs | by eapply enum_edges_same_setup].
Qed.

Lemma always_open_inv (P : TraverseData -> Prop) u fuel nds maxr d0 :
  (forall d np i j d' rt,
     np ∈ enum_node_pairs nds maxr -> (i, j) ∈ enum_point_pairs np (ll2 d0) 1 ->
     P d -> _kd_fof_visit_edge u d (mkKDEnumPair i j) = Some (d', rt) -> P d') ->
  forall d' rt, P d0 ->
    kd_enum_always_open enum_node_pairs nds maxr
      (_kd_fof_check_nodes enum_point_pairs u fuel) d0 = Some (d', rt) ->
    P d' /\ same_setup d0 d'.
Proof.
  intros Hstep d' rt Hd Hrun. unfold kd_enum_always_open in Hrun.
  destruct (for_each _ _ _) as [d1 |] eqn:Hloop; [| discriminate].
  injection Hrun as <- <-. by eapply check_nodes_loop_inv.
Qed.

(** Every enumerated point pair is joined once the enumeration has
    returned. *)
Lemma always_open_joins u fuel nds maxr d d' rt np i j :
  kd_enum_always_open enum_node_pairs nds maxr
    (_kd_fof_check_nodes enum_point_pairs u fuel) d = Some (d', rt) ->
  np ∈ enum_node_pairs nds maxr -> (i, j) ∈ enum_point_pairs np (ll2 d) 1 ->
  same_root (head d') i j.
Proof.
  intros Hrun Hnp Hij. unfold kd_enum_always_open in Hrun.
  destruct (for_each _ _ _) as [d1 |] eqn:Hloop; [| discriminate].
  injection Hrun as <- <-.
  destruct (list_elem_of_split _ _ Hnp) as (l1 & l2 & Hsplit).
  rewrite Hsplit, for_each_app in Hloop.
  destruct (for_each _ l1 d) as [da |] eqn:H1; [| discriminate].
  apply (check_nodes_loop_inv (fun _ => True)) in H1 as [_ Hsa]; [| done | done].
  simpl in Hloop.
  destruct (_kd_fof_check_nodes _ _ _ da _) as [[db rtb] |] eqn:Hc; [| discriminate].
  apply check_nodes_spec in Hc as (_ & rt' & He). simpl in He.
  assert (Hll : ll2 da = ll2 d) by (by destruct Hsa as (_ & _ & -> & _)).
  rewrite Hll in He.
  pose proof (enum_edges_joins _ _ _ _ _ _ _ He Hij) as Hjoin.
  apply (check_nodes_loop_inv (fun d => same_root (head d) i j)) in Hloop
    as [Hres _]; [done | | done].
  intros d2 np2 i2 j2 d3 rt3 _ _ Hs Hv. by eapply visit_edge_same_root.
Qed.

End Run.

(** ** Counting loops *)

(** A property indexed by the loop variable: it holds of [lo] at the
    start, and each iteration takes it from [i] to [i + 1]. *)
Lemma for_each_range {S : Type} (P : Z -> S -> Prop) (body : S -> Z -> option S)
    lo hi :
  lo <= hi ->
  (forall i s s', lo <= i < hi -> P i s -> body s i = Some s' -> P (i + 1) s') ->
  forall s s', P lo s -> for_each body (range lo hi) s = Some s' -> P hi s'.
Proof.
  intros Hle Hstep.
  remember (Z.to_nat (hi - lo)) as k eqn:Hk. revert lo Hle Hstep Hk.
  induction k as [| k IH]; intros lo Hle Hstep Hk s s' Hs Hrun.
  - assert (hi = lo) by lia. subst hi.
    rewrite range_empty in Hrun by lia. by injection Hrun as <-.
  - rewrite range_cons in Hrun by lia. simpl in Hrun.
    destruct (body s lo) as [s1 |] eqn:Hb; [| discriminate].
    eapply (IH (lo + 1)); [lia | | lia | | exact Hrun].
    + intros i s2 s3 Hi. apply Hstep. lia.
    + eapply Hstep; [| exact Hs | exact Hb]. lia.
Qed.

Lemma kd_fof_init_spec n h h' :
  kd_fof_init n h = Some h' ->
  length h' = length h /\
  (forall i, 0 <= i < n -> rd h' i = Some i) /\
  (forall i, ~ 0 <= i < n -> rd h' i = rd h i).
Proof.
  unfold kd_fof_init. destruct (Z.le_gt_cases 0 n) as [Hn | Hn].
  - apply (for_each_range
             (fun k h' => length h' = length h /\
                (forall i, 0 <= i < k -> rd h' i = Some i) /\
                (forall i, ~ 0 <= i < k -> rd h' i = rd h i))); [done | |].
    + intros i h1 h2 Hi (Hlen & Hin & Hout) Hw.
      split; [by rewrite (wr_length _ _ _ _ Hw) |]. split.
      * intros j Hj. destruct (decide (j = i)) as [-> | Hne].
        -- by eapply rd_wr_eq.
        -- rewrite (rd_wr_ne _ _ _ _ _ Hw) by done. apply Hin. lia.
      * intros j Hj. rewrite (rd_wr_ne _ _ _ _ _ Hw) by lia. apply Hout. lia.
    + split; [done |]. split; [intros i Hi; lia | done].
  - rewrite range_empty by lia. intros [= <-].
    split; [done |]. split; [intros i Hi; lia | done].
Qed.

(** The last loop relinks cells to their roots and leaves the first [n]
    cells pointing to a root. *)
Lemma kd_fof_finalize_spec u n d d' :
  kd_fof_finalize u n d = Some d' ->
  compressed (head d) (head d') /\ same_setup d d' /\
  visited d' = visited d /\
  forall i, 0 <= i < n -> flat (head d') i.
Proof.
  unfold kd_fof_finalize. destruct (Z.le_gt_cases 0 n) as [Hn | Hn].
  - apply (for_each_range
             (fun k d' => compressed (head d) (head d') /\ same_setup d d' /\
                visited d' = visited d /\
                forall i, 0 <= i < k -> flat (head d') i)); [done | |].
    + intros i d1 d2 Hi (Hc & Hs & Hv & Hflat) Hbody.
      destruct (splay u d1 i) as [[d3 r] |] eqn:Hsp; [| discriminate].
      destruct (wr (head d3) i r) as [h4 |] eqn:Hw; [| discriminate].
      injection Hbody as <-. simpl.
      pose proof (splay_same_setup _ _ _ _ _ Hsp) as Hs3.
      apply splay_spec in Hsp as (Hroot & Hc3 & Hir & _ & _ & _ & Hv3 & _).
      assert (h4 = head d3); [| subst h4].
      { rewrite (wr_same _ _ _ Hir) in Hw. congruence. }
      split; [by eapply compressed_trans |].
      split; [by eapply same_setup_trans |].
      split; [congruence |].
      intros j Hj. destruct (decide (j = i)) as [-> | Hne].
      * exists r. split; [done |].
        eapply compressed_root; [exact Hc3 | by eapply root_of_is_root].
      * eapply compressed_flat; [exact Hc3 |]. apply Hflat. lia.
    + split; [apply compressed_refl |]. split; [apply same_setup_refl |].
      split; [done |]. intros i Hi. lia.
  - rewrite range_empty by lia. intros [= <-].
    split; [apply compressed_refl |]. split; [apply same_setup_refl |].
    split; [done |]. intros i Hi. lia.
Qed.

(** A label is the root of its point. *)
Lemma flat_label h i j :
  flat h i -> flat h j -> rd h i = rd h j <-> same_root h i j.
Proof.
  intros (ri & Hi & Hri) (rj & Hj & Hrj).
  assert (Ri : root_of h i ri).
  { eapply root_of_step; [exact Hi | by apply root_of_root]. }
  assert (Rj : root_of h j rj).
  { eapply root_of_step; [exact Hj | by apply root_of_root]. }
  split.
  - intros Heq. exists ri. split; [done |]. congruence.
  - intros (r & Hir & Hjr).
    rewrite Hi, Hj. f_equal.
    rewrite (root_of_det _ _ _ _ Ri Hir). by eapply root_of_det.
Qed.

(** ** Nodes and their points *)

Lemma range_app lo mid hi :
  lo <= mid <= hi -> range lo hi = range lo mid ++ range mid hi.
Proof.
  intros H0. unfold range.
  replace (hi - lo) with ((mid - lo) + (hi - mid)) by lia.
  rewrite seqZ_app by lia. do 2 f_equal; lia.
Qed.

Lemma node_points_elem ind node x :
  x ∈ node_points ind node <->
  exists i, start node <= i < start node + size node /\ rd ind i = Some x.
Proof.
  unfold node_points. rewrite list_elem_of_omap.
  split; intros (i & Hi & Hx); exists i; split; try done; by apply range_elem.
Qed.

Lemma wf_node_bounds n node :
  wf_node n node ->
  0 <= start node /\ 0 <= size node /\ start node + size node <= n.
Proof. destruct node; simpl; tauto. Qed.

Lemma node_points_split ind info sd link0 link1 :
  wf_node (Z.of_nat (length ind)) (Split info sd link0 link1) ->
  node_points ind (Split info sd link0 link1) =
  node_points ind link0 ++ node_points ind link1.
Proof.
  intros (H0 & H1 & H2 & H3 & H4 & H5 & W0 & W1).
  apply wf_node_bounds in W0 as (? & ? & _), W1 as (? & ? & _).
  unfold node_points. rewrite <- omap_app. f_equal.
  rewrite H3, H4, <- H5.
  rewrite (range_app (start _) (start (Split info sd link0 link1) + size link0));
    [| lia].
  do 2 f_equal. lia.
Qed.

Lemma subnodes_wf n node m :
  wf_node n node -> m ∈ subnodes node ->
  wf_node n m /\ start node <= start m /\
  start m + size m <= start node + size node.
Proof.
  revert m. induction node as [info | info sd l IHl r IHr]; intros m Hwf Hm; simpl in Hm.
  - apply list_elem_of_singleton in Hm as ->. split; [done | lia].
  - apply elem_of_cons in Hm as [-> | Hm]; [split; [done | lia] |].
    destruct Hwf as (H0 & H1 & H2 & H3 & H4 & H5 & W0 & W1).
    pose proof (wf_node_bounds _ _ W0) as (? & ? & ?).
    pose proof (wf_node_bounds _ _ W1) as (? & ? & ?).
    apply elem_of_app in Hm as [Hm | Hm].
    + destruct (IHl m) as (Wm & ? & ?); [done | done |]. split; [done | lia].
    + destruct (IHr m) as (Wm & ? & ?); [done | done |]. split; [done | lia].
Qed.

Lemma subnodes_points ind n node m x :
  wf_node n node -> m ∈ subnodes node ->
  x ∈ node_points ind m -> x ∈ node_points ind node.
Proof.
  intros Hwf Hm. destruct (subnodes_wf _ _ _ Hwf Hm) as (_ & ? & ?).
  rewrite !node_points_elem. intros (i & Hi & Hx). exists i. split; [lia | done].
Qed.

Lemma node_flag_cases ll2 node pc :
  node_flag ll2 node pc = 0 \/ node_flag ll2 node pc = 1.
Proof.
  unfold node_flag. destruct (negb _); [by right |].
  destruct (PrimFloat.leb _ _); auto.
Qed.

Lemma node_flag_inherited ll2 node pc : pc <> 0 -> node_flag ll2 node pc = 1.
Proof.
  intros Hpc. unfold node_flag. by destruct (Z.eqb_spec pc 0).
Qed.

Lemma flag_length {A : Type} (c : Z) (x : A) :
  c = 0 \/ c = 1 ->
  Z.of_nat (length (if decide (c <> 0) then [x] else [])) = c.
Proof. by intros [-> | ->]. Qed.

Lemma connected_nodes_leaf ll2 info pc :
  connected_nodes ll2 (Leaf info) pc =
  if decide (node_flag ll2 (Leaf info) pc <> 0) then [Leaf info] else [].
Proof.
  unfold connected_nodes. simpl. rewrite filter_cons. simpl.
  by destruct (decide _).
Qed.

Lemma connected_nodes_split ll2 info sd link0 link1 pc :
  let node := Split info sd link0 link1 in
  let c := node_flag ll2 node pc in
  connected_nodes ll2 node pc =
  (if decide (c <> 0) then [node] else []) ++
  connected_nodes ll2 link0 c ++ connected_nodes ll2 link1 c.
Proof.
  unfold connected_nodes. simpl. rewrite filter_cons, filter_app. simpl.
  destruct (decide _); by rewrite ?fmap_cons, fmap_app.
Qed.

Lemma connected_nodes_subnodes ll2 node pc m :
  m ∈ connected_nodes ll2 node pc -> m ∈ subnodes node.
Proof.
  revert pc. induction node as [info | info sd l IHl r IHr]; intros pc.
  - rewrite connected_nodes_leaf. simpl. destruct (decide _); [done |].
    intros []%elem_of_nil.
  - rewrite connected_nodes_split. simpl. intros [Hm | Hm]%elem_of_app.
    + destruct (decide _); [| by apply elem_of_nil in Hm].
      apply list_elem_of_singleton in Hm as ->. by left.
    + right. apply elem_of_app. apply elem_of_app in Hm as [Hm | Hm]; eauto.
Qed.

(** Below a marked node, every node is marked. *)
Lemma connected_nodes_inherited ll2 node pc m :
  pc <> 0 -> m ∈ subnodes node -> m ∈ connected_nodes ll2 node pc.
Proof.
  revert pc. induction node as [info | info sd l IHl r IHr]; intros pc Hpc Hm;
    simpl in Hm.
  - rewrite connected_nodes_leaf, node_flag_inherited by done.
    by rewrite decide_True.
  - rewrite connected_nodes_split. simpl. rewrite node_flag_inherited by done.
    rewrite decide_True by done.
    apply elem_of_cons in Hm as [-> | Hm]; [by left |].
    right. apply elem_of_app. apply elem_of_app in Hm as [Hm | Hm]; [left | right].
    + by apply IHl.
    + by apply IHr.
Qed.

(** ** The prepass *)

Lemma connect_points_spec ind r node h h' :
  connect_points ind r node h = Some h' ->
  length h' = length h /\
  (forall x, (exists i, start node + 1 <= i < start node + size node /\
                        rd ind i = Some x) -> rd h' x = Some r) /\
  (forall x, ~ (exists i, start node + 1 <= i < start node + size node /\
                          rd ind i = Some x) -> rd h' x = rd h x).
Proof.
  unfold connect_points.
  destruct (Z.le_gt_cases (start node + 1) (size node + start node)) as [Hn | Hn].
  - intros Hrun.
    apply (for_each_range
             (fun k h' => length h' = length h /\
                (forall x, (exists i, start node + 1 <= i < k /\ rd ind i = Some x) ->
                           rd h' x = Some r) /\
                (forall x, ~ (exists i, start node + 1 <= i < k /\ rd ind i = Some x) ->
                           rd h' x = rd h x))) in Hrun.
    + destruct Hrun as (Hlen & Hin & Hout). split; [done |]. split.
      * intros x (i & Hi & Hx). apply Hin. exists i. split; [lia | done].
      * intros x Hx. apply Hout. intros (i & Hi & Hix). apply Hx.
        exists i. split; [lia | done].
    + done.
    + intros k h1 h2 Hk (Hlen & Hin & Hout) Hbody.
      destruct (rd ind k) as [p |] eqn:Hp; [| discriminate].
      split; [by rewrite (wr_length _ _ _ _ Hbody) |]. split.
      * intros x (i & Hi & Hx). destruct (decide (x = p)) as [-> | Hne].
        -- by eapply rd_wr_eq.
        -- rewrite (rd_wr_ne _ _ _ _ _ Hbody) by done. apply Hin.
           exists i. split; [| done].
           assert (i <> k) by congruence. lia.
      * intros x Hx. assert (x <> p).
        { intros ->. apply Hx. exists k. split; [lia | done]. }
        rewrite (rd_wr_ne _ _ _ _ _ Hbody) by done. apply Hout.
        intros (i & Hi & Hix). apply Hx. exists i. split; [lia | done].
    + split; [done |]. split; [| done]. intros x (i & Hi & _). lia.
  - rewrite range_empty by lia. intros [= <-].
    split; [done |]. split; [| done]. intros x (i & Hi & _). lia.
Qed.

(** The part of [connect] before the recursive calls. *)
Lemma connect_node_spec d node pc d' c :
  connect_node d node pc = Some (d', c) ->
  c = node_flag (ll2 d) node pc /\
  ind d' = ind d /\ ll2 d' = ll2 d /\ visited d' = visited d /\
  connected d' = connected d + c /\
  (exists flags flags', node_connected d = Some flags /\
     wr flags (index node) c = Some flags' /\ node_connected d' = Some flags') /\
  (if (pc =? 0) && (kd_node_maxdist2 node <=? ll2 d)%float
   then exists r, rd (ind d) (start node) = Some r /\
          connect_points (ind d) r node (head d) = Some (head d')
   else head d' = head d).
Proof.
  unfold connect_node, node_flag. intros Hrun.
  destruct (pc =? 0); simpl in *.
  - destruct (kd_node_maxdist2 node <=? ll2 d)%float.
    + destruct (rd (ind d) (start node)) as [r |]; [| discriminate].
      destruct (connect_points _ _ _ _) as [h1 |] eqn:Hcp; [| discriminate].
      simpl in Hrun.
      destruct (node_connected d) as [flags |]; [| discriminate].
      destruct (wr flags _ _) as [flags' |] eqn:Hw; [| discriminate].
      injection Hrun as <- <-. simpl. repeat split; try done.
      * by exists flags, flags'.
      * by exists r.
    + destruct (node_connected d) as [flags |]; [| discriminate].
      destruct (wr flags _ _) as [flags' |] eqn:Hw; [| discriminate].
      injection Hrun as <- <-. simpl. repeat split; try done.
      by exists flags, flags'.
  - destruct (node_connected d) as [flags |]; [| discriminate].
    destruct (wr flags _ _) as [flags' |] eqn:Hw; [| discriminate].
    injection Hrun as <- <-. simpl. repeat split; try done.
    by exists flags, flags'.
Qed.

(** [connect] adds one to the counter [connected] for every node that it
    marks, and writes no other field but [head] and the flags. *)
Lemma connect_fields d node pc d' :
  connect d node pc = Some d' ->
  ind d' = ind d /\ ll2 d' = ll2 d /\ visited d' = visited d /\
  length (head d') = length (head d) /\
  connected d' =
    connected d + Z.of_nat (length (connected_nodes (ll2 d) node pc)).
Proof.
  revert d pc d'.
  induction node as [info | info sd l IHl r IHr]; intros d pc d' Hrun; simpl in Hrun.
  - destruct (connect_node d _ pc) as [[d1 c] |] eqn:Hn; [| discriminate].
    injection Hrun as <-.
    apply connect_node_spec in Hn as (Hc & Hi & Hl & Hv & Hk & _ & Hh).
    split; [done |]. split; [done |]. split; [done |]. split.
    + destruct (_ && _); [| congruence].
      destruct Hh as (r & _ & Hcp). by apply connect_points_spec in Hcp as [? _].
    + rewrite connected_nodes_leaf, flag_length by apply node_flag_cases.
      congruence.
  - destruct (connect_node d _ pc) as [[d1 c] |] eqn:Hn; [| discriminate].
    destruct (connect d1 l c) as [d2 |] eqn:H1; [| discriminate].
    apply connect_node_spec in Hn as (Hc & Hi & Hl & Hv & Hk & _ & Hh).
    apply IHl in H1 as (Hi1 & Hl1 & Hv1 & Hlen1 & Hk1).
    apply IHr in Hrun as (Hi2 & Hl2 & Hv2 & Hlen2 & Hk2).
    split; [congruence |]. split; [congruence |]. split; [congruence |]. split.
    + rewrite Hlen2, Hlen1. destruct (_ && _); [| congruence].
      destruct Hh as (r0 & _ & Hcp). by apply connect_points_spec in Hcp as [? _].
    + rewrite connected_nodes_split. simpl.
      rewrite !length_app, !Nat2Z.inj_add, flag_length by apply node_flag_cases.
      rewrite Hk2, Hk1, Hk, Hl1, Hl, <- Hc. lia.
Qed.

(** Below a marked node, [connect] writes no parent pointer. *)
Lemma connect_inherited d node pc d' :
  pc <> 0 -> connect d node pc = Some d' -> head d' = head d.
Proof.
  revert d pc d'.
  induction node as [info | info sd l IHl r IHr]; intros d pc d' Hpc Hrun;
    simpl in Hrun;
    destruct (connect_node d _ pc) as [[d1 c] |] eqn:Hn; try discriminate;
    apply connect_node_spec in Hn as (Hc & _ & _ & _ & _ & _ & Hh);
    rewrite node_flag_inherited in Hc by done;
    destruct (Z.eqb_spec pc 0) as [| _]; try done; simpl in Hh.
  - by injection Hrun as <-.
  - destruct (connect d1 l c) as [d2 |] eqn:H1; [| discriminate].
    subst c. apply IHl in H1; [| done]. apply IHr in Hrun; [| done]. congruence.
Qed.

(** *** The flags *)

Lemma node_flags_subnodes ll2 node pc m c :
  (m, c) ∈ node_flags ll2 node pc -> m ∈ subnodes node.
Proof.
  revert pc. induction node as [info | info sd l IHl r IHr]; intros pc; simpl.
  - intros [= -> _]%list_elem_of_singleton. by left.
  - intros [[= -> _] | Hm]%elem_of_cons; [by left |].
    right. apply elem_of_app. apply elem_of_app in Hm as [Hm | Hm]; eauto.
Qed.

Lemma subnodes_node_flags ll2 node pc m :
  m ∈ subnodes node -> exists c, (m, c) ∈ node_flags ll2 node pc.
Proof.
  revert pc. induction node as [info | info sd l IHl r IHr]; intros pc; simpl.
  - intros ->%list_elem_of_singleton. eexists. by left.
  - intros [-> | Hm]%elem_of_cons; [eexists; by left |].
    apply elem_of_app in Hm as [Hm | Hm].
    + destruct (IHl (node_flag ll2 (Split info sd l r) pc) Hm) as [c Hc].
      exists c. right. apply elem_of_app. by left.
    + destruct (IHr (node_flag ll2 (Split info sd l r) pc) Hm) as [c Hc].
      exists c. right. apply elem_of_app. by right.
Qed.

Lemma connected_nodes_flags ll2 node pc m :
  m ∈ connected_nodes ll2 node pc <->
  exists c, c <> 0 /\ (m, c) ∈ node_flags ll2 node pc.
Proof.
  unfold connected_nodes. rewrite list_elem_of_fmap. split.
  - intros ([m' c] & -> & [Hc Hin]%list_elem_of_filter). by exists c.
  - intros (c & Hc & Hin). exists (m, c). split; [done |].
    by apply list_elem_of_filter.
Qed.

(** [connect] writes flags only at the indices of the nodes it visits. *)
Lemma connect_flags_frame d node pc d' :
  connect d node pc = Some d' ->
  exists f f', node_connected d = Some f /\ node_connected d' = Some f' /\
    length f' = length f /\
    forall k, k ∉ index <$> subnodes node -> rd f' k = rd f k.
Proof.
  revert d pc d'.
  induction node as [info | info sd l IHl r IHr]; intros d pc d' Hrun;
    simpl in Hrun;
    destruct (connect_node d _ pc) as [[d1 c] |] eqn:Hn; try discriminate;
    apply connect_node_spec in Hn
      as (_ & _ & _ & _ & _ & (f & f1 & Hf & Hw & Hf1) & _).
  - injection Hrun as <-. exists f, f1. split; [done |]. split; [done |].
    split; [by eapply wr_length |].
    intros k Hk. eapply rd_wr_ne; [exact Hw |]. intros ->. apply Hk. by left.
  - destruct (connect d1 l c) as [d2 |] eqn:H1; [| discriminate].
    apply IHl in H1 as (fa & f2 & Hfa & Hf2 & Hlen1 & Hframe1).
    apply IHr in Hrun as (fb & f3 & Hfb & Hf3 & Hlen2 & Hframe2).
    assert (fa = f1) by congruence. assert (fb = f2) by congruence. subst fa fb.
    exists f, f3. split; [done |]. split; [done |].
    split; [by rewrite Hlen2, Hlen1, (wr_length _ _ _ _ Hw) |].
    intros k Hk. simpl in Hk. rewrite fmap_app in Hk.
    apply not_elem_of_cons in Hk as [Hk0 Hk].
    apply not_elem_of_app in Hk as [Hkl Hkr].
    rewrite Hframe2, Hframe1 by done. by eapply rd_wr_ne.
Qed.

(** When the nodes have distinct indices, the flag of every node is its
    value of [c]. *)
Lemma connect_flags d node pc d' :
  NoDup (index <$> subnodes node) -> connect d node pc = Some d' ->
  exists f', node_connected d' = Some f' /\
    forall m c, (m, c) ∈ node_flags (ll2 d) node pc -> rd f' (index m) = Some c.
Proof.
  revert d pc d'.
  induction node as [info | info sd l IHl r IHr]; intros d pc d' Hnd Hrun;
    simpl in Hrun;
    destruct (connect_node d _ pc) as [[d1 c] |] eqn:Hn; try discriminate;
    apply connect_node_spec in Hn
      as (Hc & _ & Hl1 & _ & _ & (f & f1 & Hf & Hw & Hf1) & _).
  - injection Hrun as <-. exists f1. split; [done |].
    intros m c' [= -> ->]%list_elem_of_singleton. rewrite <- Hc.
    by eapply rd_wr_eq.
  - destruct (connect d1 l c) as [d2 |] eqn:H1; [| discriminate].
    simpl in Hnd. rewrite fmap_app in Hnd.
    apply NoDup_cons in Hnd as [Hn0 Hnd].
    apply not_elem_of_app in Hn0 as [Hn0l Hn0r].
    apply NoDup_app in Hnd as (Hndl & Hdisj & Hndr).
    pose proof (connect_fields _ _ _ _ H1) as (_ & Hl2 & _).
    pose proof (connect_flags_frame _ _ _ _ H1)
      as (fa & f2 & Hfa & Hf2 & _ & Hframe1).
    pose proof (connect_flags_frame _ _ _ _ Hrun)
      as (fb & f3 & Hfb & Hf3 & _ & Hframe2).
    assert (fa = f1) by congruence. assert (fb = f2) by congruence. subst fa fb.
    destruct (IHl _ _ _ Hndl H1) as (f2' & Hf2' & Hflags1).
    destruct (IHr _ _ _ Hndr Hrun) as (f3' & Hf3' & Hflags2).
    assert (f2' = f2) by congruence. assert (f3' = f3) by congruence. subst f2' f3'.
    exists f3. split; [done |]. intros m c' Hm. simpl in Hm.
    rewrite <- Hc in Hm.
    apply elem_of_cons in Hm as [[= -> ->] | Hm].
    + rewrite Hframe2, Hframe1 by done. by eapply rd_wr_eq.
    + apply elem_of_app in Hm as [Hm | Hm].
      * rewrite Hframe2.
        -- apply Hflags1. by rewrite Hl1.
        -- apply Hdisj. apply list_elem_of_fmap. exists m. split; [done |].
           by eapply node_flags_subnodes.
      * apply Hflags2. by rewrite Hl2, Hl1.
Qed.

(** After the prepass on a tree whose nodes have distinct indices, the
    nodes whose flag is set are the nodes of [connected_nodes]. *)
Lemma connect_flags_connected d node d' m :
  NoDup (index <$> subnodes node) -> connect d node 0 = Some d' ->
  m ∈ subnodes node ->
  m ∈ connected_nodes (ll2 d) node 0 <->
  exists f c, node_connected d' = Some f /\ rd f (index m) = Some c /\ c <> 0.
Proof.
  intros Hnd Hrun Hm.
  destruct (connect_flags _ _ _ _ Hnd Hrun) as (f & Hf & Hflags).
  rewrite connected_nodes_flags. split.
  - intros (c & Hc & Hin). exists f, c. split; [done |]. split; [by apply Hflags | done].
  - intros (f' & c & Hf' & Hrd & Hc).
    assert (f' = f) by congruence. subst f'.
    destruct (subnodes_node_flags (ll2 d) node 0 m Hm) as [c' Hin].
    exists c'. split; [| done]. apply Hflags in Hin. congruence.
Qed.


(** Relinking cells that were roots to roots keeps the forest. *)
Lemma relink_forest (pts : list Z) h h' :
  length h' = length h ->
  (forall p, p ∈ pts -> rd h p = Some p) ->
  (forall x, x ∉ pts -> rd h' x = rd h x) ->
  (forall p, p ∈ pts -> flat h' p) ->
  forest h -> forest h'.
Proof.
  intros Hlen Hroots Hout Hin Hf x Hx. rewrite Hlen in Hx.
  destruct (Hf x Hx) as (r & l & Hp). clear Hx.
  induction Hp as [r Hr | x p l r Hxp Hne Hp IH].
  - destruct (decide (r ∈ pts)) as [Hr' | Hr'].
    + destruct (Hin r Hr') as (q & Hq & Hqq). exists q.
      eapply root_of_step; [exact Hq | by apply root_of_root].
    + exists r. apply root_of_root. by rewrite Hout.
  - destruct IH as [r' Hr']. exists r'.
    eapply root_of_step; [| exact Hr']. rewrite Hout; [done |].
    intros Hx%Hroots. congruence.
Qed.

(** The loop of [connect] on a node whose points are all roots. *)
Lemma connect_points_marks ind r node h h' :
  rd ind (start node) = Some r ->
  (forall p, p ∈ node_points ind node -> rd h p = Some p) ->
  connect_points ind r node h = Some h' ->
  (forall x, x ∉ node_points ind node -> rd h' x = rd h x) /\
  (forall p, p ∈ node_points ind node ->
     r ∈ node_points ind node /\ rd h' p = Some r).
Proof.
  intros Hr Hroots (Hlen & Hin & Hout)%connect_points_spec. split.
  - intros x Hx. apply Hout. intros (i & Hi & Hix). apply Hx.
    apply node_points_elem. exists i. split; [lia | done].
  - intros p Hp. pose proof (Hroots p Hp) as Hpp.
    apply node_points_elem in Hp as (i & Hi & Hip).
    assert (Hrin : r ∈ node_points ind node).
    { apply node_points_elem. exists (start node). split; [lia | done]. }
    split; [done |].
    destruct (decide (p ∈ omap (rd ind)
                (range (start node + 1) (start node + size node)))) as [He | He];
      rewrite list_elem_of_omap in He.
    + apply Hin. destruct He as (k & Hk%range_elem & Hkp). by exists k.
    + assert (i = start node); [| subst i].
      { destruct (decide (i = start node)) as [| Hne]; [done |].
        exfalso. apply He. exists i. split; [apply range_elem; lia | done]. }
      assert (p = r) by congruence. subst p.
      rewrite Hout; [done |]. intros (k & Hk & Hkp). apply He.
      exists k. split; [by apply range_elem | done].
Qed.

(** The prepass on a node whose points are all roots: only the points of
    the node are relinked, each to a root among them, and the points of
    a marked node all get the same parent. *)
Lemma connect_marks d node d' :
  wf_node (Z.of_nat (length (ind d))) node ->
  NoDup (node_points (ind d) node) ->
  (forall p, p ∈ node_points (ind d) node -> rd (head d) p = Some p) ->
  connect d node 0 = Some d' ->
  (forall x, x ∉ node_points (ind d) node -> rd (head d') x = rd (head d) x) /\
  (forall p, p ∈ node_points (ind d) node ->
     exists q, q ∈ node_points (ind d) node /\
       rd (head d') p = Some q /\ rd (head d') q = Some q) /\
  (forall m p1 p2, m ∈ connected_nodes (ll2 d) node 0 ->
     p1 ∈ node_points (ind d) m -> p2 ∈ node_points (ind d) m ->
     rd (head d') p1 = rd (head d') p2).
Proof.
  revert d d'.
  induction node as [info | info sd l IHl r IHr]; intros d d' Hwf Hnd Hroots Hrun;
    simpl in Hrun;
    destruct (connect_node d _ 0) as [[d1 c] |] eqn:Hn; try discriminate;
    apply connect_node_spec in Hn as (Hc & Hi1 & Hl1 & _ & _ & _ & Hh);
    unfold node_flag in Hc; simpl in Hc, Hh.
  - (* a leaf *)
    injection Hrun as <-.
    rewrite connected_nodes_leaf. unfold node_flag. simpl.
    destruct (kd_node_maxdist2 (Leaf info) <=? ll2 d)%float eqn:Htest.
    + destruct Hh as (r & Hr & Hcp).
      destruct (connect_points_marks _ _ _ _ _ Hr Hroots Hcp) as [Hout Hall].
      split; [done |]. split.
      * intros p Hp. exists r. destruct (Hall p Hp) as [Hrin Hpr].
        split; [done |]. split; [done |]. by apply Hall.
      * intros m p1 p2 Hm%list_elem_of_singleton. subst m. intros H1 H2.
        destruct (Hall p1 H1) as [_ ->]. by destruct (Hall p2 H2) as [_ ->].
    + rewrite Hh. split; [done |]. split.
      * intros p Hp. exists p. split; [done |]. split; by apply Hroots.
      * intros m p1 p2 Hm. by apply elem_of_nil in Hm.
  - (* a node with children *)
    destruct (connect d1 l c) as [d2 |] eqn:H1; [| discriminate].
    rewrite connected_nodes_split. unfold node_flag. simpl.
    pose proof Hwf as (_ & _ & _ & _ & _ & _ & Wl & Wr).
    destruct (kd_node_maxdist2 (Split info sd l r) <=? ll2 d)%float eqn:Htest.
    + subst c.
      apply connect_inherited in H1; [| done].
      apply connect_inherited in Hrun; [| done].
      rewrite Hrun, H1. clear Hrun H1 IHl IHr.
      destruct Hh as (r0 & Hr & Hcp).
      destruct (connect_points_marks _ _ _ _ _ Hr Hroots Hcp) as [Hout Hall].
      split; [done |]. split.
      * intros p Hp. exists r0. destruct (Hall p Hp) as [Hrin Hpr].
        split; [done |]. split; [done |]. by apply Hall.
      * intros m p1 p2 Hm Hp1 Hp2.
        assert (Hsub : m ∈ subnodes (Split info sd l r)).
        { apply elem_of_app in Hm as [Hm%list_elem_of_singleton | Hm];
            [subst m; by left |].
          right. apply elem_of_app.
          apply elem_of_app in Hm as [Hm | Hm];
            apply connected_nodes_subnodes in Hm; auto. }
        apply (subnodes_points _ _ _ _ _ Hwf Hsub) in Hp1, Hp2.
        destruct (Hall p1 Hp1) as [_ ->]. by destruct (Hall p2 Hp2) as [_ ->].
    + subst c.
      rewrite (node_points_split _ _ _ _ _ Hwf) in *.
      apply NoDup_app in Hnd as (Hndl & Hdisj & Hndr).
      pose proof (connect_fields _ _ _ _ H1) as (Hi2 & Hl2 & _).
      rewrite <- Hi1 in *. rewrite <- Hl1.
      destruct (IHl d1 d2) as (Lout & Lin & Lm); [done | done | | done |].
      { intros p Hp. rewrite Hh. apply Hroots. apply elem_of_app. by left. }
      rewrite <- Hi2 in *. rewrite <- Hl2.
      destruct (IHr d2 d') as (Rout & Rin & Rm); [done | done | | done |].
      { intros p Hp. rewrite Lout, Hh.
        - apply Hroots. apply elem_of_app. by right.
        - intros Hpl. by apply (Hdisj p). }
      split; [| split].
      * intros x [Hxl Hxr]%not_elem_of_app. by rewrite Rout, Lout, Hh.
      * intros p [Hp | Hp]%elem_of_app.
        -- destruct (Lin p Hp) as (q & Hq & Hpq & Hqq). exists q.
           split; [apply elem_of_app; by left |].
           rewrite !Rout; [done | by apply Hdisj | by apply Hdisj].
        -- destruct (Rin p Hp) as (q & Hq & Hpq & Hqq). exists q.
           split; [apply elem_of_app; by right | done].
      * intros m p1 p2 Hm Hp1 Hp2. simpl in Hm.
        apply elem_of_app in Hm as [Hm | Hm].
        -- rewrite Hl2 in Hm.
           assert (Hsub : forall p, p ∈ node_points (ind d2) m ->
                     p ∈ node_points (ind d2) l).
           { intros p. apply (subnodes_points _ _ _ _ _ Wl).
             by eapply connected_nodes_subnodes. }
           rewrite !Rout; [by eapply Lm | |]; by apply Hdisj, Hsub.
        -- by eapply Rm.
Qed.

(** ** The run *)

Section RunFacts.
Variable enum_node_pairs : KDNode * KDNode -> float -> list (KDNode * KDNode).
Variable enum_point_pairs : KDNode * KDNode -> float -> Z -> list (Z * Z).
Variables (u : bool) (fuel : nat) (calloc_ok : bool).
Variables (tree : KDTree) (node : KDNode) (linking_length : float).
Variable head0 : list Z.

(** The phases of a run that returns. *)
Lemma kd_fof_inv d rt :
  kd_fof enum_node_pairs enum_point_pairs u fuel calloc_ok tree node
    linking_length head0 = Some (d, rt) ->
  exists d0 d1 d2 d3 rt2,
    kd_fof_setup calloc_ok tree node linking_length head0 = Some d0 /\
    connect d0 node 0 = Some d1 /\
    kd_enum_always_open enum_node_pairs (node, node) linking_length
      (_kd_fof_check_nodes enum_point_pairs u fuel) d1 = Some (d2, rt2) /\
    kd_fof_finalize u (size node) d2 = Some d3 /\
    d = set_node_connected d3 None /\ rt = 0.
Proof.
  unfold kd_fof, kd_fof_traverse, kd_fof_prepass. intros Hrun.
  destruct (kd_fof_setup _ _ _ _ _) as [d0 |]; [| discriminate].
  destruct (connect d0 node 0) as [d1 |] eqn:H1; [| discriminate].
  destruct (kd_enum_always_open _ _ _ _ _) as [[d2 rt2] |] eqn:H2; [| discriminate].
  destruct (kd_fof_finalize _ _ _) as [d3 |] eqn:H3; [| discriminate].
  injection Hrun as <- <-. by exists d0, d1, d2, d3, rt2.
Qed.

Lemma kd_fof_setup_spec d0 :
  kd_fof_setup calloc_ok tree node linking_length head0 = Some d0 ->
  ind d0 = tree_ind tree /\
  ll2 d0 = (linking_length * linking_length)%float /\
  visited d0 = 0 /\ connected d0 = 0 /\
  length (head d0) = length head0 /\
  (forall i, 0 <= i < size node -> rd (head d0) i = Some i) /\
  (forall i, ~ 0 <= i < size node -> rd (head d0) i = rd head0 i).
Proof.
  unfold kd_fof_setup. intros Hrun.
  destruct (kd_fof_init _ _) as [h |] eqn:Hinit; [| discriminate].
  injection Hrun as <-. simpl.
  apply kd_fof_init_spec in Hinit as (Hlen & Hin & Hout). done.
Qed.

(** The edge visitor keeps an invariant of the parent array: so does the
    run from the end of the prepass on. *)
Lemma kd_fof_after_prepass (P : list Z -> Prop) d1 d rt :
  (forall h h', compressed h h' -> P h -> P h') ->
  (forall d np i j d' rt,
     np ∈ enum_node_pairs (node, node) linking_length ->
     (i, j) ∈ enum_point_pairs np (ll2 d1) 1 ->
     P (head d) -> _kd_fof_visit_edge u d (mkKDEnumPair i j) = Some (d', rt) ->
     P (head d')) ->
  kd_fof_prepass calloc_ok tree node linking_length head0 = Some d1 ->
  P (head d1) ->
  kd_fof enum_node_pairs enum_point_pairs u fuel calloc_ok tree node
    linking_length head0 = Some (d, rt) ->
  P (head d).
Proof.
  intros Hcomp Hedge Hpre HP (d0 & d1' & d2 & d3 & rt2 & H0 & H1 & H2 & H3 & -> & _)%kd_fof_inv.
  unfold kd_fof_prepass in Hpre. rewrite H0, H1 in Hpre. injection Hpre as ->.
  apply (always_open_inv _ _ (fun d => P (head d))) in H2 as [HP2 _];
    [| done | done].
  apply kd_fof_finalize_spec in H3 as (Hc & _). simpl. by eapply Hcomp.
Qed.

(** After a run, the first [size node] cells point to a root. *)
Lemma kd_fof_flat d rt i :
  kd_fof enum_node_pairs enum_point_pairs u fuel calloc_ok tree node
    linking_length head0 = Some (d, rt) ->
  0 <= i < size node -> flat (head d) i.
Proof.
  intros (d0 & d1 & d2 & d3 & rt2 & _ & _ & _ & H3 & -> & _)%kd_fof_inv Hi.
  apply kd_fof_finalize_spec in H3 as (_ & _ & _ & Hflat). by apply Hflat.
Qed.

End RunFacts.

(** A run returns only when the buffer of flags was allocated: [connect]
    writes the flag of its node before anything else can end the run. *)
Lemma kd_fof_needs_flags
    (enum_node_pairs : KDNode * KDNode -> float -> list (KDNode * KDNode))
    (enum_point_pairs : KDNode * KDNode -> float -> Z -> list (Z * Z))
    (u : bool) (fuel : nat) (calloc_ok : bool) (tree : KDTree) (node : KDNode)
    (linking_length : float) (head0 : list Z) (d : TraverseData) (rt : Z) :
  kd_fof enum_node_pairs enum_point_pairs u fuel calloc_ok tree node
    linking_length head0 = Some (d, rt) ->
  calloc_ok = true.
Proof.
  intros (d0 & d1 & _ & _ & _ & H0 & H1 & _)%kd_fof_inv.
  unfold kd_fof_setup in H0. destruct (kd_fof_init _ _); [| discriminate].
  injection H0 as <-.
  assert (Hflags : exists f, calloc calloc_ok (tree_size tree) = Some f).
  { destruct node; simpl in H1;
      destruct (connect_node _ _ _) as [[d2 c] |] eqn:Hn; try discriminate;
      apply connect_node_spec in Hn
        as (_ & _ & _ & _ & _ & (f & _ & Hf & _) & _); by exists f. }
  destruct Hflags as [f Hf]. by destruct calloc_ok.
Qed.

(** ** The two modes of [splay] side by side *)

Lemma both_for_each {S1 S2 B : Type} (R : S1 -> S2 -> Prop)
    (f1 : S1 -> B -> option S1) (f2 : S2 -> B -> option S2) l :
  (forall s1 s2 b, R s1 s2 -> both R (f1 s1 b) (f2 s2 b)) ->
  forall s1 s2, R s1 s2 -> both R (for_each f1 l s1) (for_each f2 l s2).
Proof.
  intros Hstep. induction l as [| b l IH]; intros s1 s2 HR; simpl; [done |].
  specialize (Hstep s1 s2 b HR).
  destruct (f1 s1 b) as [s1' |], (f2 s2 b) as [s2' |]; simpl in Hstep;
    try done. by apply IH.
Qed.

Lemma same_roots_refl d : same_roots d d.
Proof. by repeat split. Qed.

Lemma same_roots_visited d1 d2 v1 v2 :
  same_roots d1 d2 -> same_roots (set_visited d1 v1) (set_visited d2 v2).
Proof. intros Hs. exact Hs. Qed.

Lemma splay_both u1 u2 d1 d2 i :
  same_roots d1 d2 ->
  both (fun a b => snd a = snd b /\ same_roots (fst a) (fst b))
    (splay u1 d1 i) (splay u2 d2 i).
Proof.
  intros (Hi & Hn & Hl & Hlen & Hroots).
  destruct (splay u1 d1 i) as [[d1' r1] |] eqn:H1,
           (splay u2 d2 i) as [[d2' r2] |] eqn:H2; simpl.
  - apply splay_spec in H1 as (Hr1 & Hc1 & _ & Hi1 & Hn1 & Hl1 & _).
    apply splay_spec in H2 as (Hr2 & Hc2 & _ & Hi2 & Hn2 & Hl2 & _).
    split; [eapply root_of_det; [exact Hr1 | by apply Hroots] |].
    split; [congruence |]. split; [congruence |]. split; [congruence |].
    split; [rewrite (proj1 Hc1), (proj1 Hc2); done |].
    intros x r. rewrite (compressed_root_of _ _ _ _ Hc1).
    rewrite (compressed_root_of _ _ _ _ Hc2). apply Hroots.
  - apply splay_spec in H1 as (Hr1%Hroots & _).
    destruct (splay_total u2 _ _ _ Hr1) as [d2' H2']. congruence.
  - apply splay_spec in H2 as (Hr2%Hroots & _).
    destruct (splay_total u1 _ _ _ Hr2) as [d1' H1']. congruence.
  - done.
Qed.

Lemma visit_edge_both u1 u2 d1 d2 pair :
  same_roots d1 d2 ->
  both (fun a b => snd a = snd b /\ same_roots (fst a) (fst b))
    (_kd_fof_visit_edge u1 d1 pair) (_kd_fof_visit_edge u2 d2 pair).
Proof.
  intros Hs. unfold _kd_fof_visit_edge.
  pose proof (splay_both u1 u2 _ _ (pair_i pair)
                (same_roots_visited _ _ (visited d1 + 1) (visited d2 + 1) Hs)) as Hi.
  destruct (splay u1 (set_visited d1 _) _) as [[a1 ri] |] eqn:Ha1,
           (splay u2 (set_visited d2 _) _) as [[a2 ri2] |] eqn:Ha2;
    simpl in Hi; try done.
  destruct Hi as [<- Hsa].
  pose proof (splay_both u1 u2 _ _ (pair_j pair) Hsa) as Hj.
  destruct (splay u1 a1 _) as [[b1 rj] |] eqn:Hb1,
           (splay u2 a2 _) as [[b2 rj2] |] eqn:Hb2; simpl in Hj; try done.
  destruct Hj as [<- Hsb].
  apply splay_spec in Ha1 as (Hri1 & Hca1 & _).
  apply splay_spec in Ha2 as (Hri2 & Hca2 & _).
  apply splay_spec in Hb1 as (Hrj1 & Hcb1 & _).
  apply splay_spec in Hb2 as (Hrj2 & Hcb2 & _).
  apply root_of_is_root in Hri1, Hri2, Hrj1, Hrj2.
  assert (Ri1 : rd (head b1) ri = Some ri).
  { eapply compressed_root; [exact Hcb1 | by eapply compressed_root]. }
  assert (Ri2 : rd (head b2) ri = Some ri).
  { eapply compressed_root; [exact Hcb2 | by eapply compressed_root]. }
  assert (Rj1 : rd (head b1) rj = Some rj) by (by eapply compressed_root).
  assert (Rj2 : rd (head b2) rj = Some rj) by (by eapply compressed_root).
  destruct (wr_in_range (head b1) rj ri (rd_range _ _ _ Rj1)) as [h1 Hw1].
  destruct (wr_in_range (head b2) rj ri (rd_range _ _ _ Rj2)) as [h2 Hw2].
  rewrite Hw1, Hw2. simpl. split; [done |].
  destruct Hsb as (Hi & Hn & Hl & Hlen & Hroots).
  split; [done |]. split; [done |]. split; [done |].
  split; [simpl; by rewrite (wr_length _ _ _ _ Hw1), (wr_length _ _ _ _ Hw2) |].
  intros x r. simpl. split.
  - intros (r0 & Hr0 & ->)%(union_root_of_2 _ _ _ _ Ri1 Rj1 Hw1).
    apply (union_root_of_1 _ _ _ _ Ri2 Rj2 Hw2). by apply Hroots.
  - intros (r0 & Hr0 & ->)%(union_root_of_2 _ _ _ _ Ri2 Rj2 Hw2).
    apply (union_root_of_1 _ _ _ _ Ri1 Rj1 Hw1). by apply Hroots.
Qed.

Lemma enum_edges_both u1 u2 l d1 d2 :
  same_roots d1 d2 ->
  both (fun a b => snd a = snd b /\ same_roots (fst a) (fst b))
    (enum_edges (_kd_fof_visit_edge u1) l d1)
    (enum_edges (_kd_fof_visit_edge u2) l d2).
Proof.
  revert d1 d2. induction l as [| [i j] l IH]; intros d1 d2 Hs; simpl; [done |].
  pose proof (visit_edge_both u1 u2 _ _ (mkKDEnumPair i j) Hs) as Hv.
  destruct (_kd_fof_visit_edge u1 d1 _) as [[a1 rt1] |],
           (_kd_fof_visit_edge u2 d2 _) as [[a2 rt2] |]; simpl in Hv; try done.
  destruct Hv as [<- Hsa]. destruct (rt1 =? 0); [by apply IH | done].
Qed.

Lemma check_nodes_both enum_point_pairs u1 u2 fuel d1 d2 pair :
  same_roots d1 d2 ->
  both (fun a b => snd a = snd b /\ same_roots (fst a) (fst b))
    (_kd_fof_check_nodes enum_point_pairs u1 fuel d1 pair)
    (_kd_fof_check_nodes enum_point_pairs u2 fuel d2 pair).
Proof.
  intros Hs. pose proof Hs as (_ & Hn & Hl & _).
  unfold _kd_fof_check_nodes, kd_enum_check. rewrite <- Hn, <- Hl.
  destruct (node_connected d1) as [flags |]; [| done].
  destruct (rd flags _) as [c0 |]; [| done].
  destruct (if c0 =? 0 then _ else _) as [[|] |]; [| | done].
  - destruct (enum_point_pairs _ _ _) as [| [i j] l]; simpl; [done |].
    by rewrite !visit_edge_first_diverges.
  - pose proof (enum_edges_both u1 u2 (enum_point_pairs (nodes pair) (ll2 d1) 1)
                  _ _ Hs) as He.
    destruct (enum_edges (_kd_fof_visit_edge u1) _ _) as [[a1 rt1] |],
             (enum_edges (_kd_fof_visit_edge u2) _ _) as [[a2 rt2] |];
      simpl in *; tauto.
Qed.

Lemma always_open_both enum_node_pairs enum_point_pairs u1 u2 fuel nds maxr d1 d2 :
  same_roots d1 d2 ->
  both (fun a b => snd a = snd b /\ same_roots (fst a) (fst b))
    (kd_enum_always_open enum_node_pairs nds maxr
       (_kd_fof_check_nodes enum_point_pairs u1 fuel) d1)
    (kd_enum_always_open enum_node_pairs nds maxr
       (_kd_fof_check_nodes enum_point_pairs u2 fuel) d2).
Proof.
  intros Hs. unfold kd_enum_always_open.
  match goal with
  | |- both _ (match for_each ?f1 ?l _ with _ => _ end)
              (match for_each ?f2 _ _ with _ => _ end) =>
      assert (Hloop : both same_roots (for_each f1 l d1) (for_each f2 l d2))
  end.
  { apply both_for_each; [| done]. intros s1 s2 np Hs12.
    pose proof (check_nodes_both enum_point_pairs u1 u2 fuel s1 s2
                  (mkKDEnumNodePair np) Hs12) as Hc.
    destruct (_kd_fof_check_nodes _ u1 _ _ _) as [[? ?] |],
             (_kd_fof_check_nodes _ u2 _ _ _) as [[? ?] |]; simpl in *; tauto. }
  destruct (for_each _ _ d1) as [a |], (for_each _ _ d2) as [b |]; simpl in *;
    tauto.
Qed.

Lemma finalize_both u1 u2 n d1 d2 :
  same_roots d1 d2 ->
  both same_roots (kd_fof_finalize u1 n d1) (kd_fof_finalize u2 n d2).
Proof.
  intros Hs. unfold kd_fof_finalize. apply both_for_each; [| done].
  intros s1 s2 i Hs12. pose proof (splay_both u1 u2 _ _ i Hs12) as Hsp.
  destruct (splay u1 s1 i) as [[a1 r1] |] eqn:H1,
           (splay u2 s2 i) as [[a2 r2] |] eqn:H2; simpl in Hsp; try done.
  destruct Hsp as [<- Hsa].
  apply splay_spec in H1 as (_ & _ & Hr1 & _).
  apply splay_spec in H2 as (_ & _ & Hr2 & _).
  rewrite (wr_same _ _ _ Hr1), (wr_same _ _ _ Hr2). exact Hsa.
Qed.

(** ** Chains of near points *)

Section Chains.
Variable near : Z -> Z -> Prop.
Hypothesis near_sym : forall i j, near i j -> near j i.

Lemma chain_one i j : near i j -> chain near i j.
Proof. intros Hij. eapply chain_cons; [exact Hij | apply chain_nil]. Qed.

Lemma chain_trans i p j : chain near i p -> chain near p j -> chain near i j.
Proof.
  induction 1 as [| i q p Hiq Hqp IH]; [done |].
  intros Hpj. eapply chain_cons; [exact Hiq | by apply IH].
Qed.

Lemma chain_sym i j : chain near i j -> chain near j i.
Proof.
  induction 1 as [| i p j Hip Hpj IH]; [apply chain_nil |].
  eapply chain_trans; [exact IH |]. by apply chain_one, near_sym.
Qed.

Lemma chain_equivalence : Equivalence (chain near).
Proof.
  split.
  - intros i. apply chain_nil.
  - intros i j. apply chain_sym.
  - intros i p j. apply chain_trans.
Qed.

Lemma chain_range n i j :
  (forall i j, near i j -> 0 <= i < n /\ 0 <= j < n) ->
  chain near i j -> 0 <= i < n -> 0 <= j < n.
Proof.
  intros Hdom. induction 1 as [| i p j Hip Hpj IH]; [done |].
  intros _. apply IH. by destruct (Hdom _ _ Hip).
Qed.

End Chains.

(** ** Labels stay inside an equivalence *)


(** ** When the run returns *)

Lemma for_each_total {S B : Type} (P : S -> Prop) (body : S -> B -> option S) l :
  (forall s b, b ∈ l -> P s -> exists s', body s b = Some s' /\ P s') ->
  forall s, P s -> exists s', for_each body l s = Some s' /\ P s'.
Proof.
  induction l as [| b l IH]; intros Hbody s Hs; simpl.
  - by exists s.
  - destruct (Hbody s b) as (s1 & -> & Hs1); [by left | done |].
    apply IH; [| done]. intros s2 b2 Hb2. apply Hbody. by right.
Qed.

Lemma kd_fof_init_total n h :
  n <= Z.of_nat (length h) -> exists h', kd_fof_init n h = Some h'.
Proof.
  intros Hn. unfold kd_fof_init.
  destruct (for_each_total (fun h' => length h' = length h)
              (fun h i => wr h i i) (range 0 n)) with (s := h)
    as (h' & Hrun & _); [| done | by exists h'].
  intros h1 i Hi%range_elem Hlen.
  destruct (wr_in_range h1 i i) as [h2 Hw]; [lia |].
  exists h2. split; [done |]. by rewrite (wr_length _ _ _ _ Hw).
Qed.

Lemma visit_edge_total u d pair :
  forest (head d) ->
  0 <= pair_i pair < Z.of_nat (length (head d)) ->
  0 <= pair_j pair < Z.of_nat (length (head d)) ->
  exists d', _kd_fof_visit_edge u d pair = Some (d', 0) /\
    forest (head d') /\ length (head d') = length (head d).
Proof.
  intros Hf Hi Hj.
  assert (Hex : exists d' rt, _kd_fof_visit_edge u d pair = Some (d', rt)).
  { unfold _kd_fof_visit_edge.
    destruct (Hf _ Hi) as [ri Hri].
    destruct (splay_total u (set_visited d (visited d + 1)) _ _ Hri) as [d1 H1].
    rewrite H1. apply splay_spec in H1 as (_ & Hc1 & _). simpl in Hc1.
    assert (Hj1 : 0 <= pair_j pair < Z.of_nat (length (head d1)))
      by (by rewrite (proj1 Hc1)).
    destruct (compressed_forest _ _ Hc1 Hf _ Hj1) as [rj Hrj].
    destruct (splay_total u d1 _ _ Hrj) as [d2 H2].
    rewrite H2. apply splay_spec in H2 as (_ & Hc2 & _).
    assert (Hroot : rd (head d2) rj = Some rj).
    { eapply compressed_root; [exact Hc2 | by eapply root_of_is_root]. }
    destruct (wr_in_range (head d2) rj ri (rd_range _ _ _ Hroot)) as [h3 ->].
    eauto. }
  destruct Hex as (d' & rt & Hrun). exists d'.
  pose proof (visit_edge_spec _ _ _ _ _ Hrun)
    as (-> & _ & _ & h1 & ri & rj & Hc & _ & _ & Hw).
  split; [done |]. split; [by eapply visit_edge_forest |].
  by rewrite (wr_length _ _ _ _ Hw), (proj1 Hc).
Qed.

Lemma enum_edges_total u l d :
  forest (head d) ->
  (forall i j, (i, j) ∈ l ->
     0 <= i < Z.of_nat (length (head d)) /\ 0 <= j < Z.of_nat (length (head d))) ->
  exists d', enum_edges (_kd_fof_visit_edge u) l d = Some (d', 0) /\
    forest (head d') /\ length (head d') = length (head d).
Proof.
  revert d. induction l as [| [i j] l IH]; intros d Hf Hl; simpl.
  - by exists d.
  - destruct (Hl i j) as [Hi Hj]; [by left |].
    destruct (visit_edge_total u d (mkKDEnumPair i j) Hf Hi Hj)
      as (d1 & -> & Hf1 & Hlen1).
    simpl. destruct (IH d1 Hf1) as (d2 & Hrun & Hf2 & Hlen2).
    + intros a b Hab. rewrite Hlen1. apply Hl. by right.
    + exists d2. split; [done |]. split; [done | congruence].
Qed.

Lemma kd_fof_finalize_total u n d :
  forest (head d) -> n <= Z.of_nat (length (head d)) ->
  exists d', kd_fof_finalize u n d = Some d'.
Proof.
  intros Hf Hn. unfold kd_fof_finalize.
  match goal with
  | |- exists d', for_each ?body _ _ = _ =>
      destruct (for_each_total
                  (fun d' => forest (head d') /\ length (head d') = length (head d))
                  body (range 0 n)) with (s := d) as (d' & Hrun & _)
  end; [| done | by exists d'].
  intros d1 i Hi%range_elem [Hf1 Hlen1].
  destruct (Hf1 i) as [r Hr]; [lia |].
  destruct (splay_total u d1 i r Hr) as [d2 H2]. rewrite H2.
  pose proof (splay_forest _ _ _ _ _ H2 Hf1) as Hf2.
  apply splay_spec in H2 as (_ & Hc & Hir & _).
  rewrite (wr_same _ _ _ Hir). eexists. split; [reflexivity |]. simpl.
  split; [done |]. by rewrite (proj1 Hc).
Qed.

Lemma connect_node_total d node pc flags :
  0 <= start node -> 0 < size node ->
  start node + size node <= Z.of_nat (length (ind d)) ->
  (forall p, p ∈ node_points (ind d) node -> 0 <= p < Z.of_nat (length (head d))) ->
  node_connected d = Some flags -> 0 <= index node < Z.of_nat (length flags) ->
  exists d' c, connect_node d node pc = Some (d', c).
Proof.
  intros Hstart Hsize Hend Hpts Hflags Hidx. unfold connect_node.
  destruct (wr_in_range flags (index node) 1 Hidx) as [f1 Hw1].
  destruct (wr_in_range flags (index node) 0 Hidx) as [f0 Hw0].
  destruct (negb (pc =? 0)); simpl; [rewrite Hflags, Hw1; eauto |].
  destruct (kd_node_maxdist2 node <=? ll2 d)%float;
    [| rewrite Hflags, Hw0; eauto].
  destruct (rd_in_range (ind d) (start node)) as [r ->]; [lia |].
  unfold connect_points.
  match goal with
  | |- context [for_each ?body ?l (head d)] =>
      destruct (for_each_total (fun h => length h = length (head d)) body l)
        with (s := head d) as (h' & -> & _)
  end; [| done | simpl; rewrite Hflags, Hw1; eauto].
  intros h1 i Hi%range_elem Hlen.
  destruct (rd_in_range (ind d) i) as [p Hp]; [lia |]. rewrite Hp.
  destruct (wr_in_range h1 p r) as [h2 Hw].
  { rewrite Hlen. apply Hpts. apply node_points_elem. exists i.
    split; [lia | done]. }
  exists h2. split; [done |]. by rewrite (wr_length _ _ _ _ Hw).
Qed.

(** [connect] returns on a tree with well-formed ranges and no empty
    node, when the points fit in [head] and the node indices in the
    buffer of flags. *)
Lemma connect_total d node pc flags :
  wf_node (Z.of_nat (length (ind d))) node ->
  (forall m, m ∈ subnodes node -> 0 < size m) ->
  (forall p, p ∈ node_points (ind d) node -> 0 <= p < Z.of_nat (length (head d))) ->
  node_connected d = Some flags ->
  (forall m, m ∈ subnodes node -> 0 <= index m < Z.of_nat (length flags)) ->
  exists d', connect d node pc = Some d'.
Proof.
  revert d pc flags.
  induction node as [info | info sd l IHl r IHr];
    intros d pc flags Hwf Hsize Hpts Hflags Hidx; simpl.
  - pose proof (wf_node_bounds _ _ Hwf) as (? & ? & ?).
    destruct (connect_node_total d (Leaf info) pc flags)
      as (d1 & c & ->); try done; [apply Hsize | apply Hidx | eauto]; by left.
  - pose proof (wf_node_bounds _ _ Hwf) as (? & ? & ?).
    pose proof Hwf as (_ & _ & _ & _ & _ & _ & Wl & Wr).
    set (node := Split info sd l r) in *.
    assert (Hl : l ∈ subnodes node).
    { simpl. right. apply elem_of_app. left. destruct l; by left. }
    assert (Hr : r ∈ subnodes node).
    { simpl. right. apply elem_of_app. right. destruct r; by left. }
    assert (Hsubl : forall m, m ∈ subnodes l -> m ∈ subnodes node).
    { intros m Hm. simpl. right. apply elem_of_app. by left. }
    assert (Hsubr : forall m, m ∈ subnodes r -> m ∈ subnodes node).
    { intros m Hm. simpl. right. apply elem_of_app. by right. }
    destruct (connect_node_total d node pc flags)
      as (d1 & c & Hn); try done; [apply Hsize; by left | apply Hidx; by left |].
    rewrite Hn.
    pose proof (connect_node_spec _ _ _ _ _ Hn)
      as (_ & Hi1 & _ & _ & _ & (f & f1 & Hf & Hw & Hf1) & Hh).
    assert (f = flags) by congruence. subst f.
    assert (Hlen1 : length (head d1) = length (head d)).
    { destruct (_ && _); [| by rewrite Hh].
      destruct Hh as (r0 & _ & Hcp). by apply connect_points_spec in Hcp as [? _]. }
    destruct (IHl d1 c f1) as [d2 H2].
    + by rewrite Hi1.
    + intros m Hm. by apply Hsize, Hsubl.
    + intros p Hp. rewrite Hlen1, Hi1 in *. apply Hpts.
      eapply subnodes_points; [exact Hwf | exact Hl | exact Hp].
    + done.
    + intros m Hm. rewrite (wr_length _ _ _ _ Hw). by apply Hidx, Hsubl.
    + rewrite H2.
      pose proof (connect_fields _ _ _ _ H2) as (Hi2 & _ & _ & Hlen2 & _).
      pose proof (connect_flags_frame _ _ _ _ H2) as (fa & f2 & Hfa & Hf2 & Hfl & _).
      assert (fa = f1) by congruence. subst fa.
      apply (IHr d2 c f2).
      * by rewrite Hi2, Hi1.
      * intros m Hm. by apply Hsize, Hsubr.
      * intros p Hp. rewrite Hlen2, Hlen1, Hi2, Hi1 in *. apply Hpts.
        eapply subnodes_points; [exact Hwf | exact Hr | exact Hp].
      * done.
      * intros m Hm. rewrite Hfl, (wr_length _ _ _ _ Hw). by apply Hidx, Hsubr.
Qed.

Section Returns.

Variable enum_node_pairs : KDNode * KDNode -> float -> list (KDNode * KDNode).
Variable enum_point_pairs : KDNode * KDNode -> float -> Z -> list (Z * Z).
Variables (u : bool) (fuel : nat) (tree : KDTree) (node : KDNode).
Variables (linking_length : float) (head0 : list Z).

Hypothesis Hinput : wf_input tree node head0.
Hypothesis Hindex :
  forall m, m ∈ subnodes node -> 0 <= index m < tree_size tree.
Hypothesis Hdistinct : NoDup (index <$> subnodes node).
Hypothesis Hnodes :
  forall np, np ∈ enum_node_pairs (node, node) linking_length ->
    fst np ∈ subnodes node /\ snd np ∈ subnodes node.

(** The state after the prepass, when the prepass returns. *)
Lemma kd_fof_prepass_spec d1 :
  kd_fof_prepass true tree node linking_length head0 = Some d1 ->
  forest (head d1) /\ length (head d1) = length head0 /\
  ll2 d1 = (linking_length * linking_length)%float /\
  exists f, node_connected d1 = Some f /\
    length f = Z.to_nat (tree_size tree) /\
    forall m, m ∈ subnodes node ->
      m ∈ connected_nodes (linking_length * linking_length)%float node 0 <->
      exists c, rd f (index m) = Some c /\ c <> 0.
Proof.
  unfold kd_fof_prepass. intros Hrun.
  destruct (kd_fof_setup _ _ _ _ _) as [d0 |] eqn:H0; [| discriminate].
  destruct Hinput as (Hwf & Hnd & Hpts & Hlen).
  pose proof (kd_fof_setup_spec _ _ _ _ _ _ H0)
    as (Hi0 & Hl0 & _ & _ & Hlen0 & Hin & _).
  pose proof (connect_fields _ _ _ _ Hrun) as (_ & Hl1 & _ & Hlen1 & _).
  assert (Hroots : forall p, p ∈ node_points (ind d0) node ->
                     rd (head d0) p = Some p).
  { intros p Hp. rewrite Hi0 in Hp. by apply Hin, Hpts. }
  split; [| split; [congruence | split; [congruence |]]].
  - rewrite <- Hi0 in Hwf, Hnd.
    destruct (connect_marks _ _ _ Hwf Hnd Hroots Hrun) as (Hout & Hmarks & _).
    eapply relink_forest; [exact Hlen1 | exact Hroots | exact Hout | |].
    + intros p Hp. destruct (Hmarks p Hp) as (q & _ & Hpq & Hqq). by exists q.
    + intros x Hx. exists x. apply root_of_root, Hin. lia.
  - pose proof (connect_flags_frame _ _ _ _ Hrun)
      as (f0 & f & Hf0 & Hf & Hflen & _).
    exists f. split; [done |]. split.
    + rewrite Hflen. unfold kd_fof_setup in H0.
      destruct (kd_fof_init _ _); [| discriminate]. injection H0 as <-.
      simpl in Hf0. injection Hf0 as <-. apply repeat_length.
    + intros m Hm. rewrite <- Hl0.
      rewrite (connect_flags_connected _ _ _ _ Hdistinct Hrun Hm). split.
      * intros (f' & c & Hf' & Hc). exists c. congruence.
      * intros (c & Hc). by exists f, c.
Qed.

(** A delivered pair of two marked nodes with a point pair within the
    linking length: the run does not return. *)
Lemma kd_fof_short_circuit np :
  np ∈ enum_node_pairs (node, node) linking_length ->
  fst np ∈ connected_nodes (linking_length * linking_length)%float node 0 ->
  snd np ∈ connected_nodes (linking_length * linking_length)%float node 0 ->
  enum_point_pairs np (linking_length * linking_length)%float 1 <> [] ->
  kd_fof enum_node_pairs enum_point_pairs u fuel true tree node
    linking_length head0 = None.
Proof.
  intros Hnp Hc0 Hc1 Hne.
  destruct (kd_fof _ _ _ _ _ _ _ _ _) as [[d rt] |] eqn:Hrun; [| done].
  exfalso. unfold kd_fof, kd_fof_traverse in Hrun.
  destruct (kd_fof_prepass _ _ _ _ _) as [d1 |] eqn:H1; [| discriminate].
  destruct (kd_enum_always_open _ _ _ _ _) as [[d2 rt2] |] eqn:H2;
    [| discriminate].
  clear Hrun. unfold kd_enum_always_open in H2.
  destruct (for_each _ _ _) as [d2' |] eqn:Hloop; [| discriminate]. clear H2.
  destruct (kd_fof_prepass_spec _ H1) as (_ & _ & Hl1 & f & Hf & _ & Hflags).
  destruct (Hnodes _ Hnp) as [Hm0 Hm1].
  apply Hflags in Hc0 as (c0 & Hr0 & Hz0); [| done].
  apply Hflags in Hc1 as (c1 & Hr1 & Hz1); [| done].
  apply list_elem_of_split in Hnp as (l1 & l2 & Hl).
  rewrite Hl, for_each_app in Hloop.
  destruct (for_each _ l1 d1) as [da |] eqn:Ha; [| discriminate].
  apply (check_nodes_loop_inv _ (fun _ => True)) in Ha as [_ Hsame]; [| done | done].
  destruct Hsame as (_ & Hfa & Hla & _).
  simpl in Hloop. unfold _kd_fof_check_nodes, kd_enum_check in Hloop.
  simpl in Hloop. rewrite Hfa, Hf, Hr0 in Hloop.
  apply Z.eqb_neq in Hz0, Hz1. rewrite Hz0, Hr1, Hz1 in Hloop. simpl in Hloop.
  destruct (enum_edges _ _ _) as [res |] eqn:He; [| discriminate].
  apply enum_edges_first in He as [He _].
  apply Hne. by rewrite <- Hl1, <- Hla.
Qed.

Hypothesis Hsize : forall m, m ∈ subnodes node -> 0 < size m.
Hypothesis Hpairs :
  forall np i j, np ∈ enum_node_pairs (node, node) linking_length ->
    (i, j) ∈ enum_point_pairs np (linking_length * linking_length)%float 1 ->
    0 <= i < size node /\ 0 <= j < size node.
Hypothesis Hshort :
  forall np, np ∈ enum_node_pairs (node, node) linking_length ->
    fst np ∈ connected_nodes (linking_length * linking_length)%float node 0 ->
    snd np ∈ connected_nodes (linking_length * linking_length)%float node 0 ->
    enum_point_pairs np (linking_length * linking_length)%float 1 = [].

Lemma kd_fof_prepass_total :
  exists d1, kd_fof_prepass true tree node linking_length head0 = Some d1.
Proof.
  destruct Hinput as (Hwf & Hnd & Hpts & Hlen).
  destruct (kd_fof_init_total (size node) head0) as [h Hh]; [lia |].
  unfold kd_fof_prepass, kd_fof_setup. rewrite Hh. simpl.
  apply kd_fof_init_spec in Hh as (Hlenh & _).
  eapply connect_total; simpl; [done | done | | reflexivity |].
  - intros p Hp. rewrite Hlenh. apply Hpts in Hp. lia.
  - intros m Hm. apply Hindex in Hm. rewrite repeat_length. lia.
Qed.

(** The run returns when no node is empty, the enumeration delivers
    nodes of the tree and points of the node, and it finds no point pair
    under a delivered pair of two marked nodes. *)
Lemma kd_fof_returns :
  exists d, kd_fof enum_node_pairs enum_point_pairs u fuel true tree node
              linking_length head0 = Some (d, 0).
Proof.
  destruct kd_fof_prepass_total as [d1 H1].
  destruct (kd_fof_prepass_spec _ H1)
    as (Hf1 & Hlen1 & Hl1 & f & Hfd1 & Hflen & Hflags).
  destruct Hinput as (Hwf & Hnd & Hpts & Hlen).
  unfold kd_fof, kd_fof_traverse, kd_enum_always_open. rewrite H1.
  match goal with
  | |- context [for_each ?body ?l d1] =>
      destruct (for_each_total
                  (fun d => forest (head d) /\ length (head d) = length (head d1) /\
                            same_setup d1 d) body l) with (s := d1)
        as (d2 & -> & Hf2 & Hlen2 & _)
  end.
  - intros d np Hnp (Hf & Hl & Hsame).
    destruct (Hnodes _ Hnp) as [Hm0 Hm1].
    pose proof (Hindex _ Hm0) as Hi0. pose proof (Hindex _ Hm1) as Hi1.
    pose proof Hsame as (Hind & Hnc & Hll & Hcn).
    assert (Hedges : exists d',
      enum_edges (_kd_fof_visit_edge u) (enum_point_pairs np (ll2 d) 1) d
        = Some (d', 0) /\ forest (head d') /\ length (head d') = length (head d)).
    { apply enum_edges_total; [done |]. intros i j Hij.
      rewrite Hll, Hl1 in Hij. rewrite Hl, Hlen1, Hlen. by eapply Hpairs. }
    destruct Hedges as (d' & He & Hf' & Hl').
    assert (Hres : forest (head d') /\ length (head d') = length (head d1) /\
                   same_setup d1 d').
    { split; [done |]. split; [congruence |].
      eapply same_setup_trans; [exact Hsame | by eapply enum_edges_same_setup]. }
    unfold _kd_fof_check_nodes, kd_enum_check. simpl.
    rewrite Hnc, Hfd1.
    destruct (rd_in_range f (index (fst np))) as [c0 Hr0]; [lia |].
    destruct (rd_in_range f (index (snd np))) as [c1 Hr1]; [lia |].
    rewrite Hr0.
    destruct (c0 =? 0) eqn:Hz0; [rewrite He; eauto |].
    rewrite Hr1.
    destruct (c1 =? 0) eqn:Hz1; simpl; [rewrite He; eauto |].
    apply Z.eqb_neq in Hz0, Hz1.
    rewrite Hll, Hl1, Hshort; [simpl; eauto | done | |].
    + apply Hflags; [done |]. by exists c0.
    + apply Hflags; [done |]. by exists c1.
  - split; [done |]. split; [done | apply same_setup_refl].
  - destruct (kd_fof_finalize_total u (size node) d2) as [d3 ->]; [done | lia |].
    eauto.
Qed.

End Returns.

(** ** The diagnostics counters *)

Lemma splay_counters u d i d' r :
  splay u d i = Some (d', r) ->
  exists l, path (head d) i l r /\
    nsplay d' = nsplay d + 1 /\
    totaldepth d' = totaldepth d + Z.of_nat (length l) /\
    maxdepth d' = Z.max (maxdepth d) (Z.of_nat (length l)) /\
    skipped d' = skipped d /\ ll d' = ll d.
Proof.
  unfold splay. intros Hrun.
  destruct (splay_find _ _ _ _) as [[r0 depth] |] eqn:Hfind; [| discriminate].
  apply splay_find_inv in Hfind as (l & Hl & ->).
  destruct (if u then _ else _) as [h1 |]; [| discriminate].
  injection Hrun as <- <-. exists l. split; [done |].
  simpl. destruct (Z.gtb_spec (0 + Z.of_nat (length l)) (maxdepth d));
    simpl; repeat split; lia.
Qed.

Lemma splay_depth_counters u d i d' r :
  splay u d i = Some (d', r) -> depth_counters_ok d -> depth_counters_ok d'.
Proof.
  intros Hrun (Hm & Ht & Hn & Hlen).
  pose proof (splay_counters _ _ _ _ _ Hrun) as (l & Hl & H1 & H2 & H3 & _).
  apply splay_spec in Hrun as (_ & [H4 _] & _).
  pose proof (path_length _ _ _ _ Hl). unfold depth_counters_ok.
  rewrite H1, H2, H3, H4. repeat split; nia.
Qed.

Lemma visit_edge_counters u d pair d' rt :
  _kd_fof_visit_edge u d pair = Some (d', rt) ->
  visited d' = visited d + 1 /\ nsplay d' = nsplay d + 2 /\
  (depth_counters_ok d -> depth_counters_ok d').
Proof.
  unfold _kd_fof_visit_edge. intros Hrun.
  destruct (splay u _ (pair_i pair)) as [[d1 ri] |] eqn:H1; [| discriminate].
  destruct (splay u d1 (pair_j pair)) as [[d2 rj] |] eqn:H2; [| discriminate].
  destruct (wr _ _ _) as [h3 |] eqn:Hw; [| discriminate].
  injection Hrun as <- <-.
  pose proof (splay_counters _ _ _ _ _ H1) as (l1 & _ & Hn1 & _).
  pose proof (splay_counters _ _ _ _ _ H2) as (l2 & _ & Hn2 & _).
  pose proof (splay_spec _ _ _ _ _ H1) as (_ & _ & _ & _ & _ & _ & Hv1 & _).
  pose proof (splay_spec _ _ _ _ _ H2) as (_ & _ & _ & _ & _ & _ & Hv2 & _).
  simpl in *. split; [lia |]. split; [lia |].
  intros Hok.
  assert (Hok2 : depth_counters_ok d2).
  { eapply splay_depth_counters; [exact H2 |].
    eapply splay_depth_counters; [exact H1 | exact Hok]. }
  unfold depth_counters_ok in *. simpl.
  by rewrite (wr_length _ _ _ _ Hw).
Qed.

Lemma enum_edges_counters u l d d' rt :
  enum_edges (_kd_fof_visit_edge u) l d = Some (d', rt) ->
  visited d' = visited d + Z.of_nat (length l) /\
  nsplay d' = nsplay d + 2 * Z.of_nat (length l) /\
  (depth_counters_ok d -> depth_counters_ok d').
Proof.
  revert d. induction l as [| [i j] l IH]; intros d Hrun; simpl in Hrun.
  - injection Hrun as <- <-. simpl. split; [lia | split; [lia | done]].
  - destruct (_kd_fof_visit_edge _ _ _) as [[d1 rt1] |] eqn:Hv; [| discriminate].
    pose proof (visit_edge_spec _ _ _ _ _ Hv) as (-> & _).
    apply visit_edge_counters in Hv as (Hv1 & Hn1 & Hok1).
    simpl in Hrun. apply IH in Hrun as (Hv2 & Hn2 & Hok2).
    simpl length. split; [lia | split; [lia | tauto]].
Qed.

Lemma check_nodes_loop_counters
    (enum_point_pairs : KDNode * KDNode -> float -> Z -> list (Z * Z))
    u fuel l d d' :
  for_each
    (fun data np =>
       match _kd_fof_check_nodes enum_point_pairs u fuel data
               (mkKDEnumNodePair np) with
       | None => None
       | Some (data, _) => Some data
       end) l d = Some d' ->
  visited d' = visited d + edges_delivered enum_point_pairs (ll2 d) l /\
  nsplay d' = nsplay d + 2 * edges_delivered enum_point_pairs (ll2 d) l /\
  (depth_counters_ok d -> depth_counters_ok d').
Proof.
  unfold edges_delivered.
  revert d. induction l as [| np l IH]; intros d Hrun; simpl in Hrun.
  - injection Hrun as <-. simpl. split; [lia | split; [lia | done]].
  - destruct (_kd_fof_check_nodes _ _ _ _ _) as [[d1 rt1] |] eqn:Hc;
      [| discriminate].
    apply check_nodes_spec in Hc as (_ & rt' & He). simpl in He.
    pose proof (enum_edges_same_setup _ _ _ _ _ He) as (_ & _ & Hll & _).
    apply enum_edges_counters in He as (Hv1 & Hn1 & Hok1).
    apply IH in Hrun as (Hv2 & Hn2 & Hok2). rewrite Hll in Hv2, Hn2.
    simpl sum_list_with. split; [lia | split; [lia | tauto]].
Qed.

Lemma kd_fof_finalize_counters u n d d' :
  kd_fof_finalize u n d = Some d' ->
  nsplay d' = nsplay d + Z.max 0 n /\
  (depth_counters_ok d -> depth_counters_ok d').
Proof.
  unfold kd_fof_finalize. intros Hrun.
  assert (Hstep : forall d1 i d2,
    match splay u d1 i with
    | None => None
    | Some (trav, r) =>
        match wr (head trav) i r with
        | None => None
        | Some h => Some (set_head trav h)
        end
    end = Some d2 ->
    nsplay d2 = nsplay d1 + 1 /\ (depth_counters_ok d1 -> depth_counters_ok d2)).
  { intros d1 i d2 Hb.
    destruct (splay u d1 i) as [[d3 r] |] eqn:Hs; [| discriminate].
    destruct (wr _ _ _) as [h |] eqn:Hw; [| discriminate].
    injection Hb as <-.
    pose proof (splay_counters _ _ _ _ _ Hs) as (l & _ & Hn & _).
    split; [done |]. intros Hok.
    pose proof (splay_depth_counters _ _ _ _ _ Hs Hok) as Hok3.
    unfold depth_counters_ok in *. simpl.
    by rewrite (wr_length _ _ _ _ Hw). }
  split.
  - destruct (Z.le_gt_cases 0 n) as [Hn | Hn].
    + revert Hrun.
      apply (for_each_range (fun k d' => nsplay d' = nsplay d + Z.max 0 k));
        [done | | lia].
      intros i d1 d2 Hi Hd1 Hb. apply Hstep in Hb as [Hb _]. lia.
    + rewrite range_empty in Hrun by lia. injection Hrun as <-. lia.
  - intros Hok. revert Hrun.
    apply (for_each_inv depth_counters_ok); [| done].
    intros d1 i d2 _ Hd1 Hb. apply Hstep in Hb as [_ Hb]. by apply Hb.
Qed.

Lemma connect_node_counters d node pc d' c :
  connect_node d node pc = Some (d', c) ->
  nsplay d' = nsplay d /\ maxdepth d' = maxdepth d /\
  totaldepth d' = totaldepth d /\ skipped d' = skipped d /\ ll d' = ll d.
Proof.
  unfold connect_node. intros Hrun.
  repeat case_match; simplify_eq; done.
Qed.

Lemma connect_counters d node pc d' :
  connect d node pc = Some d' ->
  nsplay d' = nsplay d /\ maxdepth d' = maxdepth d /\
  totaldepth d' = totaldepth d /\ skipped d' = skipped d /\ ll d' = ll d.
Proof.
  revert d pc d'.
  induction node as [info | info sd l IHl r IHr]; intros d pc d' Hrun;
    simpl in Hrun;
    destruct (connect_node d _ pc) as [[d1 c] |] eqn:Hn; try discriminate;
    apply connect_node_counters in Hn as (? & ? & ? & ? & ?).
  - injection Hrun as <-. done.
  - destruct (connect d1 l c) as [d2 |] eqn:Hl2; [| discriminate].
    apply IHl in Hl2 as (? & ? & ? & ? & ?).
    apply IHr in Hrun as (? & ? & ? & ? & ?).
    repeat split; congruence.
Qed.

(** The counters of a run that returns. *)
Lemma kd_fof_counters
    (enum_node_pairs : KDNode * KDNode -> float -> list (KDNode * KDNode))
    (enum_point_pairs : KDNode * KDNode -> float -> Z -> list (Z * Z))
    (u : bool) (fuel : nat) (calloc_ok : bool) (tree : KDTree) (node : KDNode)
    (linking_length : float) (head0 : list Z) (d : TraverseData) (rt : Z) :
  kd_fof enum_node_pairs enum_point_pairs u fuel calloc_ok tree node
    linking_length head0 = Some (d, rt) ->
  visited d =
    edges_delivered enum_point_pairs (linking_length * linking_length)%float
      (enum_node_pairs (node, node) linking_length) /\
  nsplay d = 2 * visited d + Z.max 0 (size node) /\
  depth_counters_ok d /\ length (head d) = length head0.
Proof.
  intros (d0 & d1 & d2 & d3 & rt2 & H0 & H1 & H2 & H3 & -> & _)%kd_fof_inv.
  pose proof (kd_fof_setup_spec _ _ _ _ _ _ H0)
    as (_ & Hll0 & Hv0 & _ & Hlen0 & _).
  assert (Hc0 : nsplay d0 = 0 /\ maxdepth d0 = 0 /\ totaldepth d0 = 0).
  { unfold kd_fof_setup in H0. destruct (kd_fof_init _ _); [| discriminate].
    by injection H0 as <-. }
  destruct Hc0 as (Hn0 & Hm0 & Ht0).
  pose proof (connect_fields _ _ _ _ H1) as (_ & Hll1 & Hv1 & Hlen1 & _).
  pose proof (connect_counters _ _ _ _ H1) as (Hn1 & Hm1 & Ht1 & _).
  assert (Hok1 : depth_counters_ok d1).
  { unfold depth_counters_ok. rewrite Hn1, Hm1, Ht1, Hn0, Hm0, Ht0. lia. }
  unfold kd_enum_always_open in H2.
  destruct (for_each _ _ _) as [d2' |] eqn:Hloop; [| discriminate].
  injection H2 as -> <-.
  assert (Hlen2 : length (head d2) = length (head d1)).
  { eapply (check_nodes_loop_inv enum_point_pairs
              (fun d => length (head d) = length (head d1)));
      [| reflexivity | exact Hloop].
    intros d4 np i j d5 rt5 _ _ Hlen4 Hv.
    apply visit_edge_spec in Hv as (_ & _ & _ & h1 & ri & rj & [Hc _] & _ & _ & Hw).
    by rewrite (wr_length _ _ _ _ Hw), Hc. }
  apply check_nodes_loop_counters in Hloop as (Hv2 & Hn2 & Hok2).
  pose proof (kd_fof_finalize_spec _ _ _ _ H3) as ([Hlen3 _] & _ & Hv3 & _).
  apply kd_fof_finalize_counters in H3 as (Hn3 & Hok3).
  simpl. rewrite Hll1, Hll0 in Hv2, Hn2.
  split; [lia |]. split; [lia |]. split; [tauto | congruence].
Qed.

(** ** More on the prepass *)

Lemma subnodes_self node : node ∈ subnodes node.
Proof. destruct node; by left. Qed.

Lemma subnodes_trans node m m' :
  m ∈ subnodes node -> m' ∈ subnodes m -> m' ∈ subnodes node.
Proof.
  induction node as [info | info sd l IHl r IHr]; intros Hm Hm'; simpl in Hm.
  - by apply list_elem_of_singleton in Hm as ->.
  - apply elem_of_cons in Hm as [-> | Hm]; [done |].
    simpl. right. apply elem_of_app.
    apply elem_of_app in Hm as [Hm | Hm]; [left | right]; auto.
Qed.

(** Below a marked node, the marked nodes are all the nodes. *)
Lemma connected_nodes_all ll2 node pc :
  pc <> 0 -> connected_nodes ll2 node pc = subnodes node.
Proof.
  revert pc. induction node as [info | info sd l IHl r IHr]; intros pc Hpc.
  - rewrite connected_nodes_leaf, node_flag_inherited by done.
    by rewrite decide_True.
  - rewrite connected_nodes_split. simpl. rewrite node_flag_inherited by done.
    rewrite decide_True by done. by rewrite IHl, IHr.
Qed.

(** The marks go down the tree. *)
Lemma connected_nodes_down ll2 node pc m m' :
  m ∈ connected_nodes ll2 node pc -> m' ∈ subnodes m ->
  m' ∈ connected_nodes ll2 node pc.
Proof.
  revert pc. induction node as [info | info sd l IHl r IHr]; intros pc.
  - rewrite connected_nodes_leaf. simpl. destruct (decide _) as [Hc | Hc].
    + intros ->%list_elem_of_singleton Hm'. simpl in Hm'.
      by apply list_elem_of_singleton in Hm' as ->; left.
    + intros []%elem_of_nil.
  - rewrite connected_nodes_split. simpl.
    intros [Hm | Hm]%elem_of_app Hm'.
    + destruct (decide _) as [Hc | Hc]; [| by apply elem_of_nil in Hm].
      apply list_elem_of_singleton in Hm as ->. simpl in Hm'.
      apply elem_of_cons in Hm' as [-> | Hm']; [by left |].
      right. apply elem_of_app in Hm' as [Hm' | Hm']; apply elem_of_app;
        [left | right]; by apply connected_nodes_inherited.
    + apply elem_of_app. right.
      apply elem_of_app in Hm as [Hm | Hm]; apply elem_of_app; [left | right].
      * by eapply IHl.
      * by eapply IHr.
Qed.

(** Below a marked node, [connect] writes the flag [1] of every node. *)
Lemma connect_inherited_flags d node pc d' :
  pc <> 0 -> connect d node pc = Some d' ->
  exists f', node_connected d' = Some f' /\
    forall k, k ∈ index <$> subnodes node -> rd f' k = Some 1.
Proof.
  revert d pc d'.
  induction node as [info | info sd l IHl r IHr]; intros d pc d' Hpc Hrun;
    simpl in Hrun;
    destruct (connect_node d _ pc) as [[d1 c] |] eqn:Hn; try discriminate;
    apply connect_node_spec in Hn
      as (Hc & _ & _ & _ & _ & (f & f1 & Hf & Hw & Hf1) & _);
    rewrite node_flag_inherited in Hc by done; subst c.
  - injection Hrun as <-. exists f1. split; [done |].
    intros k ->%list_elem_of_singleton. by eapply rd_wr_eq.
  - destruct (connect d1 l 1) as [d2 |] eqn:H1; [| discriminate].
    pose proof (connect_flags_frame _ _ _ _ H1) as (fa & f2 & Hfa & Hf2 & _ & Hfr1).
    pose proof (connect_flags_frame _ _ _ _ Hrun) as (fb & f3 & Hfb & Hf3 & _ & Hfr2).
    apply IHl in H1 as (f2' & Hf2' & Hl1); [| done].
    apply IHr in Hrun as (f3' & Hf3' & Hr1); [| done].
    assert (fa = f1) by congruence. assert (fb = f2) by congruence.
    assert (f2' = f2) by congruence. assert (f3' = f3) by congruence.
    subst fa fb f2' f3'.
    exists f3. split; [done |]. intros k Hk.
    destruct (decide (k ∈ index <$> subnodes r)) as [Hkr | Hkr]; [by apply Hr1 |].
    rewrite Hfr2 by done.
    destruct (decide (k ∈ index <$> subnodes l)) as [Hkl | Hkl]; [by apply Hl1 |].
    rewrite Hfr1 by done.
    simpl in Hk. rewrite fmap_app in Hk.
    apply elem_of_cons in Hk as [-> | Hk]; [by eapply rd_wr_eq |].
    apply elem_of_app in Hk as [Hk | Hk]; done.
Qed.

(** [connect] writes no cell of [head] outside of the points of the
    node. *)
Lemma connect_head_frame d node pc d' :
  wf_node (Z.of_nat (length (ind d))) node -> connect d node pc = Some d' ->
  forall x, x ∉ node_points (ind d) node -> rd (head d') x = rd (head d) x.
Proof.
  revert d pc d'.
  induction node as [info | info sd l IHl r IHr]; intros d pc d' Hwf Hrun x Hx;
    simpl in Hrun;
    destruct (connect_node d _ pc) as [[d1 c] |] eqn:Hn; try discriminate;
    apply connect_node_spec in Hn as (_ & Hi1 & _ & _ & _ & _ & Hh).
  all: assert (H1 : rd (head d1) x = rd (head d) x);
    [ destruct (_ && _); [| by rewrite Hh];
      destruct Hh as (r0 & _ & Hcp);
      apply connect_points_spec in Hcp as (_ & _ & Hout);
      apply Hout; intros (i & Hi & Hxi); apply Hx, node_points_elem;
      exists i; split; [lia | done]
    | ].
  - by injection Hrun as <-.
  - destruct (connect d1 l c) as [d2 |] eqn:H2; [| discriminate].
    pose proof (connect_fields _ _ _ _ H2) as (Hi2 & _).
    pose proof Hwf as (_ & _ & _ & _ & _ & _ & Wl & Wr).
    rewrite (IHr d2 c d'); [| by rewrite Hi2, Hi1 | done |].
    + rewrite (IHl d1 c d2); [done | by rewrite Hi1 | done |].
      rewrite Hi1. intros Hxl. apply Hx.
      eapply subnodes_points; [exact Hwf | | exact Hxl].
      simpl. right. apply elem_of_app. left. apply subnodes_self.
    + rewrite Hi2, Hi1. intros Hxr. apply Hx.
      eapply subnodes_points; [exact Hwf | | exact Hxr].
      simpl. right. apply elem_of_app. right. apply subnodes_self.
Qed.

(** ** The partition of a run and the delivered pairs *)

Lemma chain_mono (near near' : Z -> Z -> Prop) i j :
  (forall a b, near a b -> near' a b) -> chain near i j -> chain near' i j.
Proof.
  intros Hsub. induction 1 as [| i p j Hip Hpj IH]; [apply chain_nil |].
  eapply chain_cons; [by apply Hsub | exact IH].
Qed.

Lemma same_root_sym h x y : same_root h x y -> same_root h y x.
Proof. intros (r & Hx & Hy). by exists r. Qed.

Lemma same_root_trans h x y z :
  same_root h x y -> same_root h y z -> same_root h x z.
Proof.
  intros (r & Hx & Hy) (r' & Hy' & Hz).
  rewrite <- (root_of_det _ _ _ _ Hy Hy') in Hz. by exists r.
Qed.

Lemma joined_sym h E a b : joined h E a b -> joined h E b a.
Proof.
  unfold joined. intros [Hs | [He | He]]; [left; by apply same_root_sym | |];
    tauto.
Qed.

(** The parent array after the prepass of a run on a well-formed input. *)
Lemma kd_fof_prepass_forest calloc_ok tree node linking_length head0 d1 :
  wf_input tree node head0 ->
  kd_fof_prepass calloc_ok tree node linking_length head0 = Some d1 ->
  forest (head d1) /\ length (head d1) = length head0 /\
  ll2 d1 = (linking_length * linking_length)%float.
Proof.
  unfold kd_fof_prepass. intros (Hwf & Hnd & Hpts & Hlen) Hrun.
  destruct (kd_fof_setup _ _ _ _ _) as [d0 |] eqn:H0; [| discriminate].
  pose proof (kd_fof_setup_spec _ _ _ _ _ _ H0)
    as (Hi0 & Hl0 & _ & _ & Hlen0 & Hin & _).
  pose proof (connect_fields _ _ _ _ Hrun) as (_ & Hl1 & _ & Hlen1 & _).
  assert (Hroots : forall p, p ∈ node_points (ind d0) node ->
                     rd (head d0) p = Some p).
  { intros p Hp. rewrite Hi0 in Hp. by apply Hin, Hpts. }
  split; [| split; congruence].
  rewrite <- Hi0 in Hwf, Hnd.
  destruct (connect_marks _ _ _ Hwf Hnd Hroots Hrun) as (Hout & Hmarks & _).
  eapply relink_forest; [exact Hlen1 | exact Hroots | exact Hout | |].
  - intros p Hp. destruct (Hmarks p Hp) as (q & _ & Hpq & Hqq). by exists q.
  - intros x Hx. exists x. apply root_of_root, Hin. lia.
Qed.

(** Two points get the same label exactly when a chain of steps joins
    them, each step being a link of the prepass or a delivered pair. *)
Lemma kd_fof_labels_closure
    (enum_node_pairs : KDNode * KDNode -> float -> list (KDNode * KDNode))
    (enum_point_pairs : KDNode * KDNode -> float -> Z -> list (Z * Z))
    (u : bool) (fuel : nat) (calloc_ok : bool) (tree : KDTree) (node : KDNode)
    (linking_length : float) (head0 : list Z) (d1 d : TraverseData) (rt : Z) :
  wf_input tree node head0 ->
  (forall i j, delivered enum_node_pairs enum_point_pairs node linking_length i j ->
     0 <= i < size node /\ 0 <= j < size node) ->
  kd_fof_prepass calloc_ok tree node linking_length head0 = Some d1 ->
  kd_fof enum_node_pairs enum_point_pairs u fuel calloc_ok tree node
    linking_length head0 = Some (d, rt) ->
  forall x y, 0 <= x < size node -> 0 <= y < size node ->
    rd (head d) x = rd (head d) y <->
    chain (joined (head d1)
             (delivered enum_node_pairs enum_point_pairs node linking_length))
      x y.
Proof.
  intros Hinput Hrange Hpre Hrun.
  set (E := delivered enum_node_pairs enum_point_pairs node linking_length) in *.
  set (near := joined (head d1) E).
  destruct (kd_fof_prepass_forest _ _ _ _ _ _ Hinput Hpre) as (Hf1 & Hlen1 & Hll1).
  destruct Hinput as (_ & _ & _ & Hlen).
  assert (Hsym : forall a b, near a b -> near b a) by apply joined_sym.
  assert (Hdom : forall a b, near a b -> 0 <= a < size node /\ 0 <= b < size node).
  { intros a b [(r & Ha & Hb) | [He | He]].
    - apply root_of_range in Ha, Hb. lia.
    - by apply Hrange.
    - destruct (Hrange _ _ He). done. }
  pose proof (chain_equivalence near Hsym) as HR.
  assert (Hflat : forall x, 0 <= x < size node -> flat (head d) x).
  { intros x Hx. by eapply kd_fof_flat. }
  pose proof Hrun as (d0 & d1' & d2 & d3 & rt2 & H0 & H1 & H2 & H3 & -> & _)%kd_fof_inv.
  assert (d1' = d1).
  { unfold kd_fof_prepass in Hpre. rewrite H0 in Hpre. congruence. }
  subst d1'. simpl in *.
  pose proof (kd_fof_finalize_spec _ _ _ _ H3) as (Hc & _).
  intros x y Hx Hy. split.
  - intros Heq.
    assert (L1 : linked (chain near) (size node) (head d1)).
    { intros a p Ha Hap. apply chain_one. left.
      destruct (Hf1 a) as [r Hr]; [lia |].
      exists r. split; [done | by eapply root_of_parent]. }
    assert (Hcdom : forall a b, chain near a b ->
                      0 <= a < size node -> 0 <= b < size node).
    { intros a b Hab Ha. by eapply chain_range. }
    assert (L3 : linked (chain near) (size node) (head d3)).
    { eapply (linked_compressed _ _ HR Hcdom); [exact Hc |].
      apply (always_open_inv _ _ (fun d => linked (chain near) (size node) (head d)))
        in H2 as [L2 _]; [done | | done].
      intros d4 np i j d5 rt5 Hnp Hij L4 Hv.
      assert (He : E i j) by (exists np; by rewrite <- Hll1).
      eapply (visit_edge_linked _ _ HR Hcdom); [exact Hv | | | done].
      - apply chain_one. right. by left.
      - by destruct (Hrange _ _ He). }
    destruct (Hflat x Hx) as (rx & Hxr & _), (Hflat y Hy) as (ry & Hyr & _).
    assert (rx = ry) by congruence. subst ry.
    transitivity rx; [by apply L3 | symmetry; by apply L3].
  - assert (Hstep : forall a b, near a b -> same_root (head d3) a b).
    { intros a b Hab. apply (compressed_same_root _ _ _ _ Hc).
      destruct Hab as [Hs | [(np & Hnp & Hin) | (np & Hnp & Hin)]].
      - apply (always_open_inv _ _ (fun d => same_root (head d) a b))
          in H2 as [Hres _]; [done | | done].
        intros d4 np i j d5 rt5 _ _ Hs4 Hv. by eapply visit_edge_same_root.
      - rewrite <- Hll1 in Hin.
        by eapply always_open_joins.
      - rewrite <- Hll1 in Hin. apply same_root_sym.
        by eapply always_open_joins. }
    intros Hch. apply flat_label; [by apply Hflat | by apply Hflat |].
    clear Hy. revert Hx.
    induction Hch as [a | a p b Hap Hpb IH]; intros Ha.
    + destruct (Hflat a Ha) as (r & Har & Hrr). exists r.
      assert (root_of (head d3) a r).
      { eapply root_of_step; [exact Har | by apply root_of_root]. }
      done.
    + eapply same_root_trans; [by apply Hstep |].
      apply IH. by destruct (Hdom _ _ Hap).
Qed.

(** ** The first loop and the caller's array *)

Lemma rd_outside {A : Type} (a : list A) i :
  ~ 0 <= i < Z.of_nat (length a) -> rd a i = None.
Proof.
  intros Hi. destruct (rd a i) as [v |] eqn:Hv; [| done].
  by apply rd_range in Hv.
Qed.

(** The first loop overwrites an array of [n] cells: the result does not
    depend on what the array held. *)
Lemma kd_fof_init_overwrites n h h' :
  Z.of_nat (length h) = n -> length h' = length h ->
  kd_fof_init n h = kd_fof_init n h'.
Proof.
  intros Hn Hlen.
  destruct (kd_fof_init_total n h) as [a Ha]; [lia |].
  destruct (kd_fof_init_total n h') as [b Hb]; [lia |].
  rewrite Ha, Hb. f_equal. apply rd_ext. intros i.
  apply kd_fof_init_spec in Ha as (Hla & Hina & Houta).
  apply kd_fof_init_spec in Hb as (Hlb & Hinb & Houtb).
  destruct (decide (0 <= i < n)) as [Hi | Hi].
  - by rewrite Hina, Hinb.
  - rewrite Houta, Houtb by done. rewrite !rd_outside; [done | lia | lia].
Qed.

(** ** A linking length that is not a number *)

Lemma leb_nan_r x : (x <=? nan)%float = false.
Proof.
  rewrite FloatAxioms.leb_spec. unfold SpecFloat.SFleb, SpecFloat.SFcompare.
  replace (FloatOps.Prim2SF nan) with SpecFloat.S754_nan by reflexivity.
  destruct (FloatOps.Prim2SF x) as [| | | [] ? ?]; reflexivity.
Qed.

(** When no node passes the size test, [connect] writes no parent and
    counts no node. *)
Lemma connect_no_small_node d node d' :
  (forall m, m ∈ subnodes node ->
     (kd_node_maxdist2 m <=? ll2 d)%float = false) ->
  connect d node 0 = Some d' ->
  head d' = head d /\ connected d' = connected d.
Proof.
  revert d d'.
  induction node as [info | info sd l IHl r IHr]; intros d d' Htest Hrun;
    simpl in Hrun;
    destruct (connect_node d _ 0) as [[d1 c] |] eqn:Hn; try discriminate;
    apply connect_node_spec in Hn as (Hc & _ & Hl1 & _ & Hc1 & _ & Hh);
    unfold node_flag in Hc; simpl in Hc, Hh;
    rewrite (Htest _ (subnodes_self _)) in Hc, Hh; subst c.
  - injection Hrun as <-. split; [done | lia].
  - destruct (connect d1 l 0) as [d2 |] eqn:H2; [| discriminate].
    pose proof (connect_fields _ _ _ _ H2) as (_ & Hl2 & _).
    apply IHl in H2 as [Hh2 Hc2].
    + apply IHr in Hrun as [Hh3 Hc3].
      * split; [congruence | lia].
      * intros m Hm. rewrite Hl2, Hl1. apply Htest. simpl. right.
        apply elem_of_app. by right.
    + intros m Hm. rewrite Hl1. apply Htest. simpl. right.
      apply elem_of_app. by left.
Qed.

(** The first loop on an array of fewer than [n] cells writes outside of
    it. *)
Lemma kd_fof_init_short n h :
  Z.of_nat (length h) < n -> kd_fof_init n h = None.
Proof.
  intros Hn. unfold kd_fof_init.
  rewrite (range_app 0 (Z.of_nat (length h)) n) by lia.
  rewrite for_each_app.
  destruct (kd_fof_init_total (Z.of_nat (length h)) h) as [h1 H1]; [lia |].
  unfold kd_fof_init in H1. rewrite H1.
  apply kd_fof_init_spec in H1 as (Hlen & _).
  rewrite range_cons by lia. simpl.
  destruct (wr h1 _ _) as [h2 |] eqn:Hw; [| done].
  apply wr_Some in Hw as [Hw _]. lia.
Qed.

(** ** The data set of four points *)

Lemma ex_root_wf : wf_node 4 ex_root.
Proof.
  unfold ex_root, ex_left, ex_right, ex_leaf0, ex_leaf1, ex_leaf2, ex_leaf3.
  cbn. lia.
Qed.

Lemma ex_points_NoDup : NoDup (node_points [0; 1; 2; 3] ex_root).
Proof. change (NoDup [0; 1; 2; 3]). compute_done. Qed.

Lemma ex_points p : p ∈ [0; 1; 2; 3] -> p = 0 \/ p = 1 \/ p = 2 \/ p = 3.
Proof.
  intros Hp. repeat (apply elem_of_cons in Hp as [-> | Hp]; [tauto |]).
  by apply elem_of_nil in Hp.
Qed.

Lemma ex_points_range p : p ∈ node_points [0; 1; 2; 3] ex_root -> 0 <= p < 4.
Proof.
  change (p ∈ [0; 1; 2; 3] -> 0 <= p < 4). intros Hp%ex_points. lia.
Qed.

Lemma ex_identity p : p ∈ [0; 1; 2; 3] -> rd [0; 1; 2; 3] p = Some p.
Proof. intros [-> | [-> | [-> | ->]]]%ex_points; reflexivity. Qed.

Lemma ex_wf_input : wf_input ex_tree ex_root ex_head.
Proof.
  split; [exact ex_root_wf |]. split; [exact ex_points_NoDup |].
  split; [exact ex_points_range | reflexivity].
Qed.

Lemma ex_subnodes m :
  m ∈ subnodes ex_root ->
  m = ex_root \/ m = ex_left \/ m = ex_leaf0 \/ m = ex_leaf1 \/
  m = ex_right \/ m = ex_leaf2 \/ m = ex_leaf3.
Proof.
  intros Hm.
  change (m ∈ [ex_root; ex_left; ex_leaf0; ex_leaf1; ex_right; ex_leaf2;
               ex_leaf3]) in Hm.
  repeat (apply elem_of_cons in Hm as [-> | Hm]; [tauto |]).
  by apply elem_of_nil in Hm.
Qed.




Lemma ex_root_pair_sound np i j :
  np ∈ ex_root_pair (ex_root, ex_root) ex_ll ->
  (i, j) ∈ ex_point_pairs np (ex_ll * ex_ll)%float 1 -> ex_near i j.
Proof.
  intros ->%list_elem_of_singleton.
  change ((i, j) ∈ [(0, 1); (1, 2)] -> ex_near i j).
  intros [[= -> ->] | [= -> ->]%list_elem_of_singleton]%elem_of_cons;
    unfold ex_near; lia.
Qed.




(** The run on the four points, with the root pair as only node pair,
    meets the conditions of [kd_fof_returns]. *)
Lemma ex_returns u fuel :
  exists d, kd_fof ex_root_pair ex_point_pairs u fuel true ex_tree ex_root
              ex_ll ex_head = Some (d, 0).
Proof.
  apply kd_fof_returns.
  - apply ex_wf_input.
  - intros m Hm.
    destruct (ex_subnodes m Hm) as [-> | [-> | [-> | [-> | [-> | [-> | ->]]]]]];
      vm_compute; intuition congruence.
  - compute_done.
  - intros np ->%list_elem_of_singleton. split; apply list_elem_of_here.
  - intros m Hm.
    destruct (ex_subnodes m Hm) as [-> | [-> | [-> | [-> | [-> | [-> | ->]]]]]];
      vm_compute; intuition congruence.
  - intros np i j Hnp Hij.
    destruct (ex_root_pair_sound np i j Hnp Hij) as (Hi & Hj & _).
    change (size ex_root) with 4. done.
  - intros np ->%list_elem_of_singleton Hroot. exfalso. revert Hroot.
    change (ex_root ∈ [ex_left; ex_leaf0; ex_leaf1; ex_leaf2; ex_leaf3] -> False).
    intros Hin.
    repeat (apply elem_of_cons in Hin as [[=] | Hin]).
    by apply elem_of_nil in Hin.
Qed.

(** * The claims *)

(** C7.  In the default mode, when the walk from [i] along the parent
    pointers ends at the root [r] after the cells [l], [splay] returns
    [r], every cell of [l] then points to [r], and every other cell is
    unchanged. *)
Theorem splay_full_compression (d : TraverseData) (i r : Z) (l : list Z) :
  path (head d) i l r ->
  exists d', splay false d i = Some (d', r) /\
    length (head d') = length (head d) /\
    (forall y, y ∈ l -> rd (head d') y = Some r) /\
    (forall y, y ∉ l -> rd (head d') y = rd (head d) y).
Proof.
  intros Hl. unfold splay.
  rewrite (splay_find_path _ _ _ _ _ 0 Hl (path_length _ _ _ _ Hl)).
  destruct (splay_link_path _ _ _ _ (length (head d)) Hl (path_length _ _ _ _ Hl))
    as (h1 & -> & Hlen & Hin & Hout).
  eexists. split; [reflexivity |]. by destruct (_ >? _).
Qed.

Lemma splay_full_compression_witness :
  path (head ex_chain) 3 [3; 2; 1] 0 /\
  exists d', splay false ex_chain 3 = Some (d', 0) /\
    length (head d') = length (head ex_chain) /\
    (forall y, y ∈ [3; 2; 1] -> rd (head d') y = Some 0) /\
    (forall y, y ∉ [3; 2; 1] -> rd (head d') y = rd (head ex_chain) y).
Proof.
  assert (H : path (head ex_chain) 3 [3; 2; 1] 0).
  { apply (path_step _ 3 2); [reflexivity | lia |].
    apply (path_step _ 2 1); [reflexivity | lia |].
    apply (path_step _ 1 0); [reflexivity | lia |].
    apply path_root. reflexivity. }
  split; [exact H | exact (splay_full_compression ex_chain 3 0 [3; 2; 1] H)].
Defined.

(** With [KD_FOF_UNSAFE] only the queried cell is relinked: on the chain
    3 -> 2 -> 1 -> 0 the cells 2 and 1 keep their parents. *)
Lemma splay_unsafe_example :
  (head ∘ fst) <$> splay true ex_chain 3 = Some [0; 0; 1; 0] /\
  (head ∘ fst) <$> splay false ex_chain 3 = Some [0; 0; 0; 0].
Proof. split; reflexivity. Qed.

(** C10 (as the code has it).  Whenever [kd_fof] returns, it returns [0],
    and it returns only when the buffer of flags was allocated: the
    result of [calloc] is not checked, and a run whose allocation fails
    does not return. *)
Theorem kd_fof_returns_zero
    (enum_node_pairs : KDNode * KDNode -> float -> list (KDNode * KDNode))
    (enum_point_pairs : KDNode * KDNode -> float -> Z -> list (Z * Z))
    (u : bool) (fuel : nat) (calloc_ok : bool) (tree : KDTree) (node : KDNode)
    (linking_length : float) (head0 : list Z) (d : TraverseData) (rt : Z) :
  kd_fof enum_node_pairs enum_point_pairs u fuel calloc_ok tree node
    linking_length head0 = Some (d, rt) ->
  rt = 0 /\ calloc_ok = true.
Proof.
  intros Hrun. split.
  - by apply kd_fof_inv in Hrun as (? & ? & ? & ? & ? & _ & _ & _ & _ & _ & ->).
  - by eapply kd_fof_needs_flags.
Qed.

Lemma kd_fof_returns_zero_witness :
  kd_fof ex_root_pair ex_point_pairs false 0 true ex_tree ex_root ex_ll ex_head
    = Some (ex_final, 0) /\ 0 = 0 /\ true = true.
Proof.
  assert (H : kd_fof ex_root_pair ex_point_pairs false 0 true ex_tree ex_root
                ex_ll ex_head = Some (ex_final, 0)) by reflexivity.
  split; [exact H |].
  exact (kd_fof_returns_zero ex_root_pair ex_point_pairs false 0 true ex_tree
           ex_root ex_ll ex_head ex_final 0 H).
Defined.

(** C10 (as stated) fails.  The run on the four points returns [0] when
    the buffer of flags is allocated; on the same arguments, when the
    allocation fails, it does not return [0]: it does not return. *)
Lemma kd_fof_alloc_failure_counterexample :
  kd_fof ex_root_pair ex_point_pairs false 0 true ex_tree ex_root ex_ll ex_head
    = Some (ex_final, 0) /\
  kd_fof ex_root_pair ex_point_pairs false 0 false ex_tree ex_root ex_ll ex_head
    = None.
Proof. split; reflexivity. Qed.

(** X22.  The result of [calloc] is not checked: when the buffer of flags
    cannot be allocated, the run does not return at all, as the first
    write of a flag goes through [NULL]. *)
Lemma kd_fof_calloc_failure
    (enum_node_pairs : KDNode * KDNode -> float -> list (KDNode * KDNode))
    (enum_point_pairs : KDNode * KDNode -> float -> Z -> list (Z * Z))
    (u : bool) (fuel : nat) (tree : KDTree) (node : KDNode)
    (linking_length : float) (head0 : list Z) :
  kd_fof enum_node_pairs enum_point_pairs u fuel false tree node
    linking_length head0 = None.
Proof.
  destruct (kd_fof _ _ _ _ _ _ _ _ _) as [[d rt] |] eqn:Hrun; [| done].
  apply kd_fof_inv in Hrun as (d0 & d1 & _ & _ & _ & H0 & H1 & _).
  unfold kd_fof_setup in H0. destruct (kd_fof_init _ _); [| discriminate].
  injection H0 as <-.
  destruct node; simpl in H1;
    destruct (connect_node _ _ _) as [[d2 c] |] eqn:Hn; try discriminate;
    by apply connect_node_spec in Hn as (_ & _ & _ & _ & _ & (? & ? & ? & _) & _).
Qed.

(** C2.  When both nodes of the pair are marked and at least one point
    pair under them is within the linking length, the node-pair visitor
    does not return: [_kd_fof_visit_edge_first] calls itself without
    end, whatever stack it is given.  No union is made and no stop signal
    reaches the enumeration. *)
Theorem check_nodes_connected_diverges
    (enum_point_pairs : KDNode * KDNode -> float -> Z -> list (Z * Z))
    (u : bool) (fuel : nat) (trav : TraverseData) (pair : KDEnumNodePair)
    (flags : list Z) (c0 c1 : Z) (e : Z * Z) (rest : list (Z * Z)) :
  node_connected trav = Some flags ->
  rd flags (index (fst (nodes pair))) = Some c0 -> c0 <> 0 ->
  rd flags (index (snd (nodes pair))) = Some c1 -> c1 <> 0 ->
  enum_point_pairs (nodes pair) (ll2 trav) 1 = e :: rest ->
  _kd_fof_check_nodes enum_point_pairs u fuel trav pair = None.
Proof.
  intros Hf H0 Hc0 H1 Hc1 He. unfold _kd_fof_check_nodes, kd_enum_check.
  rewrite Hf, H0. destruct (Z.eqb_spec c0 0) as [| _]; [done |].
  rewrite H1. destruct (Z.eqb_spec c1 0) as [| _]; [done |]. simpl.
  rewrite He. destruct e as [i j]. simpl.
  by rewrite visit_edge_first_diverges.
Qed.

Lemma check_nodes_connected_diverges_witness :
  node_connected ex_prepassed = Some [0; 1; 1; 1; 0; 1; 1] /\
  rd [0; 1; 1; 1; 0; 1; 1] (index ex_leaf0) = Some 1 /\
  rd [0; 1; 1; 1; 0; 1; 1] (index ex_leaf1) = Some 1 /\ 1 <> 0 /\
  ex_point_pairs (ex_leaf0, ex_leaf1) (ll2 ex_prepassed) 1 = [(0, 1)] /\
  _kd_fof_check_nodes ex_point_pairs false 1000 ex_prepassed
    (mkKDEnumNodePair (ex_leaf0, ex_leaf1)) = None.
Proof.
  assert (Hne : 1 <> 0) by lia.
  split; [reflexivity |]. split; [reflexivity |]. split; [reflexivity |].
  split; [exact Hne |]. split; [reflexivity |].
  exact (check_nodes_connected_diverges ex_point_pairs false 1000 ex_prepassed
           (mkKDEnumNodePair (ex_leaf0, ex_leaf1)) [0; 1; 1; 1; 0; 1; 1] 1 1
           (0, 1) [] eq_refl eq_refl Hne eq_refl Hne eq_refl).
Defined.

(** The same on a whole run: with an enumeration that hands over the
    pairs of leaves, the run on the four points never returns. *)
Lemma kd_fof_leaf_pairs_diverges (u : bool) (fuel : nat) :
  kd_fof_prepass true ex_tree ex_root ex_ll ex_head = Some ex_prepassed /\
  kd_fof ex_leaf_pairs ex_point_pairs u fuel true ex_tree ex_root ex_ll ex_head
    = None.
Proof.
  split; [reflexivity |].
  unfold kd_fof, kd_fof_traverse.
  change (kd_fof_prepass true ex_tree ex_root ex_ll ex_head)
    with (Some ex_prepassed).
  unfold kd_enum_always_open, ex_leaf_pairs. simpl for_each.
  assert (Hdiv : _kd_fof_check_nodes ex_point_pairs u fuel ex_prepassed
                   (mkKDEnumNodePair (ex_leaf0, ex_leaf1)) = None).
  { unfold _kd_fof_check_nodes, kd_enum_check. simpl.
    by rewrite visit_edge_first_diverges. }
  by rewrite Hdiv.
Qed.

(** C5.  After a run, every one of the first [size node] cells of [head]
    points to a cell that is its own parent, and [splay] on it, in either
    mode, returns that parent and leaves [head] as it is. *)
Theorem kd_fof_labels_flat
    (enum_node_pairs : KDNode * KDNode -> float -> list (KDNode * KDNode))
    (enum_point_pairs : KDNode * KDNode -> float -> Z -> list (Z * Z))
    (u : bool) (fuel : nat) (calloc_ok : bool) (tree : KDTree) (node : KDNode)
    (linking_length : float) (head0 : list Z) (d : TraverseData) (rt : Z)
    (i : Z) :
  kd_fof enum_node_pairs enum_point_pairs u fuel calloc_ok tree node
    linking_length head0 = Some (d, rt) ->
  0 <= i < size node ->
  exists r, rd (head d) i = Some r /\ rd (head d) r = Some r /\
    forall u', exists d', splay u' d i = Some (d', r) /\ head d' = head d.
Proof.
  intros Hrun Hi. destruct (kd_fof_flat _ _ _ _ _ _ _ _ _ _ _ _ Hrun Hi)
    as (r & Hir & Hr).
  exists r. split; [done |]. split; [done |]. intros u'. by apply splay_flat.
Qed.

Lemma kd_fof_labels_flat_witness :
  kd_fof ex_root_pair ex_point_pairs false 0 true ex_tree ex_root ex_ll ex_head
    = Some (ex_final, 0) /\ 0 <= 2 < size ex_root /\
  exists r, rd (head ex_final) 2 = Some r /\ rd (head ex_final) r = Some r /\
    forall u', exists d', splay u' ex_final 2 = Some (d', r) /\
      head d' = head ex_final.
Proof.
  assert (Hi : 0 <= 2 < size ex_root) by (change (0 <= 2 < 4); lia).
  assert (H : kd_fof ex_root_pair ex_point_pairs false 0 true ex_tree ex_root
                ex_ll ex_head = Some (ex_final, 0)) by reflexivity.
  split; [exact H |]. split; [exact Hi |].
  exact (kd_fof_labels_flat ex_root_pair ex_point_pairs false 0 true ex_tree
           ex_root ex_ll ex_head ex_final 0 2 H Hi).
Defined.




(** C8.  Every operation of a run that returns takes a parent array in
    which each walk ends at a root to such an array. *)
Theorem forest_preserved
    (enum_node_pairs : KDNode * KDNode -> float -> list (KDNode * KDNode))
    (enum_point_pairs : KDNode * KDNode -> float -> Z -> list (Z * Z))
    (u : bool) (fuel : nat) (op : run_op) (d d' : TraverseData) :
  forest (head d) -> run_op_pre op d ->
  run_op_exec enum_node_pairs enum_point_pairs u fuel op d = Some d' ->
  forest (head d').
Proof.
  intros Hf Hpre Hrun. destruct op as [nd pc | i | e | np | nds maxr | n];
    simpl in Hrun, Hpre.
  - destruct (decide (pc = 0)) as [-> | Hpc].
    + destruct (Hpre eq_refl) as (Hwf & Hnd & Hroots).
      pose proof (connect_fields _ _ _ _ Hrun) as (_ & _ & _ & Hlen & _).
      destruct (connect_marks _ _ _ Hwf Hnd Hroots Hrun) as (Hout & Hin & _).
      eapply relink_forest; [exact Hlen | exact Hroots | exact Hout | | exact Hf].
      intros p Hp. destruct (Hin p Hp) as (q & _ & Hpq & Hqq). by exists q.
    + by rewrite (connect_inherited _ _ _ _ Hpc Hrun).
  - destruct (splay u d i) as [[d1 r] |] eqn:Hs; [| discriminate].
    injection Hrun as <-. by eapply splay_forest.
  - destruct (_kd_fof_visit_edge u d e) as [[d1 r] |] eqn:Hv; [| discriminate].
    injection Hrun as <-. by eapply visit_edge_forest.
  - destruct (_kd_fof_check_nodes _ _ _ _ _) as [[d1 r] |] eqn:Hc; [| discriminate].
    injection Hrun as <-. apply check_nodes_spec in Hc as (_ & rt' & He).
    revert He. apply (enum_edges_inv (fun d => forest (head d))); [| done].
    intros d2 i j d3 rt3 _ Hf2 Hv. by eapply visit_edge_forest.
  - destruct (kd_enum_always_open _ _ _ _ _) as [[d1 r] |] eqn:Ho; [| discriminate].
    injection Hrun as <-.
    apply (always_open_inv _ _ (fun d => forest (head d))) in Ho as [Hres _];
      [done | | done].
    intros d2 np i j d3 rt3 _ _ Hf2 Hv. by eapply visit_edge_forest.
  - apply kd_fof_finalize_spec in Hrun as (Hc & _). by eapply compressed_forest.
Qed.

Lemma forest_preserved_witness :
  forest (head ex_setup) /\ run_op_pre (OpConnect ex_root 0) ex_setup /\
  run_op_exec ex_root_pair ex_point_pairs false 0 (OpConnect ex_root 0) ex_setup
    = Some ex_prepassed /\
  forest (head ex_prepassed).
Proof.
  assert (Hf : forest (head ex_setup)).
  { intros x Hx. exists x. apply root_of_root. apply ex_identity.
    change (0 <= x < 4) in Hx.
    assert (Hc : x = 0 \/ x = 1 \/ x = 2 \/ x = 3) by lia.
    destruct Hc as [-> | [-> | [-> | ->]]]; compute_done. }
  assert (Hpre : run_op_pre (OpConnect ex_root 0) ex_setup).
  { intros _. split; [exact ex_root_wf |].
    split; [exact ex_points_NoDup | exact ex_identity]. }
  assert (Hrun : run_op_exec ex_root_pair ex_point_pairs false 0
                   (OpConnect ex_root 0) ex_setup = Some ex_prepassed)
    by reflexivity.
  split; [exact Hf |]. split; [exact Hpre |]. split; [exact Hrun |].
  exact (forest_preserved ex_root_pair ex_point_pairs false 0
           (OpConnect ex_root 0) ex_setup ex_prepassed Hf Hpre Hrun).
Defined.

(** The first call of [connect] in a run is on such a state: after the
    first loop of [kd_fof], every cell is its own parent. *)
Lemma kd_fof_setup_forest (calloc_ok : bool) (tree : KDTree) (node : KDNode)
    (linking_length : float) (head0 : list Z) (d0 : TraverseData) :
  wf_input tree node head0 ->
  kd_fof_setup calloc_ok tree node linking_length head0 = Some d0 ->
  forest (head d0) /\ run_op_pre (OpConnect node 0) d0.
Proof.
  intros (Hwf & Hnd & Hpts & Hlen) (Hind & _ & _ & _ & Hlen0 & Hin & _)%kd_fof_setup_spec.
  split.
  - intros x Hx. exists x. apply root_of_root, Hin. lia.
  - intros _. rewrite Hind. split; [done |]. split; [done |].
    intros p Hp. by apply Hin, Hpts.
Qed.

(** C9.  A run with the mode [KD_FOF_UNSAFE] and a run without it, on
    the same arguments and with the same enumeration, both return or both
    do not; when they return, they give every point the same label, and
    so the same partition. *)
Theorem unsafe_mode_same_labels
    (enum_node_pairs : KDNode * KDNode -> float -> list (KDNode * KDNode))
    (enum_point_pairs : KDNode * KDNode -> float -> Z -> list (Z * Z))
    (fuel : nat) (calloc_ok : bool) (tree : KDTree) (node : KDNode)
    (linking_length : float) (head0 : list Z) :
  both (fun a b =>
          snd a = snd b /\
          (forall i, 0 <= i < size node ->
             rd (head (fst a)) i = rd (head (fst b)) i) /\
          (forall i j, 0 <= i < size node -> 0 <= j < size node ->
             rd (head (fst a)) i = rd (head (fst a)) j <->
             rd (head (fst b)) i = rd (head (fst b)) j))
    (kd_fof enum_node_pairs enum_point_pairs true fuel calloc_ok tree node
       linking_length head0)
    (kd_fof enum_node_pairs enum_point_pairs false fuel calloc_ok tree node
       linking_length head0).
Proof.
  unfold kd_fof, kd_fof_traverse.
  destruct (kd_fof_prepass _ _ _ _ _) as [d1 |]; [| done].
  pose proof (always_open_both enum_node_pairs enum_point_pairs true false fuel
                (node, node) linking_length d1 d1 (same_roots_refl d1)) as Ho.
  destruct (kd_enum_always_open _ _ _ (_kd_fof_check_nodes _ true _) _)
    as [[a ra] |],
    (kd_enum_always_open _ _ _ (_kd_fof_check_nodes _ false _) _)
    as [[b rb] |]; simpl in Ho; try done.
  destruct Ho as [_ Hs].
  pose proof (finalize_both true false (size node) a b Hs) as Hf.
  destruct (kd_fof_finalize true _ a) as [a3 |] eqn:Fa,
           (kd_fof_finalize false _ b) as [b3 |] eqn:Fb; simpl in Hf; try done.
  simpl. split; [done |].
  apply kd_fof_finalize_spec in Fa as (_ & _ & _ & Flat_a).
  apply kd_fof_finalize_spec in Fb as (_ & _ & _ & Flat_b).
  assert (Hlabel : forall i, 0 <= i < size node -> rd (head a3) i = rd (head b3) i).
  { intros i Hi.
    destruct (Flat_a i Hi) as (ra3 & Hia & Hra), (Flat_b i Hi) as (rb3 & Hib & Hrb).
    rewrite Hia, Hib. f_equal.
    assert (Ra : root_of (head a3) i ra3).
    { eapply root_of_step; [exact Hia | by apply root_of_root]. }
    assert (Rb : root_of (head b3) i rb3).
    { eapply root_of_step; [exact Hib | by apply root_of_root]. }
    destruct Hf as (_ & _ & _ & _ & Hroots).
    apply Hroots in Ra. by eapply root_of_det. }
  split; [exact Hlabel |].
  intros i j Hi Hj. by rewrite !Hlabel.
Qed.

(** C6.  On a well-formed tree, two points under a node that the prepass
    marks have the same root when the prepass ends, every later call of
    the edge visitor keeps them under one root, and the run gives them
    the same label. *)
Theorem marked_node_one_component
    (enum_node_pairs : KDNode * KDNode -> float -> list (KDNode * KDNode))
    (enum_point_pairs : KDNode * KDNode -> float -> Z -> list (Z * Z))
    (u : bool) (fuel : nat) (calloc_ok : bool) (tree : KDTree) (node : KDNode)
    (linking_length : float) (head0 : list Z) (d : TraverseData) (rt : Z)
    (m : KDNode) (p1 p2 : Z) :
  wf_input tree node head0 ->
  kd_fof enum_node_pairs enum_point_pairs u fuel calloc_ok tree node
    linking_length head0 = Some (d, rt) ->
  m ∈ connected_nodes (linking_length * linking_length)%float node 0 ->
  p1 ∈ node_points (tree_ind tree) m -> p2 ∈ node_points (tree_ind tree) m ->
  (exists d1, kd_fof_prepass calloc_ok tree node linking_length head0 = Some d1 /\
              same_root (head d1) p1 p2) /\
  (forall d2 pair d3 rt3,
     same_root (head d2) p1 p2 ->
     _kd_fof_visit_edge u d2 pair = Some (d3, rt3) ->
     same_root (head d3) p1 p2) /\
  rd (head d) p1 = rd (head d) p2.
Proof.
  intros (Hwf & Hnd & Hpts & Hlen) Hrun Hm Hp1 Hp2.
  pose proof Hrun as (d0 & d1 & d2 & d3 & rt2 & H0 & H1 & H2 & H3 & _)%kd_fof_inv.
  pose proof (kd_fof_setup_spec _ _ _ _ _ _ H0) as (Hind & Hll & _ & _ & _ & Hid & _).
  rewrite <- Hind in *. rewrite <- Hll in Hm.
  assert (Hsub : m ∈ subnodes node) by (by eapply connected_nodes_subnodes).
  assert (Hn1 : p1 ∈ node_points (ind d0) node) by (by eapply subnodes_points).
  assert (Hn2 : p2 ∈ node_points (ind d0) node) by (by eapply subnodes_points).
  destruct (connect_marks d0 node d1) as (_ & Hin & Hmark); [done | done | | done |].
  { intros p Hp. by apply Hid, Hpts. }
  assert (Hpre : kd_fof_prepass calloc_ok tree node linking_length head0 = Some d1).
  { unfold kd_fof_prepass. by rewrite H0. }
  assert (Hsame : same_root (head d1) p1 p2).
  { apply flat_label.
    - destruct (Hin p1 Hn1) as (q & _ & ? & ?). by exists q.
    - destruct (Hin p2 Hn2) as (q & _ & ? & ?). by exists q.
    - by apply Hmark with m. }
  split; [by exists d1 |]. split.
  - intros d4 pair d5 rt5 Hs Hv. by eapply visit_edge_same_root.
  - apply flat_label.
    + eapply kd_fof_flat; [exact Hrun | by apply Hpts].
    + eapply kd_fof_flat; [exact Hrun | by apply Hpts].
    + eapply (kd_fof_after_prepass _ _ _ _ _ _ _ _ _
                (fun h => same_root h p1 p2)); [| | exact Hpre | exact Hsame | exact Hrun].
      * intros h h' Hc. by apply compressed_same_root.
      * intros d4 np i j d5 rt5 _ _ Hs Hv. by eapply visit_edge_same_root.
Qed.

Lemma marked_node_one_component_witness :
  kd_fof ex_root_pair ex_point_pairs false 0 true ex_tree ex_root ex_ll ex_head
    = Some (ex_final, 0) /\
  ex_left ∈ connected_nodes (ex_ll * ex_ll)%float ex_root 0 /\
  rd (head ex_final) 0 = rd (head ex_final) 1.
Proof.
  assert (Hm : ex_left ∈ connected_nodes (ex_ll * ex_ll)%float ex_root 0).
  { change (ex_left ∈ [ex_left; ex_leaf0; ex_leaf1; ex_leaf2; ex_leaf3]).
    apply list_elem_of_here. }
  assert (H0 : 0 ∈ node_points (tree_ind ex_tree) ex_left).
  { change (0 ∈ [0; 1]). apply list_elem_of_here. }
  assert (H1 : 1 ∈ node_points (tree_ind ex_tree) ex_left).
  { change (1 ∈ [0; 1]). apply list_elem_of_further, list_elem_of_here. }
  assert (H : kd_fof ex_root_pair ex_point_pairs false 0 true ex_tree ex_root
                ex_ll ex_head = Some (ex_final, 0)) by reflexivity.
  split; [exact H |]. split; [exact Hm |].
  exact (proj2 (proj2 (marked_node_one_component ex_root_pair ex_point_pairs
                         false 0 true ex_tree ex_root ex_ll ex_head ex_final 0
                         ex_left 0 1 ex_wf_input H Hm H0 H1))).
Defined.






(** * Further properties of the code *)

(** ** The diagnostics *)

(** X1.  The first value that [kd_fof_get_last_traverse_info] gives
    after a run, the counter [visited], is the number of point pairs
    that the enumeration handed to the edge call-back during the run. *)
Theorem visited_counts_delivered_edges
    (enum_node_pairs : KDNode * KDNode -> float -> list (KDNode * KDNode))
    (enum_point_pairs : KDNode * KDNode -> float -> Z -> list (Z * Z))
    (u : bool) (fuel : nat) (calloc_ok : bool) (tree : KDTree) (node : KDNode)
    (linking_length : float) (head0 : list Z) (d : TraverseData)
    (rt v c m n t : Z) :
  kd_fof enum_node_pairs enum_point_pairs u fuel calloc_ok tree node
    linking_length head0 = Some (d, rt) ->
  kd_fof_get_last_traverse_info d = (v, c, m, n, t) ->
  v = edges_delivered enum_point_pairs (linking_length * linking_length)%float
        (enum_node_pairs (node, node) linking_length).
Proof.
  intros (Hv & _)%kd_fof_counters [= <- _ _ _ _]. exact Hv.
Qed.

Lemma visited_counts_delivered_edges_witness :
  kd_fof ex_root_pair ex_point_pairs false 0 true ex_tree ex_root ex_ll ex_head
    = Some (ex_final, 0) /\
  kd_fof_get_last_traverse_info ex_final = (2, 5, 1, 8, 4) /\
  2 = edges_delivered ex_point_pairs (ex_ll * ex_ll)%float
        (ex_root_pair (ex_root, ex_root) ex_ll).
Proof.
  assert (H : kd_fof ex_root_pair ex_point_pairs false 0 true ex_tree ex_root
                ex_ll ex_head = Some (ex_final, 0)) by reflexivity.
  split; [exact H |]. split; [reflexivity |].
  exact (visited_counts_delivered_edges ex_root_pair ex_point_pairs false 0 true
           ex_tree ex_root ex_ll ex_head ex_final 0 2 5 1 8 4 H eq_refl).
Defined.

(** X2.  Every visited edge calls [splay] twice and the last loop calls
    it once per point: after a run, the counter [nsplay] is twice the
    counter [visited] plus [node->size]. *)
Theorem nsplay_counts_visits_and_points
    (enum_node_pairs : KDNode * KDNode -> float -> list (KDNode * KDNode))
    (enum_point_pairs : KDNode * KDNode -> float -> Z -> list (Z * Z))
    (u : bool) (fuel : nat) (calloc_ok : bool) (tree : KDTree) (node : KDNode)
    (linking_length : float) (head0 : list Z) (d : TraverseData)
    (rt v c m n t : Z) :
  kd_fof enum_node_pairs enum_point_pairs u fuel calloc_ok tree node
    linking_length head0 = Some (d, rt) ->
  kd_fof_get_last_traverse_info d = (v, c, m, n, t) ->
  n = 2 * v + Z.max 0 (size node).
Proof.
  intros (_ & Hn & _)%kd_fof_counters [= <- _ _ <- _]. exact Hn.
Qed.

Lemma nsplay_counts_visits_and_points_witness :
  kd_fof ex_root_pair ex_point_pairs false 0 true ex_tree ex_root ex_ll ex_head
    = Some (ex_final, 0) /\
  kd_fof_get_last_traverse_info ex_final = (2, 5, 1, 8, 4) /\
  8 = 2 * 2 + Z.max 0 (size ex_root).
Proof.
  assert (H : kd_fof ex_root_pair ex_point_pairs false 0 true ex_tree ex_root
                ex_ll ex_head = Some (ex_final, 0)) by reflexivity.
  split; [exact H |]. split; [reflexivity |].
  exact (nsplay_counts_visits_and_points ex_root_pair ex_point_pairs false 0 true
           ex_tree ex_root ex_ll ex_head ex_final 0 2 5 1 8 4 H eq_refl).
Defined.

(** X3.  After a run, the depth counters agree with each other: the
    deepest walk [maxdepth] is at most the sum [totaldepth] of all walks,
    the sum is at most [nsplay] walks of the deepest length, and no walk
    is as long as the array [head]. *)
Theorem depth_counters_bounds
    (enum_node_pairs : KDNode * KDNode -> float -> list (KDNode * KDNode))
    (enum_point_pairs : KDNode * KDNode -> float -> Z -> list (Z * Z))
    (u : bool) (fuel : nat) (calloc_ok : bool) (tree : KDTree) (node : KDNode)
    (linking_length : float) (head0 : list Z) (d : TraverseData)
    (rt v c m n t : Z) :
  kd_fof enum_node_pairs enum_point_pairs u fuel calloc_ok tree node
    linking_length head0 = Some (d, rt) ->
  kd_fof_get_last_traverse_info d = (v, c, m, n, t) ->
  0 <= m <= t /\ t <= m * n /\ m < Z.max 1 (Z.of_nat (length head0)).
Proof.
  intros (_ & _ & (Hm & Ht & _ & Hlen) & <-)%kd_fof_counters [= _ _ <- <- <-].
  done.
Qed.

Lemma depth_counters_bounds_witness :
  kd_fof ex_root_pair ex_point_pairs false 0 true ex_tree ex_root ex_ll ex_head
    = Some (ex_final, 0) /\
  kd_fof_get_last_traverse_info ex_final = (2, 5, 1, 8, 4) /\
  0 <= 1 <= 4 /\ 4 <= 1 * 8 /\ 1 < Z.max 1 (Z.of_nat (length ex_head)).
Proof.
  assert (H : kd_fof ex_root_pair ex_point_pairs false 0 true ex_tree ex_root
                ex_ll ex_head = Some (ex_final, 0)) by reflexivity.
  split; [exact H |]. split; [reflexivity |].
  exact (depth_counters_bounds ex_root_pair ex_point_pairs false 0 true
           ex_tree ex_root ex_ll ex_head ex_final 0 2 5 1 8 4 H eq_refl).
Defined.

(** ** [splay] *)

(** X4.  In either mode, [splay(d, i)] returns [r] exactly when the walk
    from [i] along the parent pointers reaches, inside the array, the
    cell [r] that is its own parent.  A walk that leaves the array or
    runs into a cycle gives no result. *)
Theorem splay_returns_iff (u : bool) (d : TraverseData) (i r : Z) :
  (exists d', splay u d i = Some (d', r)) <-> root_of (head d) i r.
Proof.
  split.
  - intros [d' Hrun]. by apply splay_spec in Hrun as (Hr & _).
  - apply splay_total.
Qed.

(** X5.  With [KD_FOF_UNSAFE], when the walk from [i] ends at the root
    [r], [splay] returns [r] and relinks the cell [i] to [r]; every
    other cell, the cells walked after [i] included, keeps its parent. *)
Theorem splay_unsafe_relinks_one (d : TraverseData) (i r : Z) (l : list Z) :
  path (head d) i l r ->
  exists d', splay true d i = Some (d', r) /\
    length (head d') = length (head d) /\
    rd (head d') i = Some r /\
    (forall y, y <> i -> rd (head d') y = rd (head d) y).
Proof.
  intros Hl. unfold splay.
  rewrite (splay_find_path _ _ _ _ _ 0 Hl (path_length _ _ _ _ Hl)).
  destruct (wr_in_range (head d) i r (path_start_range _ _ _ _ Hl)) as [h1 Hw].
  rewrite Hw. eexists. split; [reflexivity |].
  assert (Hres : length h1 = length (head d) /\ rd h1 i = Some r /\
                 forall y, y <> i -> rd h1 y = rd (head d) y).
  { split; [by eapply wr_length |]. split; [by eapply rd_wr_eq |].
    intros y Hy. by eapply rd_wr_ne. }
  by destruct (_ >? _).
Qed.

Lemma splay_unsafe_relinks_one_witness :
  path (head ex_chain) 3 [3; 2; 1] 0 /\
  exists d', splay true ex_chain 3 = Some (d', 0) /\
    length (head d') = length (head ex_chain) /\
    rd (head d') 3 = Some 0 /\
    (forall y, y <> 3 -> rd (head d') y = rd (head ex_chain) y).
Proof.
  assert (H : path (head ex_chain) 3 [3; 2; 1] 0).
  { apply (path_step _ 3 2); [reflexivity | lia |].
    apply (path_step _ 2 1); [reflexivity | lia |].
    apply (path_step _ 1 0); [reflexivity | lia |].
    apply path_root. reflexivity. }
  split; [exact H | exact (splay_unsafe_relinks_one ex_chain 3 0 [3; 2; 1] H)].
Defined.

(** X6.  In either mode, a call of [splay] whose walk from [i] passes
    the cells [l] before the root adds one to [nsplay] and the number of
    cells of [l] to [totaldepth], and raises [maxdepth] to that number
    when it was lower. *)
Theorem splay_counts_walk (u : bool) (d : TraverseData) (i r : Z) (l : list Z) :
  path (head d) i l r ->
  exists d', splay u d i = Some (d', r) /\
    nsplay d' = nsplay d + 1 /\
    totaldepth d' = totaldepth d + Z.of_nat (length l) /\
    maxdepth d' = Z.max (maxdepth d) (Z.of_nat (length l)).
Proof.
  intros Hl. destruct (splay_total u d i r) as [d' Hrun]; [by exists l |].
  exists d'. split; [done |].
  apply splay_counters in Hrun as (l' & Hl' & Hn & Ht & Hm & _).
  destruct (path_det _ _ _ _ _ _ Hl Hl') as [-> _]. done.
Qed.

Lemma splay_counts_walk_witness :
  path (head ex_chain) 3 [3; 2; 1] 0 /\
  exists d', splay true ex_chain 3 = Some (d', 0) /\
    nsplay d' = nsplay ex_chain + 1 /\
    totaldepth d' = totaldepth ex_chain + Z.of_nat (length [3; 2; 1]) /\
    maxdepth d' = Z.max (maxdepth ex_chain) (Z.of_nat (length [3; 2; 1])).
Proof.
  assert (H : path (head ex_chain) 3 [3; 2; 1] 0).
  { apply (path_step _ 3 2); [reflexivity | lia |].
    apply (path_step _ 2 1); [reflexivity | lia |].
    apply (path_step _ 1 0); [reflexivity | lia |].
    apply path_root. reflexivity. }
  split; [exact H | exact (splay_counts_walk true ex_chain 3 0 [3; 2; 1] H)].
Defined.

(** X7.  In either mode, a second call of [splay] on the same cell, right
    after the first, returns the same root, writes no cell with a new
    value and walks at most one step. *)
Theorem splay_again_is_short (u : bool) (d d1 : TraverseData) (i r : Z) :
  splay u d i = Some (d1, r) ->
  exists d2, splay u d1 i = Some (d2, r) /\ head d2 = head d1 /\
    totaldepth d1 <= totaldepth d2 <= totaldepth d1 + 1.
Proof.
  intros (Hroot & Hc & Hir & _)%splay_spec.
  assert (Hrr : rd (head d1) r = Some r).
  { eapply compressed_root; [exact Hc | by eapply root_of_is_root]. }
  destruct (splay_flat u d1 i r Hir Hrr) as (d2 & Hrun & Hh).
  exists d2. split; [done |]. split; [done |].
  apply splay_counters in Hrun as (l & Hl & _ & -> & _).
  destruct (decide (i = r)) as [-> | Hne].
  - destruct (path_det _ _ _ _ _ _ Hl (path_root _ _ Hrr)) as [-> _]. simpl. lia.
  - destruct (path_det _ _ _ _ _ _ Hl
                (path_step _ _ _ _ _ Hir (not_eq_sym Hne) (path_root _ _ Hrr)))
      as [-> _].
    simpl. lia.
Qed.

Lemma splay_again_is_short_witness :
  exists d1, splay false ex_chain 3 = Some (d1, 0) /\
  exists d2, splay false d1 3 = Some (d2, 0) /\ head d2 = head d1 /\
    totaldepth d1 <= totaldepth d2 <= totaldepth d1 + 1.
Proof.
  assert (H : splay false ex_chain 3 =
              Some (mkTraverseData [0; 0; 0; 0] [0; 1; 2; 3] None 1%float 1%float
                      0 0 0 3 1 3, 0)) by reflexivity.
  exists (mkTraverseData [0; 0; 0; 0] [0; 1; 2; 3] None 1%float 1%float
            0 0 0 3 1 3).
  split; [exact H |].
  exact (splay_again_is_short false ex_chain _ 3 0 H).
Defined.

(** ** The edge visitor *)

(** X8.  A call of [_kd_fof_visit_edge] on the pair [(i, j)] links the
    root of [j] under the root of [i]: every cell whose root was the root
    of [j] now has the root of [i] as root, and every other cell keeps
    its root. *)
Theorem visit_edge_merges_roots (u : bool) (d d' : TraverseData)
    (pair : KDEnumPair) (rt : Z) :
  _kd_fof_visit_edge u d pair = Some (d', rt) ->
  exists ri rj,
    root_of (head d) (pair_i pair) ri /\ root_of (head d) (pair_j pair) rj /\
    forall x r', root_of (head d') x r' <->
                 exists r, root_of (head d) x r /\ r' = merged ri rj r.
Proof.
  intros (_ & _ & _ & h1 & ri & rj & Hc & Hi & Hj & Hw)%visit_edge_spec.
  pose proof (root_of_is_root _ _ _ Hi) as Hri.
  pose proof (root_of_is_root _ _ _ Hj) as Hrj.
  exists ri, rj.
  split; [by apply (compressed_root_of _ _ _ _ Hc) |].
  split; [by apply (compressed_root_of _ _ _ _ Hc) |].
  intros x r'. split.
  - intros Hx.
    destruct (union_root_of_2 _ _ _ _ Hri Hrj Hw _ _ Hx) as (r & Hr & ->).
    exists r. split; [by apply (compressed_root_of _ _ _ _ Hc) | done].
  - intros (r & Hr & ->).
    apply (union_root_of_1 _ _ _ _ Hri Hrj Hw).
    by apply (compressed_root_of _ _ _ _ Hc).
Qed.

Lemma visit_edge_merges_roots_witness :
  exists d', _kd_fof_visit_edge false ex_prepassed (mkKDEnumPair 1 2)
               = Some (d', 0) /\
  exists ri rj,
    root_of (head ex_prepassed) 1 ri /\ root_of (head ex_prepassed) 2 rj /\
    forall x r', root_of (head d') x r' <->
                 exists r, root_of (head ex_prepassed) x r /\ r' = merged ri rj r.
Proof.
  assert (H : _kd_fof_visit_edge false ex_prepassed (mkKDEnumPair 1 2) =
              Some (mkTraverseData [0; 0; 0; 3] [0; 1; 2; 3]
                      (Some [0; 1; 1; 1; 0; 1; 1]) 1.5%float 2.25%float
                      1 5 0 1 2 1, 0)) by reflexivity.
  exists (mkTraverseData [0; 0; 0; 3] [0; 1; 2; 3] (Some [0; 1; 1; 1; 0; 1; 1])
            1.5%float 2.25%float 1 5 0 1 2 1).
  split; [exact H |].
  exact (visit_edge_merges_roots false ex_prepassed _ (mkKDEnumPair 1 2) 0 H).
Defined.

(** X9.  A call of [_kd_fof_visit_edge] on two cells that already have
    the same root changes the root of no cell (the comment in the code:
    this is also correct if [root_j == root_i]). *)
Theorem visit_edge_same_component (u : bool) (d d' : TraverseData)
    (pair : KDEnumPair) (rt : Z) :
  _kd_fof_visit_edge u d pair = Some (d', rt) ->
  same_root (head d) (pair_i pair) (pair_j pair) ->
  forall x r, root_of (head d') x r <-> root_of (head d) x r.
Proof.
  intros (_ & _ & _ & h1 & ri & rj & Hc & Hi & Hj & Hw)%visit_edge_spec
         (r0 & Hi0 & Hj0) x r.
  apply (compressed_root_of _ _ _ _ Hc) in Hi, Hj.
  assert (ri = r0) by (by eapply root_of_det). subst r0.
  assert (rj = ri) by (by eapply root_of_det). subst rj.
  apply (compressed_root_of _ _ _ _ Hc) in Hi.
  pose proof (root_of_is_root _ _ _ Hi) as Hri.
  assert (Hm : forall r1, merged ri ri r1 = r1).
  { intros r1. unfold merged. by case_decide. }
  rewrite <- (compressed_root_of _ _ _ _ Hc). split.
  - intros Hx.
    destruct (union_root_of_2 _ _ _ _ Hri Hri Hw _ _ Hx) as (r1 & Hr1 & ->).
    by rewrite Hm.
  - intros Hx. rewrite <- (Hm r).
    by apply (union_root_of_1 _ _ _ _ Hri Hri Hw).
Qed.

Lemma visit_edge_same_component_witness :
  exists d', _kd_fof_visit_edge false ex_prepassed (mkKDEnumPair 0 1)
               = Some (d', 0) /\
  same_root (head ex_prepassed) 0 1 /\
  forall x r, root_of (head d') x r <-> root_of (head ex_prepassed) x r.
Proof.
  assert (H0 : rd (head ex_prepassed) 0 = Some 0) by reflexivity.
  assert (H1 : rd (head ex_prepassed) 1 = Some 0) by reflexivity.
  assert (Hs : same_root (head ex_prepassed) 0 1).
  { exists 0. split; [exact (root_of_root _ _ H0) |].
    exact (root_of_step _ _ _ _ H1 (root_of_root _ _ H0)). }
  assert (H : _kd_fof_visit_edge false ex_prepassed (mkKDEnumPair 0 1) =
              Some (mkTraverseData [0; 0; 2; 3] [0; 1; 2; 3]
                      (Some [0; 1; 1; 1; 0; 1; 1]) 1.5%float 2.25%float
                      1 5 0 1 2 1, 0)) by reflexivity.
  exists (mkTraverseData [0; 0; 2; 3] [0; 1; 2; 3] (Some [0; 1; 1; 1; 0; 1; 1])
            1.5%float 2.25%float 1 5 0 1 2 1).
  split; [exact H |]. split; [exact Hs |].
  exact (visit_edge_same_component false ex_prepassed _ (mkKDEnumPair 0 1) 0
           H Hs).
Defined.

(** ** The prepass *)

(** X10.  When [connect] is called with [parent_connected == 0] on a node
    that passes the size test, and the first point [r] of the node is its
    own parent, then after the call every point of the node has [r] as
    parent, and every other cell of [head] is unchanged: the calls on the
    nodes below write no parent. *)
Theorem connect_small_node_star (d d' : TraverseData) (node : KDNode) (r : Z) :
  (kd_node_maxdist2 node <=? ll2 d)%float = true ->
  rd (ind d) (start node) = Some r ->
  rd (head d) r = Some r ->
  connect d node 0 = Some d' ->
  (forall p, p ∈ node_points (ind d) node -> rd (head d') p = Some r) /\
  (forall x, x ∉ node_points (ind d) node -> rd (head d') x = rd (head d) x).
Proof.
  intros Htest Hr Hrr Hrun.
  assert (Hnode : exists d1, connect_node d node 0 = Some (d1, 1) /\
                             head d' = head d1).
  { destruct node as [info | info sd l0 l1]; simpl in Hrun;
      destruct (connect_node d _ 0) as [[d1 c] |] eqn:Hn; try discriminate;
      pose proof (connect_node_spec _ _ _ _ _ Hn) as (Hc & _);
      unfold node_flag in Hc; simpl in Hc; rewrite Htest in Hc; subst c;
      exists d1; (split; [done |]).
    - by injection Hrun as <-.
    - destruct (connect d1 l0 1) as [d2 |] eqn:H2; [| discriminate].
      assert (Hne : 1 <> 0) by lia.
      rewrite (connect_inherited _ _ _ _ Hne Hrun).
      by rewrite (connect_inherited _ _ _ _ Hne H2). }
  destruct Hnode as (d1 & Hn & ->).
  apply connect_node_spec in Hn as (_ & _ & _ & _ & _ & _ & Hh).
  simpl in Hh. rewrite Htest in Hh. destruct Hh as (r' & Hr' & Hcp).
  assert (r' = r) by congruence. subst r'.
  apply connect_points_spec in Hcp as (_ & Hin & Hout).
  split.
  - intros p (i & Hi & Hp)%node_points_elem.
    destruct (decide (p ∈ omap (rd (ind d))
                        (range (start node + 1) (start node + size node))))
      as [Hlater | Hfirst].
    + apply Hin. apply list_elem_of_omap in Hlater as (k & Hk & Hkp).
      exists k. split; [by apply range_elem | done].
    + rewrite Hout.
      * destruct (decide (i = start node)) as [-> | Hne]; [congruence |].
        exfalso. apply Hfirst. apply list_elem_of_omap. exists i.
        split; [apply range_elem; lia | done].
      * intros (k & Hk & Hkp). apply Hfirst. apply list_elem_of_omap.
        exists k. split; [by apply range_elem | done].
  - intros x Hx. apply Hout. intros (k & Hk & Hkx).
    apply Hx, node_points_elem. exists k. split; [lia | done].
Qed.

Lemma connect_small_node_star_witness :
  (kd_node_maxdist2 ex_left <=? ll2 ex_setup)%float = true /\
  rd (ind ex_setup) (start ex_left) = Some 0 /\
  rd (head ex_setup) 0 = Some 0 /\
  exists d', connect ex_setup ex_left 0 = Some d' /\
    (forall p, p ∈ node_points (ind ex_setup) ex_left ->
       rd (head d') p = Some 0) /\
    (forall x, x ∉ node_points (ind ex_setup) ex_left ->
       rd (head d') x = rd (head ex_setup) x).
Proof.
  assert (Ht : (kd_node_maxdist2 ex_left <=? ll2 ex_setup)%float = true)
    by reflexivity.
  assert (Hr : rd (ind ex_setup) (start ex_left) = Some 0) by reflexivity.
  assert (Hrr : rd (head ex_setup) 0 = Some 0) by reflexivity.
  assert (H : connect ex_setup ex_left 0 =
              Some (mkTraverseData [0; 0; 2; 3] [0; 1; 2; 3]
                      (Some [0; 1; 1; 1; 0; 0; 0]) 1.5%float 2.25%float
                      0 3 0 0 0 0)) by reflexivity.
  split; [exact Ht |]. split; [exact Hr |]. split; [exact Hrr |].
  exists (mkTraverseData [0; 0; 2; 3] [0; 1; 2; 3] (Some [0; 1; 1; 1; 0; 0; 0])
            1.5%float 2.25%float 0 3 0 0 0 0).
  split; [exact H |].
  exact (connect_small_node_star ex_setup _ ex_left 0 Ht Hr Hrr H).
Defined.

(** X11.  When [connect] is called with [parent_connected != 0], it
    writes no cell of [head], sets the flag of the node and of every node
    below it to [1], and adds the number of these nodes to the counter
    [connected]. *)
Theorem connect_below_marked (d d' : TraverseData) (node : KDNode) (pc : Z) :
  pc <> 0 -> connect d node pc = Some d' ->
  head d' = head d /\
  connected d' = connected d + Z.of_nat (length (subnodes node)) /\
  exists f', node_connected d' = Some f' /\
    forall m, m ∈ subnodes node -> rd f' (index m) = Some 1.
Proof.
  intros Hpc Hrun. split; [by eapply connect_inherited |]. split.
  - pose proof (connect_fields _ _ _ _ Hrun) as (_ & _ & _ & _ & Hc).
    by rewrite (connected_nodes_all _ _ _ Hpc) in Hc.
  - destruct (connect_inherited_flags _ _ _ _ Hpc Hrun) as (f' & Hf' & Hflags).
    exists f'. split; [done |]. intros m Hm. apply Hflags.
    apply list_elem_of_fmap. by exists m.
Qed.

Lemma connect_below_marked_witness :
  1 <> 0 /\
  exists d', connect ex_setup ex_left 1 = Some d' /\
    head d' = head ex_setup /\
    connected d' = connected ex_setup + Z.of_nat (length (subnodes ex_left)) /\
    exists f', node_connected d' = Some f' /\
      forall m, m ∈ subnodes ex_left -> rd f' (index m) = Some 1.
Proof.
  assert (Hne : 1 <> 0) by lia.
  assert (H : connect ex_setup ex_left 1 =
              Some (mkTraverseData [0; 1; 2; 3] [0; 1; 2; 3]
                      (Some [0; 1; 1; 1; 0; 0; 0]) 1.5%float 2.25%float
                      0 3 0 0 0 0)) by reflexivity.
  split; [exact Hne |].
  exists (mkTraverseData [0; 1; 2; 3] [0; 1; 2; 3] (Some [0; 1; 1; 1; 0; 0; 0])
            1.5%float 2.25%float 0 3 0 0 0 0).
  split; [exact H |].
  exact (connect_below_marked ex_setup _ ex_left 1 Hne H).
Defined.

(** X12.  On a node of a well-formed tree, [connect] writes no cell of
    [head] other than those of the points of the node, and no flag other
    than those of the node and of the nodes below it. *)
Theorem connect_writes_inside_node (d d' : TraverseData) (node : KDNode)
    (pc : Z) :
  wf_node (Z.of_nat (length (ind d))) node ->
  connect d node pc = Some d' ->
  (forall x, x ∉ node_points (ind d) node -> rd (head d') x = rd (head d) x) /\
  exists f f', node_connected d = Some f /\ node_connected d' = Some f' /\
    forall k, k ∉ index <$> subnodes node -> rd f' k = rd f k.
Proof.
  intros Hwf Hrun. split; [by eapply connect_head_frame |].
  destruct (connect_flags_frame _ _ _ _ Hrun) as (f & f' & Hf & Hf' & _ & Hfr).
  by exists f, f'.
Qed.

Lemma connect_writes_inside_node_witness :
  wf_node (Z.of_nat (length (ind ex_setup))) ex_left /\
  exists d', connect ex_setup ex_left 0 = Some d' /\
    (forall x, x ∉ node_points (ind ex_setup) ex_left ->
       rd (head d') x = rd (head ex_setup) x) /\
    exists f f', node_connected ex_setup = Some f /\
      node_connected d' = Some f' /\
      forall k, k ∉ index <$> subnodes ex_left -> rd f' k = rd f k.
Proof.
  assert (Hwf : wf_node (Z.of_nat (length (ind ex_setup))) ex_left).
  { vm_compute. intuition congruence. }
  assert (H : connect ex_setup ex_left 0 =
              Some (mkTraverseData [0; 0; 2; 3] [0; 1; 2; 3]
                      (Some [0; 1; 1; 1; 0; 0; 0]) 1.5%float 2.25%float
                      0 3 0 0 0 0)) by reflexivity.
  split; [exact Hwf |].
  exists (mkTraverseData [0; 0; 2; 3] [0; 1; 2; 3] (Some [0; 1; 1; 1; 0; 0; 0])
            1.5%float 2.25%float 0 3 0 0 0 0).
  split; [exact H |].
  exact (connect_writes_inside_node ex_setup _ ex_left 0 Hwf H).
Defined.

(** X13.  After the prepass of a run on a well-formed input, every tree
    of [head] has depth at most one: the parent of every point is a
    root. *)
Theorem prepass_leaves_flat_trees (calloc_ok : bool) (tree : KDTree)
    (node : KDNode) (linking_length : float) (head0 : list Z)
    (d1 : TraverseData) (i : Z) :
  wf_input tree node head0 ->
  kd_fof_prepass calloc_ok tree node linking_length head0 = Some d1 ->
  0 <= i < size node -> flat (head d1) i.
Proof.
  intros (Hwf & Hnd & Hpts & Hlen) Hrun Hi. unfold kd_fof_prepass in Hrun.
  destruct (kd_fof_setup _ _ _ _ _) as [d0 |] eqn:H0; [| discriminate].
  apply kd_fof_setup_spec in H0 as (Hi0 & _ & _ & _ & _ & Hid & _).
  rewrite <- Hi0 in Hwf, Hnd, Hpts.
  assert (Hroots : forall p, p ∈ node_points (ind d0) node ->
                     rd (head d0) p = Some p).
  { intros p Hp. by apply Hid, Hpts. }
  destruct (connect_marks _ _ _ Hwf Hnd Hroots Hrun) as (Hout & Hin & _).
  destruct (decide (i ∈ node_points (ind d0) node)) as [Hp | Hp].
  - destruct (Hin i Hp) as (q & _ & Hiq & Hqq). by exists q.
  - exists i. rewrite (Hout i Hp). split; by apply Hid.
Qed.

Lemma prepass_leaves_flat_trees_witness :
  wf_input ex_tree ex_root ex_head /\
  kd_fof_prepass true ex_tree ex_root ex_ll ex_head = Some ex_prepassed /\
  0 <= 1 < size ex_root /\ flat (head ex_prepassed) 1.
Proof.
  assert (Hi : 0 <= 1 < size ex_root) by (change (0 <= 1 < 4); lia).
  split; [exact ex_wf_input |]. split; [reflexivity |]. split; [exact Hi |].
  exact (prepass_leaves_flat_trees true ex_tree ex_root ex_ll ex_head
           ex_prepassed 1 ex_wf_input eq_refl Hi).
Defined.

(** X14.  The marks go down the tree: after [connect] on a tree whose
    nodes have distinct indices, when the flag of a node is set, the flag
    of every node below it is set. *)
Theorem marks_go_down (d d' : TraverseData) (node m m' : KDNode)
    (f : list Z) (c : Z) :
  NoDup (index <$> subnodes node) ->
  connect d node 0 = Some d' -> node_connected d' = Some f ->
  m ∈ subnodes node -> m' ∈ subnodes m ->
  rd f (index m) = Some c -> c <> 0 ->
  exists c', rd f (index m') = Some c' /\ c' <> 0.
Proof.
  intros Hnd Hrun Hf Hm Hm' Hc Hc0.
  assert (Hmark : m ∈ connected_nodes (ll2 d) node 0).
  { apply (connect_flags_connected _ _ _ _ Hnd Hrun Hm). by exists f, c. }
  pose proof (connected_nodes_down _ _ _ _ _ Hmark Hm') as Hmark'.
  apply (connect_flags_connected _ _ _ _ Hnd Hrun) in Hmark'
      as (f' & c' & Hf' & Hc' & Hc'0); [| by eapply subnodes_trans].
  exists c'. split; [congruence | done].
Qed.

Lemma marks_go_down_witness :
  NoDup (index <$> subnodes ex_root) /\
  connect ex_setup ex_root 0 = Some ex_prepassed /\
  node_connected ex_prepassed = Some [0; 1; 1; 1; 0; 1; 1] /\
  ex_left ∈ subnodes ex_root /\ ex_leaf1 ∈ subnodes ex_left /\
  rd [0; 1; 1; 1; 0; 1; 1] (index ex_left) = Some 1 /\ 1 <> 0 /\
  exists c', rd [0; 1; 1; 1; 0; 1; 1] (index ex_leaf1) = Some c' /\ c' <> 0.
Proof.
  assert (Hnd : NoDup (index <$> subnodes ex_root)) by compute_done.
  assert (Hm : ex_left ∈ subnodes ex_root).
  { apply list_elem_of_further, list_elem_of_here. }
  assert (Hm' : ex_leaf1 ∈ subnodes ex_left).
  { apply list_elem_of_further, list_elem_of_further, list_elem_of_here. }
  assert (Hne : 1 <> 0) by lia.
  split; [exact Hnd |]. split; [reflexivity |]. split; [reflexivity |].
  split; [exact Hm |]. split; [exact Hm' |]. split; [reflexivity |].
  split; [exact Hne |].
  exact (marks_go_down ex_setup ex_prepassed ex_root ex_left ex_leaf1
           [0; 1; 1; 1; 0; 1; 1] 1 Hnd eq_refl eq_refl Hm Hm' eq_refl Hne).
Defined.

(** ** The run *)

(** X15.  The last loop of [kd_fof] gives every point [i < n] the root
    that it had when the loop started as label, and that root stays a
    root. *)
Theorem finalize_labels_are_roots (u : bool) (n : Z) (d d' : TraverseData)
    (i r : Z) :
  kd_fof_finalize u n d = Some d' -> 0 <= i < n ->
  root_of (head d) i r ->
  rd (head d') i = Some r /\ rd (head d') r = Some r.
Proof.
  intros (Hc & _ & _ & Hflat)%kd_fof_finalize_spec Hi Hroot.
  destruct (Hflat i Hi) as (r' & Hir' & Hr').
  assert (Hroot' : root_of (head d') i r').
  { eapply root_of_step; [exact Hir' | by apply root_of_root]. }
  apply (compressed_root_of _ _ _ _ Hc) in Hroot'.
  by rewrite (root_of_det _ _ _ _ Hroot Hroot').
Qed.

Lemma finalize_labels_are_roots_witness :
  exists d', kd_fof_finalize false 4 ex_chain = Some d' /\
  0 <= 3 < 4 /\ root_of (head ex_chain) 3 0 /\
  rd (head d') 3 = Some 0 /\ rd (head d') 0 = Some 0.
Proof.
  assert (Hi : 0 <= 3 < 4) by lia.
  assert (Hr : root_of (head ex_chain) 3 0).
  { exists [3; 2; 1].
    apply (path_step _ 3 2); [reflexivity | lia |].
    apply (path_step _ 2 1); [reflexivity | lia |].
    apply (path_step _ 1 0); [reflexivity | lia |].
    apply path_root. reflexivity. }
  assert (H : kd_fof_finalize false 4 ex_chain =
              Some (mkTraverseData [0; 0; 0; 0] [0; 1; 2; 3] None 1%float 1%float
                      0 0 0 2 4 5)) by reflexivity.
  exists (mkTraverseData [0; 0; 0; 0] [0; 1; 2; 3] None 1%float 1%float
            0 0 0 2 4 5).
  split; [exact H |]. split; [exact Hi |]. split; [exact Hr |].
  exact (finalize_labels_are_roots false 4 ex_chain _ 3 0 H Hi Hr).
Defined.

(** X16.  [kd_fof] overwrites the caller's array before it reads it: on
    two arrays of [node->size] cells, whatever they hold, the run gives
    the same result. *)
Theorem kd_fof_ignores_head_contents
    (enum_node_pairs : KDNode * KDNode -> float -> list (KDNode * KDNode))
    (enum_point_pairs : KDNode * KDNode -> float -> Z -> list (Z * Z))
    (u : bool) (fuel : nat) (calloc_ok : bool) (tree : KDTree) (node : KDNode)
    (linking_length : float) (head0 head0' : list Z) :
  Z.of_nat (length head0) = size node -> length head0' = length head0 ->
  kd_fof enum_node_pairs enum_point_pairs u fuel calloc_ok tree node
    linking_length head0 =
  kd_fof enum_node_pairs enum_point_pairs u fuel calloc_ok tree node
    linking_length head0'.
Proof.
  intros Hn Hlen.
  unfold kd_fof, kd_fof_traverse, kd_fof_prepass, kd_fof_setup.
  by rewrite (kd_fof_init_overwrites _ _ _ Hn Hlen).
Qed.

Lemma kd_fof_ignores_head_contents_witness :
  kd_fof ex_root_pair ex_point_pairs false 0 true ex_tree ex_root ex_ll ex_head =
  kd_fof ex_root_pair ex_point_pairs false 0 true ex_tree ex_root ex_ll
    [3; 2; 1; 0].
Proof.
  exact (kd_fof_ignores_head_contents ex_root_pair ex_point_pairs false 0 true
           ex_tree ex_root ex_ll ex_head [3; 2; 1; 0] eq_refl eq_refl).
Defined.

(** X17.  The labels of a run depend on the enumeration only through
    the set of point pairs it delivers: two runs on the same input, in
    either mode, whose enumerations deliver the same pairs (in any order,
    under any node pairs, any number of times) give the same partition. *)
Theorem partition_depends_on_delivered_set
    (enum_node_pairs enum_node_pairs' :
       KDNode * KDNode -> float -> list (KDNode * KDNode))
    (enum_point_pairs enum_point_pairs' :
       KDNode * KDNode -> float -> Z -> list (Z * Z))
    (u u' : bool) (fuel fuel' : nat) (calloc_ok : bool) (tree : KDTree)
    (node : KDNode) (linking_length : float) (head0 : list Z)
    (d d' : TraverseData) (rt rt' : Z) (x y : Z) :
  wf_input tree node head0 ->
  (forall i j, delivered enum_node_pairs enum_point_pairs node linking_length i j ->
     0 <= i < size node /\ 0 <= j < size node) ->
  (forall i j,
     delivered enum_node_pairs enum_point_pairs node linking_length i j <->
     delivered enum_node_pairs' enum_point_pairs' node linking_length i j) ->
  kd_fof enum_node_pairs enum_point_pairs u fuel calloc_ok tree node
    linking_length head0 = Some (d, rt) ->
  kd_fof enum_node_pairs' enum_point_pairs' u' fuel' calloc_ok tree node
    linking_length head0 = Some (d', rt') ->
  0 <= x < size node -> 0 <= y < size node ->
  rd (head d) x = rd (head d) y <-> rd (head d') x = rd (head d') y.
Proof.
  intros Hinput Hrange Hsame Hrun Hrun' Hx Hy.
  assert (Hpre : exists d1,
            kd_fof_prepass calloc_ok tree node linking_length head0 = Some d1).
  { apply kd_fof_inv in Hrun as (d0 & d1 & _ & _ & _ & H0 & H1 & _).
    exists d1. unfold kd_fof_prepass. by rewrite H0. }
  destruct Hpre as [d1 Hpre].
  assert (Hrange' : forall i j,
            delivered enum_node_pairs' enum_point_pairs' node linking_length i j ->
            0 <= i < size node /\ 0 <= j < size node).
  { intros i j Hij. by apply Hrange, Hsame. }
  rewrite (kd_fof_labels_closure _ _ _ _ _ _ _ _ _ _ _ _ Hinput Hrange Hpre Hrun
             x y Hx Hy).
  rewrite (kd_fof_labels_closure _ _ _ _ _ _ _ _ _ _ _ _ Hinput Hrange' Hpre Hrun'
             x y Hx Hy).
  split; apply chain_mono; unfold joined; intros a b [? | [? | ?]];
    (try by left); right; [left | right | left | right]; by apply Hsame.
Qed.

Lemma partition_depends_on_delivered_set_witness :
  kd_fof ex_root_pair ex_point_pairs false 0 true ex_tree ex_root ex_ll ex_head
    = Some (ex_final, 0) /\
  exists d', kd_fof ex_root_pair ex_point_pairs_rev true 0 true ex_tree ex_root
               ex_ll ex_head = Some (d', 0) /\
    (rd (head ex_final) 0 = rd (head ex_final) 2 <->
     rd (head d') 0 = rd (head d') 2).
Proof.
  assert (Hd : forall i j,
            delivered ex_root_pair ex_point_pairs ex_root ex_ll i j <->
            (i, j) ∈ [(0, 1); (1, 2)]).
  { intros i j. split.
    - intros (np & ->%list_elem_of_singleton & Hij). exact Hij.
    - intros Hij. exists (ex_root, ex_root).
      split; [apply list_elem_of_here | exact Hij]. }
  assert (Hd' : forall i j,
            delivered ex_root_pair ex_point_pairs_rev ex_root ex_ll i j <->
            (i, j) ∈ [(1, 2); (0, 1)]).
  { intros i j. split.
    - intros (np & _ & Hij). exact Hij.
    - intros Hij. exists (ex_root, ex_root).
      split; [apply list_elem_of_here | exact Hij]. }
  assert (Hrange : forall i j,
            delivered ex_root_pair ex_point_pairs ex_root ex_ll i j ->
            0 <= i < size ex_root /\ 0 <= j < size ex_root).
  { intros i j Hij%Hd. change (size ex_root) with 4.
    apply elem_of_cons in Hij as [[= -> ->] | Hij]; [lia |].
    apply list_elem_of_singleton in Hij as [= -> ->]. lia. }
  assert (Hsame : forall i j,
            delivered ex_root_pair ex_point_pairs ex_root ex_ll i j <->
            delivered ex_root_pair ex_point_pairs_rev ex_root ex_ll i j).
  { intros i j. rewrite Hd, Hd'. rewrite !elem_of_cons, !elem_of_nil. tauto. }
  assert (H0 : 0 <= 0 < size ex_root) by (change (0 <= 0 < 4); lia).
  assert (H2 : 0 <= 2 < size ex_root) by (change (0 <= 2 < 4); lia).
  assert (H : kd_fof ex_root_pair ex_point_pairs false 0 true ex_tree ex_root
                ex_ll ex_head = Some (ex_final, 0)) by reflexivity.
  assert (H' : kd_fof ex_root_pair ex_point_pairs_rev true 0 true ex_tree
                 ex_root ex_ll ex_head = Some (ex_final, 0)) by reflexivity.
  split; [exact H |]. exists ex_final. split; [exact H' |].
  exact (partition_depends_on_delivered_set ex_root_pair ex_root_pair
           ex_point_pairs ex_point_pairs_rev false true 0 0 true ex_tree ex_root
           ex_ll ex_head ex_final ex_final 0 0 0 2 ex_wf_input Hrange Hsame H H'
           H0 H2).
Defined.

(** X18.  On a well-formed tree without empty node, with an enumeration
    that delivers nodes of the tree and points of the node, [kd_fof]
    returns exactly when the enumeration finds no point pair under a
    delivered pair of two marked nodes. *)
Theorem kd_fof_returns_iff
    (enum_node_pairs : KDNode * KDNode -> float -> list (KDNode * KDNode))
    (enum_point_pairs : KDNode * KDNode -> float -> Z -> list (Z * Z))
    (u : bool) (fuel : nat) (tree : KDTree) (node : KDNode)
    (linking_length : float) (head0 : list Z) :
  wf_input tree node head0 ->
  (forall m, m ∈ subnodes node -> 0 <= index m < tree_size tree) ->
  NoDup (index <$> subnodes node) ->
  (forall np, np ∈ enum_node_pairs (node, node) linking_length ->
     fst np ∈ subnodes node /\ snd np ∈ subnodes node) ->
  (forall m, m ∈ subnodes node -> 0 < size m) ->
  (forall np i j, np ∈ enum_node_pairs (node, node) linking_length ->
     (i, j) ∈ enum_point_pairs np (linking_length * linking_length)%float 1 ->
     0 <= i < size node /\ 0 <= j < size node) ->
  (exists d, kd_fof enum_node_pairs enum_point_pairs u fuel true tree node
               linking_length head0 = Some (d, 0)) <->
  (forall np, np ∈ enum_node_pairs (node, node) linking_length ->
     fst np ∈ connected_nodes (linking_length * linking_length)%float node 0 ->
     snd np ∈ connected_nodes (linking_length * linking_length)%float node 0 ->
     enum_point_pairs np (linking_length * linking_length)%float 1 = []).
Proof.
  intros Hinput Hindex Hnd Hnodes Hsize Hpairs. split.
  - intros [d Hrun] np Hnp Hm0 Hm1.
    destruct (enum_point_pairs np _ 1) as [| e l] eqn:He; [done |].
    exfalso.
    rewrite (kd_fof_short_circuit enum_node_pairs enum_point_pairs u fuel tree
               node linking_length head0 Hinput Hnd Hnodes np Hnp Hm0 Hm1)
      in Hrun; [discriminate |].
    by rewrite He.
  - intros Hshort. by apply kd_fof_returns.
Qed.

Lemma kd_fof_returns_iff_witness :
  (exists d, kd_fof ex_root_pair ex_point_pairs false 0 true ex_tree ex_root
               ex_ll ex_head = Some (d, 0)) <->
  (forall np, np ∈ ex_root_pair (ex_root, ex_root) ex_ll ->
     fst np ∈ connected_nodes (ex_ll * ex_ll)%float ex_root 0 ->
     snd np ∈ connected_nodes (ex_ll * ex_ll)%float ex_root 0 ->
     ex_point_pairs np (ex_ll * ex_ll)%float 1 = []).
Proof.
  assert (Hindex : forall m, m ∈ subnodes ex_root ->
                     0 <= index m < tree_size ex_tree).
  { intros m Hm.
    destruct (ex_subnodes m Hm) as [-> | [-> | [-> | [-> | [-> | [-> | ->]]]]]];
      vm_compute; intuition congruence. }
  assert (Hnd : NoDup (index <$> subnodes ex_root)) by compute_done.
  assert (Hnodes : forall np, np ∈ ex_root_pair (ex_root, ex_root) ex_ll ->
                     fst np ∈ subnodes ex_root /\ snd np ∈ subnodes ex_root).
  { intros np ->%list_elem_of_singleton. split; apply list_elem_of_here. }
  assert (Hsize : forall m, m ∈ subnodes ex_root -> 0 < size m).
  { intros m Hm.
    destruct (ex_subnodes m Hm) as [-> | [-> | [-> | [-> | [-> | [-> | ->]]]]]];
      vm_compute; intuition congruence. }
  assert (Hpairs : forall np i j, np ∈ ex_root_pair (ex_root, ex_root) ex_ll ->
            (i, j) ∈ ex_point_pairs np (ex_ll * ex_ll)%float 1 ->
            0 <= i < size ex_root /\ 0 <= j < size ex_root).
  { intros np i j Hnp Hij.
    destruct (ex_root_pair_sound np i j Hnp Hij) as (Hi & Hj & _).
    change (size ex_root) with 4. split; [exact Hi | exact Hj]. }
  exact (kd_fof_returns_iff ex_root_pair ex_point_pairs false 0 ex_tree ex_root
           ex_ll ex_head ex_wf_input Hindex Hnd Hnodes Hsize Hpairs).
Defined.

(** X19.  With a linking length that is not a number no node passes the
    size test: the prepass marks no node and leaves every point as its
    own parent. *)
Theorem nan_linking_length_marks_nothing (calloc_ok : bool) (tree : KDTree)
    (node : KDNode) (head0 : list Z) (d1 : TraverseData) :
  kd_fof_prepass calloc_ok tree node nan head0 = Some d1 ->
  connected d1 = 0 /\
  forall i, 0 <= i < size node -> rd (head d1) i = Some i.
Proof.
  unfold kd_fof_prepass. intros Hrun.
  destruct (kd_fof_setup _ _ _ _ _) as [d0 |] eqn:H0; [| discriminate].
  apply kd_fof_setup_spec in H0 as (_ & Hll & _ & Hc0 & _ & Hid & _).
  change (nan * nan)%float with nan in Hll.
  apply connect_no_small_node in Hrun as [-> ->]; [done |].
  intros m _. rewrite Hll. apply leb_nan_r.
Qed.

Lemma nan_linking_length_marks_nothing_witness :
  exists d1, kd_fof_prepass true ex_tree ex_root nan ex_head = Some d1 /\
  connected d1 = 0 /\
  forall i, 0 <= i < size ex_root -> rd (head d1) i = Some i.
Proof.
  assert (H : kd_fof_prepass true ex_tree ex_root nan ex_head =
              Some (mkTraverseData [0; 1; 2; 3] [0; 1; 2; 3]
                      (Some [0; 0; 0; 0; 0; 0; 0]) nan nan 0 0 0 0 0 0))
    by reflexivity.
  exists (mkTraverseData [0; 1; 2; 3] [0; 1; 2; 3] (Some [0; 0; 0; 0; 0; 0; 0])
            nan nan 0 0 0 0 0 0).
  split; [exact H |].
  exact (nan_linking_length_marks_nothing true ex_tree ex_root ex_head _ H).
Defined.

(** X20.  [kd_fof] writes the cells [0 .. node->size - 1] of the caller's
    array without a check: on an array of fewer cells the first loop
    writes outside of it, and the run has no result. *)
Theorem kd_fof_needs_size_cells
    (enum_node_pairs : KDNode * KDNode -> float -> list (KDNode * KDNode))
    (enum_point_pairs : KDNode * KDNode -> float -> Z -> list (Z * Z))
    (u : bool) (fuel : nat) (calloc_ok : bool) (tree : KDTree) (node : KDNode)
    (linking_length : float) (head0 : list Z) :
  Z.of_nat (length head0) < size node ->
  kd_fof enum_node_pairs enum_point_pairs u fuel calloc_ok tree node
    linking_length head0 = None.
Proof.
  intros Hn. unfold kd_fof, kd_fof_traverse, kd_fof_prepass, kd_fof_setup.
  by rewrite (kd_fof_init_short _ _ Hn).
Qed.

Lemma kd_fof_needs_size_cells_witness :
  kd_fof ex_root_pair ex_point_pairs false 0 true ex_tree ex_root ex_ll
    [7; 7; 7] = None.
Proof.
  exact (kd_fof_needs_size_cells ex_root_pair ex_point_pairs false 0 true
           ex_tree ex_root ex_ll [7; 7; 7] eq_refl).
Defined.

(** ** The node-pair visitor *)

(** X21.  When one of the two nodes of the pair is not marked,
    [_kd_fof_check_nodes] hands every point pair of the enumeration to
    [_kd_fof_visit_edge] and returns [0]: the counter [visited] grows by
    the number of pairs and the two points of every pair then have the
    same root.  When the first node is not marked, the flag of the second
    is not read. *)
Theorem check_nodes_unmarked_pair
    (enum_point_pairs : KDNode * KDNode -> float -> Z -> list (Z * Z))
    (u : bool) (fuel : nat) (trav : TraverseData) (pair : KDEnumNodePair)
    (flags : list Z) (c0 : Z) :
  node_connected trav = Some flags ->
  rd flags (index (fst (nodes pair))) = Some c0 ->
  c0 = 0 \/ rd flags (index (snd (nodes pair))) = Some 0 ->
  forest (head trav) ->
  (forall i j, (i, j) ∈ enum_point_pairs (nodes pair) (ll2 trav) 1 ->
     0 <= i < Z.of_nat (length (head trav)) /\
     0 <= j < Z.of_nat (length (head trav))) ->
  exists trav',
    _kd_fof_check_nodes enum_point_pairs u fuel trav pair = Some (trav', 0) /\
    visited trav' =
      visited trav +
      Z.of_nat (length (enum_point_pairs (nodes pair) (ll2 trav) 1)) /\
    forest (head trav') /\
    forall i j, (i, j) ∈ enum_point_pairs (nodes pair) (ll2 trav) 1 ->
      same_root (head trav') i j.
Proof.
  intros Hf H0 Hc Hforest Hrange.
  destruct (enum_edges_total u _ _ Hforest Hrange) as (d' & He & Hf' & _).
  exists d'. split.
  - unfold _kd_fof_check_nodes, kd_enum_check. rewrite Hf, H0.
    destruct (Z.eqb_spec c0 0) as [_ | Hne]; [by rewrite He |].
    destruct Hc as [-> | ->]; [done |]. simpl. by rewrite He.
  - pose proof (enum_edges_counters _ _ _ _ _ He) as (Hv & _).
    split; [done |]. split; [done |].
    intros i j Hij. by eapply enum_edges_joins.
Qed.

Lemma check_nodes_unmarked_pair_witness :
  exists trav',
    _kd_fof_check_nodes ex_point_pairs false 0 ex_prepassed
      (mkKDEnumNodePair (ex_root, ex_root)) = Some (trav', 0) /\
    visited trav' =
      visited ex_prepassed +
      Z.of_nat (length (ex_point_pairs (ex_root, ex_root) (ll2 ex_prepassed) 1)) /\
    forest (head trav') /\
    forall i j, (i, j) ∈ ex_point_pairs (ex_root, ex_root) (ll2 ex_prepassed) 1 ->
      same_root (head trav') i j.
Proof.
  assert (Hforest : forest (head ex_prepassed)).
  { by destruct (kd_fof_prepass_forest true ex_tree ex_root ex_ll ex_head
                   ex_prepassed ex_wf_input eq_refl) as [Hf _]. }
  assert (Hrange : forall i j,
            (i, j) ∈ ex_point_pairs (ex_root, ex_root) (ll2 ex_prepassed) 1 ->
            0 <= i < Z.of_nat (length (head ex_prepassed)) /\
            0 <= j < Z.of_nat (length (head ex_prepassed))).
  { intros i j Hij. change ((i, j) ∈ [(0, 1); (1, 2)]) in Hij.
    change (Z.of_nat (length (head ex_prepassed))) with 4.
    apply elem_of_cons in Hij as [[= -> ->] | Hij]; [lia |].
    apply list_elem_of_singleton in Hij as [= -> ->]. lia. }
  exact (check_nodes_unmarked_pair ex_point_pairs false 0 ex_prepassed
           (mkKDEnumNodePair (ex_root, ex_root)) [0; 1; 1; 1; 0; 1; 1] 0
           eq_refl eq_refl (or_introl eq_refl) Hforest Hrange).
Defined.
